(** * tabview: the layout core of items.js, embedded and verified

    The development follows src/items.js: [Items.calcValidSize],
    [Item.pushAway] (with its inner functions [pushOne], [pushEach],
    the squish pass and its recursive [apply]), [Items.unsquish],
    [Item.setBounds], [Items.arrange], and the registry operations
    [Items.register], [Items.unregister], [Items.pushArrange] and
    [Items.resumeArrange]; further [Item.setPosition], [Item.setSize],
    [Item.setUserSize], [Item.overlapsWithOtherItems],
    [Items.getPageBounds], [Items.getBoundingBox], the mouse-move and
    stop handlers of [Item.resizable], the choice of the drop target in
    [Item.draggable] and, from the UI file, the box that
    [UI._createItemOnDrag] drags out.

    Numbers.  JavaScript numbers are binary64 floating-point numbers.
    They are modelled as exact rationals [Q]: every operation the code
    performs on coordinates is [+], [-], [*], [/], [Math.max],
    [Math.abs], [Math.floor] or a comparison, and none of the inputs
    considered is [NaN] or infinite.  Comparisons, [Math.max], [Math.min]
    and [Math.abs] are exact in binary64, and so are sums, differences
    and halves of whole numbers of the size of pixel coordinates; other
    sums, differences and quotients are rounded.  A statement whose
    conclusion needs such a result to be exact therefore assumes
    coordinates that are whole numbers ([whole]), and module [Double]
    has the push of one item on binary64 numbers themselves, to show
    what rounding does otherwise.  The only infinite number the code
    uses on purpose, the generation [Infinity], has a type of its own
    ([Gen.t]).  Numeric equality ([==] and [!=] of the source) is [Qeq];
    it is decided by [Qeq_bool]. *)

From Stdlib Require Import QArith Qminmax Qabs Qround Lqa Lia List Bool Arith.
From Stdlib Require PrimFloat.
From stdpp Require Import base option list.
Import ListNotations.

Local Open Scope Q_scope.

(** ** Comparisons of the source, as boolean functions *)

Definition Qltb (a b : Q) : bool :=
  match a ?= b with Lt => true | _ => false end.

Definition Qgtb (a b : Q) : bool := Qltb b a.

Definition Qleb (a b : Q) : bool := negb (Qltb b a).

Definition Qgeb (a b : Q) : bool := Qleb b a.

(** JavaScript truthiness of a (finite) number: anything but zero. *)
Definition truthy (a : Q) : bool := negb (Qeq_bool a 0).

(** ** Geometry *)

Module Point.

(** Modelled from the spec: the [Point] type is used by items.js but
    its file is not part of the sources.  Section 3 of the specification
    gives it as a 2D vector [{x, y}]. *)
Record t : Type := mk { x : Q; y : Q }.

End Point.

Module Rect.

(** Modelled from the spec: the [Rect] type is used by items.js but its
    file is not part of the sources.  Section 3 of the specification
    gives it as [{left, top, width, height}]. *)
Record t : Type := mk { left : Q; top : Q; width : Q; height : Q }.

(** Modelled from the spec: [right = left + width]. *)
Definition right (r : t) : Q := left r + width r.

(** Modelled from the spec: [bottom = top + height]. *)
Definition bottom (r : t) : Q := top r + height r.

(** Modelled from the spec: [center()], the middle of the rectangle. *)
Definition center (r : t) : Point.t :=
  Point.mk (left r + width r / 2) (top r + height r / 2).

(** Modelled from the spec: [inset(dx, dy)] shrinks (or, for negative
    arguments, grows) the rectangle symmetrically: each side moves
    inwards by [dx] (resp. [dy]). *)
Definition inset (r : t) (a b : Q) : t :=
  mk (left r + a) (top r + b) (width r - a * 2) (height r - b * 2).

(** Modelled from the spec: [offset(point)] translates the rectangle. *)
Definition offset (r : t) (p : Point.t) : t :=
  mk (left r + Point.x p) (top r + Point.y p) (width r) (height r).

(** Modelled from the spec: [this.intersects(rect)].  Rectangles that
    only share an edge do not intersect (the comparisons are strict), as
    in the geometry library items.js was written against. *)
Definition intersects (this rect : t) : bool :=
  Qgtb (right rect) (left this) && Qltb (left rect) (right this) &&
  Qgtb (bottom rect) (top this) && Qltb (top rect) (bottom this).

(** Modelled from the spec: [this.contains(rect)] for a rectangle
    argument; the boundary is included. *)
Definition contains (this a : t) : bool :=
  Qgeb (left a) (left this) && Qleb (right a) (right this) &&
  Qgeb (top a) (top this) && Qleb (bottom a) (bottom this).

(** Modelled from the spec: [equals], exact numeric comparison of the
    four fields. *)
Definition equals (this rect : t) : bool :=
  Qeq_bool (left rect) (left this) && Qeq_bool (top rect) (top this) &&
  Qeq_bool (width rect) (width this) && Qeq_bool (height rect) (height this).

Definition eq (r s : t) : Prop :=
  left r == left s /\ top r == top s /\
  width r == width s /\ height r == height s.

End Rect.

(** ** Constants of [Items] *)

Module Items.

Definition minItemHeight : Q := 110.
Definition minItemWidth : Q := 125.
Definition defaultGutter : Q := 15.

(** [Items.calcValidSize(size)].  [Utils.assert] is not part of the
    sources; it is taken to report a violated condition and let the
    function go on.  The condition asserted on the size is
    [calcValidSize_pre]. *)
Definition calcValidSize (size : Point.t) : Point.t :=
  Point.mk (Qmax (Point.x size) minItemWidth)
           (Qmax (Point.y size) minItemHeight).

Definition calcValidSize_pre (size : Point.t) : Prop :=
  (0 < Point.x size \/ 0 < Point.y size) /\
  (~ Point.x size == 0 /\ ~ Point.y size == 0).

(** The window, as far as the layout reads it. *)
Record Window : Type := { innerWidth : Q; innerHeight : Q }.

(** [Items.getSafeWindowBounds()]. *)
Definition getSafeWindowBounds (w : Window) : Rect.t :=
  let gutter := defaultGutter in
  let topGutter := 5 in
  Rect.mk gutter topGutter
          (innerWidth w - 2 * gutter)
          (innerHeight w - gutter - topGutter).

End Items.

(** ** Generations *)

Module Gen.

(** [data.generation]: a natural number or [Infinity]. *)
Inductive t : Type := Fin (n : nat) | Infinity.

(** [a <= b] on generations. *)
Definition leb (a b : t) : bool :=
  match a, b with
  | Fin m, Fin n => Nat.leb m n
  | Fin _, Infinity => true
  | Infinity, Fin _ => false
  | Infinity, Infinity => true
  end.

(** [g + 1]. *)
Definition succ (g : t) : t :=
  match g with Fin n => Fin (S n) | Infinity => Infinity end.

(** [g == 0]. *)
Definition is_zero (g : t) : bool :=
  match g with Fin O => true | _ => false end.

(** [a / g] for a finite number [a]: a finite number divided by
    [Infinity] is 0.  The source divides by a generation only after it
    has returned for generation 0. *)
Definition div (a : Q) (g : t) : Q :=
  match g with
  | Fin n => a / inject_Z (Z.of_nat n)
  | Infinity => 0
  end.

End Gen.

(** ** Items and their push-away scratch data *)

Module PushAwayData.

(** [item.pushAwayData].  [pusher] is a reference to an item: items are
    identified by their position in [Items.items]. *)
Record t : Type := mk {
  bounds : Rect.t;
  startBounds : Rect.t;
  generation : Gen.t;
  pusher : option nat
}.

Definition set_bounds (d : t) (b : Rect.t) : t :=
  mk b (startBounds d) (generation d) (pusher d).

Definition set_generation (d : t) (g : Gen.t) : t :=
  mk (bounds d) (startBounds d) g (pusher d).

End PushAwayData.

Module Item.

(** The fields of an [Item] that the layout reads or writes.  Every
    item of this program has [isAItem = true] (the constructor sets it
    and nothing clears it), so the field is not represented. *)
Record t : Type := mk {
  bounds : Rect.t;
  userSize : option Point.t;
  pushAwayData : option PushAwayData.t
}.

Definition set_bounds (it : t) (b : Rect.t) : t :=
  mk b (userSize it) (pushAwayData it).

Definition set_pushAwayData (it : t) (d : PushAwayData.t) : t :=
  mk (bounds it) (userSize it) (Some d).

(** [Item.setBounds(inRect)] without [options.force]: the size is
    conformed by [calcValidSize]; when nothing differs from the current
    bounds the function returns before the assignment. *)
Definition setBounds (this : t) (inRect : Rect.t) : t :=
  let validSize :=
    Items.calcValidSize (Point.mk (Rect.width inRect) (Rect.height inRect)) in
  let rect := Rect.mk (Rect.left inRect) (Rect.top inRect)
                      (Point.x validSize) (Point.y validSize) in
  if Qeq_bool (Rect.left rect) (Rect.left (bounds this)) &&
     Qeq_bool (Rect.top rect) (Rect.top (bounds this)) &&
     Qeq_bool (Rect.width rect) (Rect.width (bounds this)) &&
     Qeq_bool (Rect.height rect) (Rect.height (bounds this))
  then this
  else set_bounds this rect.

End Item.

(** ** Item.pushAway *)

Module PushAway.

Import PushAwayData.

(** [var buffer = Math.floor(Items.defaultGutter / 2)]. *)
Definition buffer : Q := inject_Z (Qfloor (Items.defaultGutter / 2)).

(** The offset computed inside [pushEach] for an overlapping item:
    [box] is the item's inflated box, [bb] the base's inflated box. *)
Definition pushOffset (box bb : Rect.t) : Point.t :=
  let bbc := Rect.center bb in
  let center := Rect.center box in
  if Qltb (Qabs (Point.x center - Point.x bbc))
          (Qabs (Point.y center - Point.y bbc))
  then
    if Qgtb (Point.y center) (Point.y bbc)
    then Point.mk 0 (Rect.bottom bb - Rect.top box)
    else Point.mk 0 (Rect.top bb - Rect.bottom box)
  else
    if Qgtb (Point.x center) (Point.x bbc)
    then Point.mk (Rect.right bb - Rect.left box) 0
    else Point.mk (Rect.left bb - Rect.right box) 0.

(** [Item_pushAway_pushOne_pushEach(item)] for the base [baseItem] with
    generation [baseGen] and inflated box [bb].  Returns the item's new
    scratch data and whether the item was added to [itemsToPush].  The
    offset and the new position are exact here; the source rounds them
    to binary64, which makes no difference on whole numbers
    ([Double.pushEach] is the same function on binary64 numbers). *)
Definition pushEach (baseItem : nat) (baseGen : Gen.t) (bb : Rect.t)
    (item : nat) (data : t) : t * bool :=
  if Nat.eqb item baseItem then (data, false)
  else if Gen.leb (generation data) baseGen then (data, false)
  else
    let box := Rect.inset (bounds data) (- buffer) (- buffer) in
    if Rect.intersects box bb then
      let offset := pushOffset box bb in
      (mk (Rect.offset (bounds data) offset) (startBounds data)
          (Gen.succ baseGen) (Some baseItem), true)
    else (data, false).

(** [items.forEach(pushEach)], from index [item] on: the new scratch
    data of all items and the items pushed, in order. *)
Fixpoint pushAll (baseItem : nat) (baseGen : Gen.t) (bb : Rect.t)
    (item : nat) (ds : list t) : list t * list nat :=
  match ds with
  | [] => ([], [])
  | data :: rest =>
      let '(data', pushed) := pushEach baseItem baseGen bb item data in
      let '(rest', q) := pushAll baseItem baseGen bb (S item) rest in
      (data' :: rest', if pushed then item :: q else q)
  end.

(** [Item_pushAway_pushOne(baseItem)]: the new scratch data and the
    items appended to [itemsToPush]. *)
Definition pushOne (baseItem : nat) (ds : list t) : option (list t * list nat) :=
  match ds !! baseItem with
  | None => None
  | Some baseData =>
      let bb := Rect.inset (bounds baseData) (- buffer) (- buffer) in
      Some (pushAll baseItem (generation baseData) bb O ds)
  end.

(** [while (itemsToPush.length) pushOne(itemsToPush.shift())].  The
    loop is bounded by [fuel]; [None] means the fuel ran out. *)
Fixpoint pushLoop (fuel : nat) (ds : list t) (itemsToPush : list nat)
    : option (list t) :=
  match itemsToPush with
  | [] => Some ds
  | baseItem :: rest =>
      match fuel with
      | O => None
      | S fuel' =>
          match pushOne baseItem ds with
          | None => None
          | Some (ds', pushed) => pushLoop fuel' ds' (rest ++ pushed)
          end
      end
  end.

(** [pushAway_setupPushAwayData(item)]. *)
Definition setupPushAwayData (item : Item.t) : t :=
  mk (Item.bounds item) (Item.bounds item) Gen.Infinity None.

(** Setup and seed: the scratch data when the loop starts. *)
Definition seed (items : list Item.t) (this : nat) : option (list t) :=
  let ds := map setupPushAwayData items in
  match ds !! this with
  | None => None
  | Some d => Some (<[this := set_generation d (Gen.Fin 0)]> ds)
  end.

(** Setup, seed and the propagation loop. *)
Definition propagate (fuel : nat) (items : list Item.t) (this : nat)
    : option (list t) :=
  match seed items this with
  | None => None
  | Some ds => pushLoop fuel ds [this]
  end.

(** [Item_pushAway_squish_apply(item, posStep, posStep2, sizeStep)]:
    the recursion follows the [pusher] references and is bounded by
    [fuel]. *)
Fixpoint apply (fuel : nat) (item : nat) (posStep posStep2 sizeStep : Point.t)
    (ds : list t) : option (list t) :=
  match fuel with
  | O => None
  | S fuel' =>
      match ds !! item with
      | None => None
      | Some data =>
          if Gen.is_zero (generation data) then Some ds
          else
            let b := bounds data in
            let validSize := Items.calcValidSize
              (Point.mk (Rect.width b - Point.x sizeStep)
                        (Rect.height b - Point.y sizeStep)) in
            let b' := Rect.mk (Rect.left b + Point.x posStep)
                              (Rect.top b + Point.y posStep)
                              (Point.x validSize) (Point.y validSize) in
            let ds' := <[item := set_bounds data b']> ds in
            match pusher data with
            | Some p =>
                let newPosStep :=
                  Point.mk (Point.x posStep + Point.x posStep2)
                           (Point.y posStep + Point.y posStep2) in
                apply fuel' p newPosStep posStep2 sizeStep ds'
            | None => Some ds'
            end
      end
  end.

(** One axis of the step computation of the squish pass: [lo] and [hi]
    are the item's edges on the axis ([left]/[right] or [top]/[bottom]),
    [plo] and [phi] those of the page bounds.  The result is
    [(posStep, posStep2, sizeStep)] on that axis. *)
Definition squishAxis (lo hi plo phi : Q) (g : Gen.t) : Q * Q * Q :=
  if Qltb lo plo then
    let posStep := plo - lo in
    let sizeStep := Gen.div posStep g in
    (posStep, - sizeStep, sizeStep)
  else if Qgtb hi phi then
    let posStep := phi - hi in
    let sizeStep := Gen.div (- posStep) g in
    (posStep + sizeStep, sizeStep, sizeStep)
  else (0, 0, 0).

(** [Item_pushAway_squish(item)]. *)
Definition squishItem (fuel : nat) (pageBounds : Rect.t) (item : nat)
    (ds : list t) : option (list t) :=
  match ds !! item with
  | None => None
  | Some data =>
      if Gen.is_zero (generation data) then Some ds
      else
        let b := bounds data in
        let '(px, p2x, sx) :=
          squishAxis (Rect.left b) (Rect.right b)
                     (Rect.left pageBounds) (Rect.right pageBounds)
                     (generation data) in
        let '(py, p2y, sy) :=
          squishAxis (Rect.top b) (Rect.bottom b)
                     (Rect.top pageBounds) (Rect.bottom pageBounds)
                     (generation data) in
        if truthy px || truthy py || truthy sx || truthy sy
        then apply fuel item (Point.mk px py) (Point.mk p2x p2y)
                   (Point.mk sx sy) ds
        else Some ds
  end.

(** [items.forEach(f)] for an [f] that works on the item at an index
    and may run out of fuel. *)
Fixpoint forEachItem {S : Type} (f : nat -> S -> option S)
    (indices : list nat) (s : S) : option S :=
  match indices with
  | [] => Some s
  | i :: rest =>
      match f i s with
      | None => None
      | Some s' => forEachItem f rest s'
      end
  end.

(** The squish pass. *)
Definition squish (fuel : nat) (pageBounds : Rect.t) (ds : list t)
    : option (list t) :=
  forEachItem (squishItem fuel pageBounds) (seq 0 (length ds)) ds.

End PushAway.

(** ** The push of one item, on binary64 numbers *)

Module Double.

Import PrimFloat.
Local Open Scope float_scope.

(** Modelled from the spec: [Point] and [Rect] as in the modules [Point]
    and [Rect] above, with the numbers JavaScript has. *)
Record Point : Type := mkPoint { x : float; y : float }.

Record Rect : Type := mkRect {
  left : float; top : float; width : float; height : float
}.

Definition right (r : Rect) : float := left r + width r.

Definition bottom (r : Rect) : float := top r + height r.

Definition center (r : Rect) : Point :=
  mkPoint (left r + width r / 2) (top r + height r / 2).

Definition inset (r : Rect) (a b : float) : Rect :=
  mkRect (left r + a) (top r + b) (width r - a * 2) (height r - b * 2).

Definition offset (r : Rect) (p : Point) : Rect :=
  mkRect (left r + x p) (top r + y p) (width r) (height r).

Definition intersects (this rect : Rect) : bool :=
  (left this <? right rect) && (left rect <? right this) &&
  (top this <? bottom rect) && (top rect <? bottom this).

(** [Math.floor(Items.defaultGutter / 2)], that is [Math.floor(7.5)]. *)
Definition buffer : float := 7.

Definition inflate (r : Rect) : Rect := inset r (- buffer) (- buffer).

(** The offset computed inside [pushEach], as [PushAway.pushOffset]. *)
Definition pushOffset (box bb : Rect) : Point :=
  let bbc := center bb in
  let center := center box in
  if abs (x center - x bbc) <? abs (y center - y bbc) then
    if y bbc <? y center
    then mkPoint 0 (bottom bb - top box)
    else mkPoint 0 (top bb - bottom box)
  else
    if x bbc <? x center
    then mkPoint (right bb - left box) 0
    else mkPoint (left bb - right box) 0.

(** The scratch data of an item, without the start bounds. *)
Record Data : Type := mkData {
  bounds : Rect; generation : Gen.t; pusher : option nat
}.

(** [Item_pushAway_pushOne_pushEach(item)], as [PushAway.pushEach]. *)
Definition pushEach (baseItem : nat) (baseGen : Gen.t) (bb : Rect)
    (item : nat) (data : Data) : Data * bool :=
  if Nat.eqb item baseItem then (data, false)
  else if Gen.leb (generation data) baseGen then (data, false)
  else
    let box := inflate (bounds data) in
    if intersects box bb then
      (mkData (offset (bounds data) (pushOffset box bb))
              (Gen.succ baseGen) (Some baseItem), true)
    else (data, false).

(** A base and an item with bounds in thirds of a pixel, as the squish
    pass leaves them when it divides by a generation: the base is
    [(93, 100, 364.33.., 200)], the item [(135.66.., 120, 294.66.., 150)],
    not pushed yet. *)
Definition thirdsBase : Rect := mkRect 93 100 (1093 / 3) 200.

(** A base and an item at whole-number coordinates, and where the base
    pushes the item's left edge to. *)
Definition wholeBase : Rect := mkRect 500 500 200 200.

Definition wholeItem : Data :=
  mkData (mkRect 650 520 200 150) Gen.Infinity None.

Definition wholeLeft : float := 714.

Definition thirdsItem : Data :=
  mkData (mkRect (407 / 3) 120 (884 / 3) 150) Gen.Infinity None.

End Double.

(** ** Items.unsquish *)

Module Unsquish.

(** An element of [pairs].  In [pushAway] the [bounds] of a pair is the
    very object [data.bounds]; the caller below writes the result back. *)
Record Pair : Type := mkPair { item : Item.t; bounds : Rect.t }.

(** The rectangle [newBounds] that [unsquish] tries for a pair: grown to
    the preferred size around the centre, then moved back into the page
    bounds. *)
Definition target (pageBounds : Rect.t) (pr : Pair) : Rect.t :=
  let b := bounds pr in
  let newSize :=
    match Item.userSize (item pr) with
    | Some u => u
    | None => Items.calcValidSize (Point.mk Items.minItemWidth (-1))
    end in
  let w := Qmax (Rect.width b) (Point.x newSize) in
  let h := Qmax (Rect.height b) (Point.y newSize) in
  let newBounds :=
    Rect.mk (Rect.left b - (w - Rect.width b) / 2)
            (Rect.top b - (h - Rect.height b) / 2) w h in
  let ox :=
    if Qltb (Rect.left newBounds) (Rect.left pageBounds)
    then Rect.left pageBounds - Rect.left newBounds
    else if Qgtb (Rect.right newBounds) (Rect.right pageBounds)
    then Rect.right pageBounds - Rect.right newBounds
    else 0 in
  let oy :=
    if Qltb (Rect.top newBounds) (Rect.top pageBounds)
    then Rect.top pageBounds - Rect.top newBounds
    else if Qgtb (Rect.bottom newBounds) (Rect.bottom pageBounds)
    then Rect.bottom pageBounds - Rect.bottom newBounds
    else 0 in
  Rect.offset newBounds (Point.mk ox oy).

(** The inner [pairs.forEach(pair2 => ...)] from index [j] on: whether
    some other pair's bounds intersect [newBounds]. *)
Fixpoint blocked (i : nat) (newBounds : Rect.t) (j : nat)
    (pairs : list Pair) : bool :=
  match pairs with
  | [] => false
  | pair2 :: rest =>
      (negb (Nat.eqb j i) && Rect.intersects (bounds pair2) newBounds)
      || blocked i newBounds (S j) rest
  end.

(** The body of the outer [pairs.forEach], for the pair at index [i]. *)
Definition unsquishPair (pageBounds : Rect.t) (i : nat) (pairs : list Pair)
    : list Pair :=
  match pairs !! i with
  | None => pairs
  | Some pr =>
      let newBounds := target pageBounds pr in
      if negb (Rect.equals (bounds pr) newBounds) &&
         negb (blocked i newBounds O pairs)
      then <[i := mkPair (item pr) newBounds]> pairs
      else pairs
  end.

(** [Items.unsquish(pairs)] with [pairs] provided and nothing ignored. *)
Definition unsquish (pageBounds : Rect.t) (pairs : list Pair) : list Pair :=
  fold_left (fun ps i => unsquishPair pageBounds i ps)
            (seq 0 (length pairs)) pairs.

End Unsquish.

Module PushAwayPass.

(** [Item_pushAway_setBounds(item)], with the scratch data left attached
    to the item. *)
Definition commit (item : Item.t) (data : PushAwayData.t) : Item.t :=
  let item' := Item.set_pushAwayData item data in
  if negb (Rect.equals (PushAwayData.bounds data) (PushAwayData.startBounds data))
  then Item.setBounds item' (PushAwayData.bounds data)
  else item'.

(** The scratch data at the end of the pass, before the changes are
    applied: propagation, squish, unsquish. *)
Definition resolve (fuel : nat) (w : Items.Window) (items : list Item.t)
    (this : nat) : option (list PushAwayData.t) :=
  match PushAway.propagate fuel items this with
  | None => None
  | Some ds =>
      let pageBounds := Items.getSafeWindowBounds w in
      match PushAway.squish fuel pageBounds ds with
      | None => None
      | Some ds' =>
          let pairs :=
            zip_with (fun it d => Unsquish.mkPair it (PushAwayData.bounds d))
                     items ds' in
          let pairs' := Unsquish.unsquish pageBounds pairs in
          Some (zip_with (fun d p =>
                            PushAwayData.set_bounds d (Unsquish.bounds p))
                         ds' pairs')
      end
  end.

(** [this.pushAway()] where [this] is the item at index [this] of
    [Items.items] and [items] is that list.  The result is the list of
    items after the pass. *)
Definition pushAway (fuel : nat) (w : Items.Window) (items : list Item.t)
    (this : nat) : option (list Item.t) :=
  if (length items <? 2)%nat then Some items
  else
    match resolve fuel w items this with
    | None => None
    | Some ds => Some (zip_with commit items ds)
    end.

End PushAwayPass.

(** ** Items.arrange *)

Module Arrange.

(** What [arrange] reads of an item of its [items] argument: the parsed
    [margin-left] of the item's container, an integer. *)
Record ArrItem : Type := { marginLeft : Z }.

(** The properties of [options] that [arrange] reads ([animate] and [z]
    have no effect on the result).  An absent property is [None];
    [returnWidthAndColumns] stands for [options.return == 'widthAndColumns']. *)
Record Options : Type := {
  count : option nat;
  columns : option nat;
  addTab : bool;
  dropPos : option Point.t;
  returnWidthAndColumns : bool
}.

(** The values [dropIndex] can take: [false], [null] or an index. *)
Inductive DropIndex : Type := DropFalse | DropNull | DropAt (a : nat).

(** The objects [arrange] returns.  The object returned for an empty
    arrangement has no [columns] property. *)
Inductive Result : Type :=
| Arranged (rects : list Rect.t) (dropIndex : DropIndex) (columns : option nat)
| WidthAndColumns (childWidth : Q) (columns : nat).

(** [a || b] on counts: 0 and an absent value are both falsy. *)
Definition orElse (a : option nat) (b : nat) : nat :=
  match a with
  | Some (S n) => S n
  | _ => b
  end.

Definition Qnat (n : nat) : Q := inject_Z (Z.of_nat n).

(** The values [figure()] assigns. *)
Record Figure : Type := {
  rows : nat;
  tabWidth : Q;
  tabHeight : Q;
  totalHeight : Q
}.

Section Layout.

(** [count], [bounds], [padding] as [figure] and the loops see them. *)
Variable count : nat.
Variable bounds : Rect.t.
Variable itemMargin : Q.
Variable rtl : bool.

Definition padding : Q := itemMargin * 2.

(** [function figure()], for the current value of [columns]. *)
Definition figure (columns : nat) : Figure :=
  let rows := Z.to_nat (Qceiling (Qnat count / Qnat columns)) in
  let validSize := Items.calcValidSize
    (Point.mk ((Rect.width bounds - padding * Qnat columns) / Qnat columns)
              (-1)) in
  {| rows := rows;
     tabWidth := Point.x validSize;
     tabHeight := Point.y validSize;
     totalHeight := Point.y validSize * Qnat rows + padding * Qnat rows |}.

(** [figure(); while (rows > 1 && totalHeight > bounds.height)
    { columns++; figure(); }], bounded by [fuel]. *)
Fixpoint figureLoop (fuel : nat) (columns : nat) : option (nat * Figure) :=
  let f := figure columns in
  if (1 <? rows f)%nat && Qgtb (totalHeight f) (Rect.height bounds) then
    match fuel with
    | O => None
    | S fuel' => figureLoop fuel' (S columns)
    end
  else Some (columns, f).

(** The state of the [for] loop that emits the rectangles. *)
Record Emit : Type := {
  box : Rect.t;
  column : nat;
  dropIndex : DropIndex;
  rects : list Rect.t
}.

(** One iteration of the [for] loop, for the index [a].  The sums that
    move the box are exact here; the source rounds each of them to
    binary64, which makes no difference when the bounds and the cell
    size are whole numbers. *)
Definition emitStep (columns : nat) (initialOffset : Q)
    (dropRect : option Rect.t) (a : nat) (e : Emit) : Emit :=
  let dropIndex' :=
    match dropRect with
    | Some dr =>
        let activeBox :=
          Rect.inset (box e) (- itemMargin - 1) (- itemMargin - 1) in
        if Rect.contains activeBox dr then DropAt a else dropIndex e
    | None => dropIndex e
    end in
  let rects' := rects e ++ [box e] in
  let b := box e in
  let b1 := Rect.mk (Rect.left b
                      + (if rtl then -1 else 1) * (Rect.width b + padding))
                    (Rect.top b) (Rect.width b) (Rect.height b) in
  let column1 := S (column e) in
  if Nat.eqb column1 columns then
    {| box := Rect.mk (Rect.left bounds + initialOffset)
                      (Rect.top b1 + (Rect.height b1 + padding))
                      (Rect.width b1) (Rect.height b1);
       column := O; dropIndex := dropIndex'; rects := rects' |}
  else
    {| box := b1; column := column1;
       dropIndex := dropIndex'; rects := rects' |}.

(** [for (let a = 0; a < count; a++)], from [a] on for [n] iterations. *)
Fixpoint emitLoop (columns : nat) (initialOffset : Q)
    (dropRect : option Rect.t) (n a : nat) (e : Emit) : Emit :=
  match n with
  | O => e
  | S n' =>
      emitLoop columns initialOffset dropRect n' (S a)
               (emitStep columns initialOffset dropRect a e)
  end.

End Layout.

(** [options.count || (items ? items.length : 0)], incremented when
    [options.addTab] is set. *)
Definition itemCount (items : option (list ArrItem)) (options : Options) : nat :=
  let count0 :=
    orElse (count options)
           (match items with Some l => length l | None => O end) in
  if addTab options then S count0 else count0.

(** [items && items.length ? parseInt(...css('margin-left')) : 0]. *)
Definition itemMarginOf (items : option (list ArrItem)) : Q :=
  match items with
  | Some (it :: _) => inject_Z (marginLeft it)
  | _ => 0
  end.

(** [new Rect(options.dropPos.x, options.dropPos.y, 1, 1)]. *)
Definition dropRectOf (options : Options) : option Rect.t :=
  match dropPos options with
  | Some p => Some (Rect.mk (Point.x p) (Point.y p) 1 1)
  | None => None
  end.

(** [Items.arrange(items, bounds, options)].  [rtl] is [UI.rtl].  The
    [while] loop runs with [count] units of fuel, which is always
    enough ([figureLoop_returns]). *)
Definition arrange (rtl : bool) (items : option (list ArrItem))
    (bounds : Rect.t) (options : Options) : option Result :=
  let count := itemCount items options in
  match count with
  | O =>
      Some (Arranged []
              (match dropPos options with Some _ => DropAt 0 | None => DropNull end)
              None)
  | S _ =>
      let columns0 := orElse (columns options) 1%nat in
      let itemMargin := itemMarginOf items in
      match figureLoop count bounds itemMargin count columns0 with
      | None => None
      | Some (columns, f) =>
          let '(tabWidth, tabHeight) :=
            if Nat.eqb (rows f) 1 then
              let validSize := Items.calcValidSize
                (Point.mk (tabWidth f) (Rect.height bounds - 2 * itemMargin)) in
              (Point.x validSize, Point.y validSize)
            else (tabWidth f, tabHeight f) in
          if returnWidthAndColumns options then
            Some (WidthAndColumns tabWidth columns)
          else
            let initialOffset :=
              if rtl then Rect.width bounds - tabWidth - padding itemMargin
              else 0 in
            let box := Rect.mk (Rect.left bounds + initialOffset)
                               (Rect.top bounds) tabWidth tabHeight in
            let e := emitLoop bounds itemMargin rtl columns initialOffset
                              (dropRectOf options) count O
                              {| box := box; column := O;
                                 dropIndex := DropFalse; rects := [] |} in
            Some (Arranged (rects e) (dropIndex e) (Some columns))
      end
  end.

End Arrange.

(** ** The registry: Items.register, unregister, pushArrange, resumeArrange *)

Module Registry.

Section Registry.

(** [ItemRef] is the identity of an item object; [Opts] the options
    object passed to [arrange]; [MRUList] the type of
    [Items._lastActiveList], whose [remove] method is [MRU_remove]. *)
Context {ItemRef : Type} `{EqDecision ItemRef}.
Context {Opts : Type} {MRUList : Type}.
Variable MRU_remove : ItemRef -> MRUList -> MRUList.

(** An element of [_arrangesPending]. *)
Record ArrangeInfo : Type := { item : ItemRef; options : Opts }.

(** The mutable fields of [Items] that the four operations touch. *)
Record State : Type := {
  items : list ItemRef;
  _activeItem : option ItemRef;
  _arrangePaused : bool;
  _arrangesPending : list ArrangeInfo;
  _lastActiveList : MRUList
}.

(** [array.indexOf(item)]: the first index holding [item]. *)
Fixpoint indexOf (it : ItemRef) (l : list ItemRef) : option nat :=
  match l with
  | [] => None
  | x :: rest =>
      if decide (x = it) then Some O
      else option_map S (indexOf it rest)
  end.

(** [Items.register(item)]; the assertion is [register_pre]. *)
Definition register (it : ItemRef) (s : State) : State :=
  {| items := items s ++ [it];
     _activeItem := _activeItem s;
     _arrangePaused := _arrangePaused s;
     _arrangesPending := _arrangesPending s;
     _lastActiveList := _lastActiveList s |}.

Definition register_pre (it : ItemRef) (s : State) : Prop :=
  indexOf it (items s) = None.

(** [a != b] on item references. *)
Definition differs (a b : ItemRef) : bool := negb (bool_decide (a = b)).

(** [Items.unregister(item)]. *)
Definition unregister (it : ItemRef) (s : State) : State :=
  {| items :=
       match indexOf it (items s) with
       | Some index => delete index (items s)
       | None => items s
       end;
     _activeItem :=
       if decide (Some it = _activeItem s) then None else _activeItem s;
     _arrangePaused := _arrangePaused s;
     _arrangesPending :=
       List.filter (fun pending => differs it (item pending))
                   (_arrangesPending s);
     _lastActiveList := MRU_remove it (_lastActiveList s) |}.

(** The [for] loop of [pushArrange]: the first index [i], counted from
    [i0], whose entry is for [it], or the length of the list. *)
Fixpoint findPending (it : ItemRef) (i0 : nat) (l : list ArrangeInfo) : nat :=
  match l with
  | [] => i0
  | g :: rest =>
      if decide (item g = it) then i0 else findPending it (S i0) rest
  end.

(** [Items.pushArrange(item, options)]. *)
Definition pushArrange (it : ItemRef) (o : Opts) (s : State) : State :=
  let i := findPending it O (_arrangesPending s) in
  let arrangeInfo := {| item := it; options := o |} in
  {| items := items s;
     _activeItem := _activeItem s;
     _arrangePaused := _arrangePaused s;
     _arrangesPending :=
       if (i <? length (_arrangesPending s))%nat
       then <[i := arrangeInfo]> (_arrangesPending s)
       else _arrangesPending s ++ [arrangeInfo];
     _lastActiveList := _lastActiveList s |}.

(** [Items.resumeArrange()]: the calls [g.item.arrange(g.options)] it
    makes, in order, and the new state.  The called [arrange] is a
    method of the item and is not part of [Items]; it is recorded, not
    interpreted. *)
Definition resumeArrange (s : State) : list ArrangeInfo * State :=
  (_arrangesPending s,
   {| items := items s;
      _activeItem := _activeItem s;
      _arrangePaused := false;
      _arrangesPending := [];
      _lastActiveList := _lastActiveList s |}).

(** [Items.pauseArrange()]. *)
Definition pauseArrange (s : State) : State :=
  {| items := items s;
     _activeItem := _activeItem s;
     _arrangePaused := true;
     _arrangesPending := _arrangesPending s;
     _lastActiveList := _lastActiveList s |}.

(** A series of [pushArrange] calls, first call first. *)
Definition pushArranges (calls : list (ItemRef * Opts)) (s : State) : State :=
  fold_left (fun s c => pushArrange (fst c) (snd c) s) calls s.

End Registry.

End Registry.

(** ** More of the geometry *)

Module RectOps.

(** Modelled from the spec: [this.intersection(rect)], the common part of
    two rectangles; section 4.1 of the specification has it return a
    sentinel ([null]) for disjoint rectangles and never a rectangle of
    negative size. *)
Definition intersection (this rect : Rect.t) : option Rect.t :=
  let l := Qmax (Rect.left rect) (Rect.left this) in
  let t := Qmax (Rect.top rect) (Rect.top this) in
  let w := Qmin (Rect.right rect) (Rect.right this) - l in
  let h := Qmin (Rect.bottom rect) (Rect.bottom this) - t in
  if Qgtb w 0 && Qgtb h 0 then Some (Rect.mk l t w h) else None.

(** Modelled from the spec: [area()] is width times height. *)
Definition area (r : Rect.t) : Q := Rect.width r * Rect.height r.

(** Modelled from the spec: the rectangle spanned by two corner points;
    section 4.1 of the specification derives its width and height as
    max - min.  The source builds it by assigning [left], [right], [top]
    and [bottom] of a fresh [Rect]. *)
Definition spanning (left right top bottom : Q) : Rect.t :=
  Rect.mk left top (right - left) (bottom - top).

End RectOps.

(** ** More of [Item] *)

Module ItemOps.

(** The callback of [items.some] in [overlapsWithOtherItems], from index
    [j] on: [self] is the position of [this] in the list, [bounds] its
    bounds. *)
Fixpoint someOther (self : nat) (bounds : Rect.t) (j : nat)
    (items : list Item.t) : bool :=
  match items with
  | [] => false
  | item :: rest =>
      (negb (Nat.eqb j self) && Rect.intersects (Item.bounds item) bounds)
      || someOther self bounds (S j) rest
  end.

(** [this.overlapsWithOtherItems()], for the item [this] at position
    [self] of [Items.items]. *)
Definition overlapsWithOtherItems (items : list Item.t) (self : nat)
    (this : Item.t) : bool :=
  someOther self (Item.bounds this) O items.

(** [this.setPosition(left, top)]. *)
Definition setPosition (this : Item.t) (left top : Q) : Item.t :=
  Item.setBounds this
    (Rect.mk left top (Rect.width (Item.bounds this))
                      (Rect.height (Item.bounds this))).

(** [this.setSize(width, height)]. *)
Definition setSize (this : Item.t) (width height : Q) : Item.t :=
  Item.setBounds this
    (Rect.mk (Rect.left (Item.bounds this)) (Rect.top (Item.bounds this))
             width height).

(** [this.setUserSize()]. *)
Definition setUserSize (this : Item.t) : Item.t :=
  Item.mk (Item.bounds this)
          (Some (Point.mk (Rect.width (Item.bounds this))
                          (Rect.height (Item.bounds this))))
          (Item.pushAwayData this).

End ItemOps.

(** ** More of [Items] *)

Module ItemsOps.

(** [Items.getPageBounds()]. *)
Definition getPageBounds (w : Items.Window) : Rect.t :=
  let width := Qmax 100 (Items.innerWidth w) in
  let height := Qmax 100 (Items.innerHeight w) in
  Rect.mk 0 0 width height.

(** [Math.min.apply({}, l)] and [Math.max.apply({}, l)] for a list with
    first element [x]. *)
Definition minOf (x : Q) (l : list Q) : Q := fold_left Qmin l x.
Definition maxOf (x : Q) (l : list Q) : Q := fold_left Qmax l x.

(** [Items.getBoundingBox(els)], given the bounds of the elements.  For
    an empty list the source computes with [Infinity] and the result is
    not a rectangle of finite numbers: [None].  The differences
    [right - left] and [bottom - top] are exact here; the source rounds
    them to binary64, which makes no difference on whole numbers. *)
Definition getBoundingBox (bounds : list Rect.t) : option Rect.t :=
  match bounds with
  | [] => None
  | b :: bs =>
      let left := minOf (Rect.left b) (map Rect.left bs) in
      let top := minOf (Rect.top b) (map Rect.top bs) in
      let right := maxOf (Rect.right b) (map Rect.right bs) in
      let bottom := maxOf (Rect.bottom b) (map Rect.bottom bs) in
      Some (Rect.mk left top (right - left) (bottom - top))
  end.

(** [Items.unsquish()] called without arguments, as [Item.close] does:
    the pairs are built from the items, and at the end every item is
    given the bounds of its pair. *)
Definition unsquish (w : Items.Window) (items : list Item.t) : list Item.t :=
  let pairs := map (fun item => Unsquish.mkPair item (Item.bounds item)) items in
  let pairs' := Unsquish.unsquish (Items.getSafeWindowBounds w) pairs in
  map (fun pair => Item.setBounds (Unsquish.item pair) (Unsquish.bounds pair))
      pairs'.

End ItemsOps.

(** ** Item.resizable: the mouse-move handler *)

Module Resize.

(** The properties of [resizeOptions] that the handler reads. *)
Record Options : Type := {
  minWidth : Q;
  minHeight : Q;
  aspectRatio : bool
}.

(** The options of every item: [setResizable] stores the minimum item
    size, and [keepProportional] is false. *)
Definition itemOptions : Options :=
  {| minWidth := Items.minItemWidth;
     minHeight := Items.minItemHeight;
     aspectRatio := false |}.

(** The box [handleMouseMove] computes from the item's bounds [box].
    [startMouse] and [startSize] are what the mouse-down handler recorded,
    [mouse] is the current position; [rtl] is [UI.rtl]. *)
Definition resizedBox (rtl : bool) (o : Options)
    (startMouse startSize mouse : Point.t) (box : Rect.t) : Rect.t :=
  let startAspect := Point.y startSize / Point.x startSize in
  let box1 :=
    if rtl then
      let oldWidth := Rect.width box in
      if negb (Qeq_bool (minWidth o) oldWidth)
         || Qltb (Point.x mouse) (Point.x startMouse)
      then
        let w := Qmax (minWidth o)
                      (Point.x startSize - (Point.x mouse - Point.x startMouse)) in
        Rect.mk (Rect.left box - (w - oldWidth)) (Rect.top box) w (Rect.height box)
      else box
    else
      Rect.mk (Rect.left box) (Rect.top box)
              (Qmax (minWidth o)
                    (Point.x startSize + (Point.x mouse - Point.x startMouse)))
              (Rect.height box) in
  let box2 :=
    Rect.mk (Rect.left box1) (Rect.top box1) (Rect.width box1)
            (Qmax (minHeight o)
                  (Point.y startSize + (Point.y mouse - Point.y startMouse))) in
  if aspectRatio o then
    if Qltb startAspect 1
    then Rect.mk (Rect.left box2) (Rect.top box2) (Rect.width box2)
                 (Rect.width box2 * startAspect)
    else Rect.mk (Rect.left box2) (Rect.top box2)
                 (Rect.height box2 / startAspect) (Rect.height box2)
  else box2.

(** [handleMouseMove(e)] on the item [self], up to the call of the
    [resize] callback. *)
Definition handleMouseMove (rtl : bool) (o : Options)
    (startMouse startSize mouse : Point.t) (self : Item.t) : Item.t :=
  Item.setBounds self
    (resizedBox rtl o startMouse startSize mouse (Item.bounds self)).

(** [resizeOptions.stop] of an item, for the item at index [self] of
    [Items.items], up to the call [resize.info.stop()]:
    [self.setUserSize(); self.pushAway()].  [resize.info] is a [Drag],
    whose code is not part of the sources. *)
Definition stop (fuel : nat) (w : Items.Window) (items : list Item.t)
    (self : nat) : option (list Item.t) :=
  match items !! self with
  | None => None
  | Some s =>
      PushAwayPass.pushAway fuel w (<[self := ItemOps.setUserSize s]> items) self
  end.

End Resize.

(** ** Item.draggable: the choice of the drop target *)

Module Drop.

Section Drop.

(** [ItemRef] is the identity of an item.  [accept] is the answer of the
    item's [dropOptions.accept] to the dragged item, and [true] for an
    item that has no such function. *)
Context {ItemRef : Type} `{EqDecision ItemRef}.
Variable accept : ItemRef -> bool.

(** An element of [droppables]. *)
Record Droppable : Type := { item : ItemRef; bounds : Rect.t }.

(** The object [best]. *)
Record Best : Type := { dropTarget : option ItemRef; score : Q }.

(** The callback of [droppables.forEach]: [current] is the drop target
    so far (the variable [dropTarget] of the enclosing function), [box]
    the bounds of the dragged item. *)
Definition consider (current : option ItemRef) (box : Rect.t)
    (best : Best) (droppable : Droppable) : Best :=
  match RectOps.intersection box (bounds droppable) with
  | Some intersection =>
      if Qgtb (RectOps.area intersection) (score best) then
        let possibleDropTarget := item droppable in
        let accepted :=
          if decide (Some possibleDropTarget = current) then true
          else accept possibleDropTarget in
        if accepted
        then {| dropTarget := Some possibleDropTarget;
                score := RectOps.area intersection |}
        else best
      else best
  | None => best
  end.

(** [determineBestDropTarget(e, box)]. *)
Definition determineBestDropTarget (current : option ItemRef) (box : Rect.t)
    (droppables : list Droppable) : option ItemRef :=
  dropTarget
    (fold_left (consider current box) droppables
               {| dropTarget := None; score := 0 |}).

End Drop.

End Drop.

(** ** UI._createItemOnDrag: the box dragged out *)

Module DragOut.

(** The values of [stationaryCorner]: the strings "topleft", "topright",
    "bottomleft" and "bottomright". *)
Inductive Corner : Type := topleft | topright | bottomleft | bottomright.

(** The box that [updateSize] gives the phantom item: [startPos] is where
    the mouse went down, [client] where it is now. *)
Definition updateSizeBox (startPos client : Point.t) : Rect.t :=
  RectOps.spanning
    (Qmin (Point.x startPos) (Point.x client))
    (Qmax (Point.x startPos) (Point.x client))
    (Qmin (Point.y startPos) (Point.y client))
    (Qmax (Point.y startPos) (Point.y client)).

(** The corner [updateSize] passes to [snap]: "top" or "bottom", then
    "left" or "right". *)
Definition stationaryCorner (startPos : Point.t) (box : Rect.t) : Corner :=
  if Qeq_bool (Point.y startPos) (Rect.top box) then
    if Qeq_bool (Point.x startPos) (Rect.left box) then topleft else topright
  else
    if Qeq_bool (Point.x startPos) (Rect.left box) then bottomleft
    else bottomright.

(** The test of [updateSize] and [finalize] on the phantom's bounds: the
    box is large enough to become an item. *)
Definition largeEnough (box : Rect.t) : bool :=
  let minSize := 60 in
  let minMinSize := 15 in
  Qgtb (Rect.width box) minMinSize && Qgtb (Rect.height box) minMinSize &&
  (Qgtb (Rect.width box) minSize || Qgtb (Rect.height box) minSize).

End DragOut.

(** * Vocabulary of the statements *)

(** ** Geometry of a pass *)

(** A rectangle with the [buffer] margin added on each side:
    [r.inset(-buffer, -buffer)]. *)
Definition inflate (r : Rect.t) : Rect.t :=
  Rect.inset r (- PushAway.buffer) (- PushAway.buffer).

(** The size constraint of [calcValidSize], on a rectangle. *)
Definition minSize (r : Rect.t) : Prop :=
  Items.minItemWidth <= Rect.width r /\ Items.minItemHeight <= Rect.height r.

Definition withinPage (page r : Rect.t) : Prop :=
  Rect.left page <= Rect.left r /\ Rect.right r <= Rect.right page /\
  Rect.top page <= Rect.top r /\ Rect.bottom r <= Rect.bottom page.

(** A whole number, and a rectangle or a point at whole-number
    coordinates: on these the sums and differences of the source are
    exact. *)
Definition whole (q : Q) : Prop := exists z : Z, q == inject_Z z.

Definition wholeRect (r : Rect.t) : Prop :=
  whole (Rect.left r) /\ whole (Rect.top r) /\
  whole (Rect.width r) /\ whole (Rect.height r).

Definition wholePoint (p : Point.t) : Prop :=
  whole (Point.x p) /\ whole (Point.y p).

Definition withinPageb (page r : Rect.t) : bool :=
  Qleb (Rect.left page) (Rect.left r) && Qleb (Rect.right r) (Rect.right page) &&
  Qleb (Rect.top page) (Rect.top r) && Qleb (Rect.bottom r) (Rect.bottom page).

(** ** The propagation loop *)

Definition genOf (ds : list PushAwayData.t) (i : nat) : option Gen.t :=
  PushAwayData.generation <$> ds !! i.

(** The number of items whose generation is greater than [n]. *)
Definition aboveCount (n : nat) (ds : list PushAwayData.t) : nat :=
  length (List.filter
            (fun d => negb (Gen.leb (PushAwayData.generation d) (Gen.Fin n))) ds).

(** The queue between two iterations: first the items of generation [n]
    still to be used as a base, then those of generation [n + 1]. *)
Definition queueInv (n : nat) (q1 q2 : list nat) (ds : list PushAwayData.t) : Prop :=
  Forall (fun i => genOf ds i = Some (Gen.Fin n)) q1 /\
  Forall (fun i => genOf ds i = Some (Gen.Fin (S n))) q2.

(** What the squish and unsquish passes leave alone. *)
Definition meta (d : PushAwayData.t) : Gen.t * option nat * Rect.t :=
  (PushAwayData.generation d, PushAwayData.pusher d, PushAwayData.startBounds d).

Definition sameMeta (ds ds' : list PushAwayData.t) : Prop :=
  meta <$> ds' = meta <$> ds.

Definition rank (g : Gen.t) : nat :=
  match g with Gen.Fin n => n | Gen.Infinity => O end.

Definition maxRank (ds : list PushAwayData.t) : nat :=
  max_list ((fun d => rank (PushAwayData.generation d)) <$> ds).

(** The [pusher] references lead to items of smaller generation, and only
    pushed items have one. *)
Definition chainOK (ds : list PushAwayData.t) : Prop :=
  forall i d, ds !! i = Some d ->
    match PushAwayData.generation d with
    | Gen.Fin (S g) =>
        exists p dp g', PushAwayData.pusher d = Some p /\ ds !! p = Some dp /\
                        PushAwayData.generation dp = Gen.Fin g' /\ (g' <= g)%nat
    | _ => PushAwayData.pusher d = None
    end.

Definition allMinSize (ds : list PushAwayData.t) : Prop :=
  forall i d, ds !! i = Some d -> minSize (PushAwayData.bounds d).

Definition pairsMinSize (ps : list Unsquish.Pair) : Prop :=
  forall i p, ps !! i = Some p -> minSize (Unsquish.bounds p).

(** [startBounds] is the item's bounds when the pass started. *)
Definition startOK (items : list Item.t) (ds : list PushAwayData.t) : Prop :=
  forall i d it, ds !! i = Some d -> items !! i = Some it ->
    PushAwayData.startBounds d = Item.bounds it.

(** The state of the propagation loop once the seed has been used as a
    base: [B0] is the seed's bounds. *)
Definition firstGenInv (this : nat) (B0 : Rect.t)
    (ds : list PushAwayData.t) (q : list nat) : Prop :=
  (exists sd, ds !! this = Some sd /\
              PushAwayData.generation sd = Gen.Fin 0 /\
              PushAwayData.bounds sd = B0) /\
  (forall i d, i <> this -> ds !! i = Some d ->
     PushAwayData.generation d <> Gen.Fin 0) /\
  (forall i, i ∈ q -> i <> this) /\
  (forall i d, i <> this -> ds !! i = Some d ->
     PushAwayData.generation d = Gen.Fin 1 \/
     PushAwayData.generation d = Gen.Infinity ->
     Rect.intersects (inflate (PushAwayData.bounds d)) (inflate B0) = false).

(** No pushed item has left the page bounds. *)
Definition pushedInPage (page : Rect.t) (ds : list PushAwayData.t) : bool :=
  forallb (fun d => match PushAwayData.pusher d with
                    | Some _ => withinPageb page (PushAwayData.bounds d)
                    | None => true
                    end) ds.

(** Two pairs whose bounds do not intersect. *)
Definition apart (ps : list Unsquish.Pair) (i j : nat) : Prop :=
  forall pi pj, ps !! i = Some pi -> ps !! j = Some pj ->
    Rect.intersects (Unsquish.bounds pi) (Unsquish.bounds pj) = false.

(** The size [unsquish] grows an item to. *)
Definition preferredSize (it : Item.t) : Point.t :=
  match Item.userSize it with
  | Some u => u
  | None => Items.calcValidSize (Point.mk Items.minItemWidth (-1))
  end.

(** An item that neither squish nor unsquish would change. *)
Definition settled (page : Rect.t) (it : Item.t) : Prop :=
  Point.x (preferredSize it) <= Rect.width (Item.bounds it) /\
  Point.y (preferredSize it) <= Rect.height (Item.bounds it) /\
  withinPage page (Item.bounds it).

(** ** Arrangements *)


(** The options of the call [arrange(count = 6, ...)]. *)
Definition sixOptions (dp : option Point.t) : Arrange.Options :=
  {| Arrange.count := Some 6%nat; Arrange.columns := None;
     Arrange.addTab := false; Arrange.dropPos := dp;
     Arrange.returnWidthAndColumns := false |}.

Definition within_min (bounds r : Rect.t) : bool :=
  Rect.contains bounds r && Qleb Items.minItemWidth (Rect.width r)
  && Qleb Items.minItemHeight (Rect.height r).

Module ArrangeSpec.




End ArrangeSpec.

(** ** Concrete configurations *)

Definition bigWindow : Items.Window :=
  {| Items.innerWidth := 3000; Items.innerHeight := 3000 |}.

Definition plainItem (l t w h : Q) : Item.t :=
  Item.mk (Rect.mk l t w h) None None.

(** A seed and two items that both overlap its right-hand side. *)
Definition threeOverlapping : list Item.t :=
  [plainItem 500 500 200 200; plainItem 650 520 200 150; plainItem 660 540 200 150].


(** Two items far from each other, inside the window. *)
Definition twoApart : list Item.t :=
  [plainItem 100 100 200 200; plainItem 500 100 200 200].

(** A registry with two items and nothing pending; items are numbers,
    options are numbers, and the most-recently-used list is a list. *)
Definition smallRegistry : @Registry.State nat nat (list nat) :=
  {| Registry.items := [1%nat; 2%nat];
     Registry._activeItem := Some 2%nat;
     Registry._arrangePaused := true;
     Registry._arrangesPending := [];
     Registry._lastActiveList := [2%nat; 1%nat] |}.

Definition removeFromList (it : nat) (l : list nat) : list nat :=
  List.filter (fun x => negb (Nat.eqb x it)) l.

Definition threeCalls : list (nat * nat) :=
  [(1%nat, 10%nat); (2%nat, 20%nat); (1%nat, 30%nat)].

(** ** Vocabulary of the further properties *)

(** With [c] columns the [while] loop of [arrange] stops: one row is left
    or the rows fit into the height of the bounds. *)
Definition fits (count : nat) (bounds : Rect.t) (itemMargin : Q) (c : nat) : Prop :=
  (Arrange.rows (Arrange.figure count bounds itemMargin c) <= 1)%nat \/
  Arrange.totalHeight (Arrange.figure count bounds itemMargin c)
  <= Rect.height bounds.

(** The [columns] property of a result of [arrange]. *)
Definition resultColumns (r : Arrange.Result) : option nat :=
  match r with
  | Arrange.Arranged _ _ c => c
  | Arrange.WidthAndColumns _ c => Some c
  end.

(** The options [o] with the [return] property set or not. *)
Definition withReturn (b : bool) (o : Arrange.Options) : Arrange.Options :=
  {| Arrange.count := Arrange.count o; Arrange.columns := Arrange.columns o;
     Arrange.addTab := Arrange.addTab o; Arrange.dropPos := Arrange.dropPos o;
     Arrange.returnWidthAndColumns := b |}.

(** The place of cell [a] in a grid of [c] columns whose first cell is at
    [(left0, top0)], with cells of size [w] by [h] set [padding] apart,
    filled to the right ([dir = 1]) or to the left ([dir = -1]). *)
Definition cellAt (left0 top0 w h padding dir : Q) (c a : nat) (r : Rect.t) : Prop :=
  Rect.left r == left0 + dir * Arrange.Qnat (a mod c) * (w + padding) /\
  Rect.top r == top0 + Arrange.Qnat (a / c) * (h + padding) /\
  Rect.width r = w /\ Rect.height r = h.

(** The direction in which a row is filled. *)
Definition gridDir (rtl : bool) : Q := if rtl then -1 else 1.

(** [initialOffset] in [arrange], for cells of width [w]. *)
Definition gridOffset (rtl : bool) (bounds : Rect.t) (itemMargin w : Q) : Q :=
  if rtl then Rect.width bounds - w - Arrange.padding itemMargin else 0.

(** The state of the emitting loop of [arrange] before the iteration for
    index [a]: [a] rectangles emitted, each in its cell, and the box in
    the cell of index [a]. *)
Definition emitInv (bounds : Rect.t) (itemMargin : Q) (rtl : bool)
    (columns : nat) (initialOffset w h : Q) (a : nat) (e : Arrange.Emit) : Prop :=
  let cell := cellAt (Rect.left bounds + initialOffset) (Rect.top bounds) w h
                     (Arrange.padding itemMargin) (gridDir rtl) columns in
  length (Arrange.rects e) = a /\
  Arrange.column e = (a mod columns)%nat /\
  cell a (Arrange.box e) /\
  forall k r, Arrange.rects e !! k = Some r -> cell k r.

(** A pair that [unsquish] has nothing to do for: at least as large as
    the preferred size of its item and inside the page bounds. *)
Definition pairSettled (page : Rect.t) (pr : Unsquish.Pair) : Prop :=
  Point.x (preferredSize (Unsquish.item pr)) <= Rect.width (Unsquish.bounds pr) /\
  Point.y (preferredSize (Unsquish.item pr)) <= Rect.height (Unsquish.bounds pr) /\
  withinPage page (Unsquish.bounds pr).

(** [ps] has, place by place, the items of [pairs] and bounds at least as
    large. *)
Definition grownFrom (pairs ps : list Unsquish.Pair) : Prop :=
  length ps = length pairs /\
  forall i p p', pairs !! i = Some p -> ps !! i = Some p' ->
    Unsquish.item p' = Unsquish.item p /\
    Rect.width (Unsquish.bounds p) <= Rect.width (Unsquish.bounds p') /\
    Rect.height (Unsquish.bounds p) <= Rect.height (Unsquish.bounds p').

(** Every pair of [ps] whose bounds are not those it has in [pairs]
    intersects no other pair of [ps]. *)
Definition changedClear (pairs ps : list Unsquish.Pair) : Prop :=
  forall i p p', pairs !! i = Some p -> ps !! i = Some p' ->
    Unsquish.bounds p' <> Unsquish.bounds p ->
    forall j pj, j <> i -> ps !! j = Some pj ->
      Rect.intersects (Unsquish.bounds p') (Unsquish.bounds pj) = false.

(** ** Drop targets *)

(** The area that a droppable shares with the dragged box, and 0 when
    they have nothing in common. *)
Definition dropScore {ItemRef : Type} (box : Rect.t)
    (d : @Drop.Droppable ItemRef) : Q :=
  match RectOps.intersection box (Drop.bounds d) with
  | Some r => RectOps.area r
  | None => 0
  end.

(** A droppable that may become the drop target: it is the current one
    or it accepts the dragged item. *)
Definition dropAccepted {ItemRef : Type} `{EqDecision ItemRef}
    (accept : ItemRef -> bool) (current : option ItemRef)
    (d : @Drop.Droppable ItemRef) : bool :=
  bool_decide (Some (Drop.item d) = current) || accept (Drop.item d).

(** What the loop of [determineBestDropTarget] has found after the
    droppables [seen]. *)
Definition bestOf {ItemRef : Type} `{EqDecision ItemRef}
    (accept : ItemRef -> bool) (current : option ItemRef) (box : Rect.t)
    (seen : list (@Drop.Droppable ItemRef)) (best : @Drop.Best ItemRef) : Prop :=
  (forall d, d ∈ seen -> dropAccepted accept current d = true ->
             dropScore box d <= Drop.score best) /\
  match Drop.dropTarget best with
  | None => Drop.score best = 0
  | Some t =>
      exists d, d ∈ seen /\ Drop.item d = t /\
                dropAccepted accept current d = true /\
                Drop.score best = dropScore box d /\ 0 < dropScore box d
  end.

(** ** The breadth-first order of the propagation *)

(** No finite generation exceeds [n + 1]. *)
Definition maxGen (n : nat) (ds : list PushAwayData.t) : Prop :=
  forall i d g, ds !! i = Some d ->
    PushAwayData.generation d = Gen.Fin g -> (g <= S n)%nat.

(** Every item that has a pusher is one generation after it, and their
    boxes, grown by the buffer, do not intersect. *)
Definition clearOfPusher (ds : list PushAwayData.t) : Prop :=
  forall i d p, ds !! i = Some d -> PushAwayData.pusher d = Some p ->
    exists dp m, ds !! p = Some dp /\
      PushAwayData.generation dp = Gen.Fin m /\
      PushAwayData.generation d = Gen.Fin (S m) /\
      Rect.intersects (inflate (PushAwayData.bounds d))
                      (inflate (PushAwayData.bounds dp)) = false.

(** The state of the propagation loop between two iterations: the queue
    holds the bases of generation [n], then those of generation [n + 1]. *)
Definition bfsInv (ds : list PushAwayData.t) (q : list nat) : Prop :=
  exists n q1 q2, q = q1 ++ q2 /\ queueInv n q1 q2 ds /\
                  maxGen n ds /\ clearOfPusher ds.

(** The scratch data differ from the items by translations only, and an
    item that no one has pushed is where it was. *)
Definition translated (items : list Item.t) (ds : list PushAwayData.t) : Prop :=
  forall i it d, items !! i = Some it -> ds !! i = Some d ->
    Rect.width (PushAwayData.bounds d) = Rect.width (Item.bounds it) /\
    Rect.height (PushAwayData.bounds d) = Rect.height (Item.bounds it) /\
    PushAwayData.startBounds d = Item.bounds it /\
    (PushAwayData.pusher d = None -> PushAwayData.bounds d = Item.bounds it).

(** ** More concrete configurations *)

(** The pairs that [Items.unsquish] builds from the items. *)
Definition pairsOf (items : list Item.t) : list Unsquish.Pair :=
  map (fun it => Unsquish.mkPair it (Item.bounds it)) items.

(** An item that the user had made larger than it is now, and another
    one far from it. *)
Definition wantsMore : list Item.t :=
  [Item.mk (Rect.mk 100 100 200 200) (Some (Point.mk 300 300)) None;
   plainItem 1000 1000 200 200].

(** Two droppables under a dragged box; items are numbers. *)
Definition twoDroppables : list (@Drop.Droppable nat) :=
  [{| Drop.item := 1%nat; Drop.bounds := Rect.mk 0 0 100 100 |};
   {| Drop.item := 2%nat; Drop.bounds := Rect.mk 50 0 200 100 |}].

(** * Proofs *)

(** ** Reflection of the comparisons *)

Lemma Qltb_true (a b : Q) : Qltb a b = true <-> a < b.
Proof.
  unfold Qltb. rewrite Qlt_alt. destruct (a ?= b); split; congruence.
Qed.

Lemma Qltb_false (a b : Q) : Qltb a b = false <-> b <= a.
Proof.
  rewrite <- not_true_iff_false, Qltb_true. split.
  - apply Qnot_lt_le.
  - apply Qle_not_lt.
Qed.

Lemma Qleb_true (a b : Q) : Qleb a b = true <-> a <= b.
Proof. unfold Qleb. rewrite negb_true_iff. apply Qltb_false. Qed.

Lemma Qleb_false (a b : Q) : Qleb a b = false <-> b < a.
Proof. unfold Qleb. rewrite negb_false_iff. apply Qltb_true. Qed.

Lemma Qeq_bool_false (a b : Q) : Qeq_bool a b = false <-> ~ a == b.
Proof. rewrite <- not_true_iff_false, Qeq_bool_iff. tauto. Qed.

Lemma truthy_false (a : Q) : truthy a = false <-> a == 0.
Proof. unfold truthy. rewrite negb_false_iff. apply Qeq_bool_iff. Qed.

Lemma Qmax_ge_l (a b : Q) : a <= Qmax a b.
Proof. apply Q.le_max_l. Qed.

Lemma Qmax_ge_r (a b : Q) : b <= Qmax a b.
Proof. apply Q.le_max_r. Qed.

(** [Math.max] returns its first argument unchanged when it is large
    enough: the equality is syntactic, not only numeric. *)
Lemma Qmax_left (a b : Q) : b <= a -> Qmax a b = a.
Proof.
  intros H. unfold Qmax, GenericMinMax.gmax.
  destruct (a ?= b) eqn:E; try reflexivity.
  apply Qlt_alt in E. lra.
Qed.

Lemma Qmax_right (a b : Q) : a < b -> Qmax a b = b.
Proof.
  intros H. unfold Qmax, GenericMinMax.gmax.
  destruct (a ?= b) eqn:E; try reflexivity.
  - apply Qeq_alt in E. lra.
  - apply Qgt_alt in E. lra.
Qed.

(** ** calcValidSize *)

Lemma calcValidSize_min (p : Point.t) :
  Items.minItemWidth <= Point.x (Items.calcValidSize p) /\
  Items.minItemHeight <= Point.y (Items.calcValidSize p).
Proof. split; apply Qmax_ge_r. Qed.

Lemma calcValidSize_fixed (p : Point.t) :
  Items.minItemWidth <= Point.x p -> Items.minItemHeight <= Point.y p ->
  Items.calcValidSize p = p.
Proof.
  intros Hx Hy. destruct p as [px py]; simpl in *.
  unfold Items.calcValidSize; simpl. now rewrite !Qmax_left.
Qed.

(** C8: under the asserted precondition of [calcValidSize], the result is
    at least the minimum item size in both coordinates, and applying
    [calcValidSize] to its own result returns that result. *)
Theorem calcValidSize_min_idempotent (p : Point.t) :
  Items.calcValidSize_pre p ->
  (Items.minItemWidth <= Point.x (Items.calcValidSize p) /\
   Items.minItemHeight <= Point.y (Items.calcValidSize p)) /\
  Items.calcValidSize (Items.calcValidSize p) = Items.calcValidSize p.
Proof.
  intros _. split.
  - apply calcValidSize_min.
  - apply calcValidSize_fixed; apply calcValidSize_min.
Qed.

Lemma calcValidSize_min_idempotent_witness :
  Items.calcValidSize_pre (Point.mk 40 (-1)) /\
  Items.calcValidSize (Items.calcValidSize (Point.mk 40 (-1))) =
  Items.calcValidSize (Point.mk 40 (-1)).
Proof.
  assert (H : Items.calcValidSize_pre (Point.mk 40 (-1))).
  { unfold Items.calcValidSize_pre; simpl. split.
    - left. reflexivity.
    - split; intros E; discriminate E. }
  split; [exact H | exact (proj2 (calcValidSize_min_idempotent _ H))].
Defined.

(** ** Geometry and the push of one item *)

Import PushAwayData PushAway PushAwayPass.

Lemma buffer_eq : buffer = 7.
Proof. reflexivity. Qed.

Lemma intersects_true (a b : Rect.t) :
  Rect.intersects a b = true <->
  Rect.left a < Rect.right b /\ Rect.left b < Rect.right a /\
  Rect.top a < Rect.bottom b /\ Rect.top b < Rect.bottom a.
Proof.
  unfold Rect.intersects, Qgtb. rewrite !andb_true_iff, !Qltb_true. tauto.
Qed.

Lemma intersects_false (a b : Rect.t) :
  Rect.intersects a b = false <->
  Rect.right b <= Rect.left a \/ Rect.right a <= Rect.left b \/
  Rect.bottom b <= Rect.top a \/ Rect.bottom a <= Rect.top b.
Proof.
  unfold Rect.intersects, Qgtb. rewrite !andb_false_iff, !Qltb_false. tauto.
Qed.

Lemma intersects_sym (a b : Rect.t) : Rect.intersects a b = Rect.intersects b a.
Proof.
  destruct (Rect.intersects b a) eqn:E.
  - apply intersects_true in E. apply intersects_true. tauto.
  - apply intersects_false in E. apply intersects_false. tauto.
Qed.

Ltac proj_simpl :=
  cbn [Rect.left Rect.top Rect.width Rect.height Point.x Point.y
       PushAwayData.bounds PushAwayData.startBounds PushAwayData.generation
       PushAwayData.pusher Item.bounds Item.userSize Item.pushAwayData
       fst snd] in *.

Ltac rect_unfold :=
  unfold inflate, Rect.inset, Rect.offset, Rect.center, Rect.right, Rect.bottom in *;
  proj_simpl; try rewrite buffer_eq in *.

(** Whole numbers are closed under what a push computes. *)
Lemma whole_inject_Z (z : Z) : whole (inject_Z z).
Proof. exists z. reflexivity. Qed.

Lemma whole_eq (a b : Q) : a == b -> whole a -> whole b.
Proof. intros E [z H]. exists z. rewrite <- E. exact H. Qed.

Lemma whole_plus (a b : Q) : whole a -> whole b -> whole (a + b).
Proof.
  intros [x Hx] [y Hy]. exists (x + y)%Z.
  rewrite inject_Z_plus, Hx, Hy. reflexivity.
Qed.

Lemma whole_opp (a : Q) : whole a -> whole (- a).
Proof.
  intros [x Hx]. exists (- x)%Z. rewrite inject_Z_opp, Hx. reflexivity.
Qed.

Lemma whole_minus (a b : Q) : whole a -> whole b -> whole (a - b).
Proof. intros Ha Hb. apply whole_plus; [assumption|now apply whole_opp]. Qed.

Lemma whole_mult (a b : Q) : whole a -> whole b -> whole (a * b).
Proof.
  intros [x Hx] [y Hy]. exists (x * y)%Z.
  rewrite inject_Z_mult, Hx, Hy. reflexivity.
Qed.

Lemma whole_max (a b : Q) : whole a -> whole b -> whole (Qmax a b).
Proof.
  intros Ha Hb. destruct (Q.max_spec a b) as [[_ E]|[_ E]];
    [apply (whole_eq b)|apply (whole_eq a)]; try assumption; symmetry; exact E.
Qed.

Lemma whole_min (a b : Q) : whole a -> whole b -> whole (Qmin a b).
Proof.
  intros Ha Hb. destruct (Q.min_spec a b) as [[_ E]|[_ E]];
    [apply (whole_eq a)|apply (whole_eq b)]; try assumption; symmetry; exact E.
Qed.

Lemma whole_right (r : Rect.t) : wholeRect r -> whole (Rect.right r).
Proof. intros (Hl & _ & Hw & _). now apply whole_plus. Qed.

Lemma whole_bottom (r : Rect.t) : wholeRect r -> whole (Rect.bottom r).
Proof. intros (_ & Ht & _ & Hh). now apply whole_plus. Qed.

Lemma wholeRect_inflate (r : Rect.t) : wholeRect r -> wholeRect (inflate r).
Proof.
  intros (Hl & Ht & Hw & Hh). unfold inflate, Rect.inset, wholeRect.
  rewrite buffer_eq. proj_simpl.
  assert (H7 : whole (- 7)) by (exists (-7)%Z; reflexivity).
  assert (H2 : whole 2) by (exists 2%Z; reflexivity).
  split_and!; try (now apply whole_plus);
    (apply whole_minus; [assumption|now apply whole_mult]).
Qed.

Lemma wholeRect_offset (r : Rect.t) (p : Point.t) :
  wholeRect r -> wholePoint p -> wholeRect (Rect.offset r p).
Proof.
  intros (Hl & Ht & Hw & Hh) [Hx Hy]. unfold Rect.offset, wholeRect. proj_simpl.
  split_and!; try assumption; now apply whole_plus.
Qed.

Lemma pushOffset_whole (box bb : Rect.t) :
  wholeRect box -> wholeRect bb -> wholePoint (pushOffset box bb).
Proof.
  intros Hbox Hbb. unfold pushOffset.
  assert (H0 : whole 0) by (exists 0%Z; reflexivity).
  pose proof (whole_right _ Hbox). pose proof (whole_right _ Hbb).
  pose proof (whole_bottom _ Hbox). pose proof (whole_bottom _ Hbb).
  destruct Hbox as (Hl & Ht & _). destruct Hbb as (Hl' & Ht' & _).
  destruct (Qltb _ _); destruct (Qgtb _ _); split; cbn [Point.x Point.y];
    try assumption; now apply whole_minus.
Qed.

Lemma pushEach_cases (baseItem : nat) (baseGen : Gen.t) (bb : Rect.t)
    (item : nat) (data : t) :
  (pushEach baseItem baseGen bb item data = (data, false) /\
   (item = baseItem \/ Gen.leb (generation data) baseGen = true \/
    Rect.intersects (inflate (bounds data)) bb = false)) \/
  (item <> baseItem /\ Gen.leb (generation data) baseGen = false /\
   Rect.intersects (inflate (bounds data)) bb = true /\
   pushEach baseItem baseGen bb item data =
   (mk (Rect.offset (bounds data) (pushOffset (inflate (bounds data)) bb))
       (startBounds data) (Gen.succ baseGen) (Some baseItem), true)).
Proof.
  unfold pushEach, inflate.
  destruct (Nat.eqb_spec item baseItem) as [->|Hne]; [left; auto|].
  destruct (Gen.leb (generation data) baseGen); [left; auto|].
  destruct (Rect.intersects _ bb); [right; auto|left; auto].
Qed.

Lemma pushOffset_separates (b bbase : Rect.t) :
  Rect.intersects (inflate b) bbase = true ->
  Rect.intersects (inflate (Rect.offset b (pushOffset (inflate b) bbase))) bbase = false.
Proof.
  intros Hi. apply intersects_true in Hi. apply intersects_false.
  unfold pushOffset, Qgtb.
  destruct (Qltb _ _); destruct (Qltb _ _); rect_unfold; lra.
Qed.

Lemma pushEach_whole b g bb k d :
  wholeRect bb -> wholeRect (bounds d) ->
  wholeRect (bounds (fst (pushEach b g bb k d))).
Proof.
  intros Hbb Hd.
  destruct (pushEach_cases b g bb k d) as [(-> & _)|(_ & _ & _ & ->)];
    cbn [fst bounds]; [assumption|].
  apply wholeRect_offset; [assumption|].
  apply pushOffset_whole; [now apply wholeRect_inflate|assumption].
Qed.

(** C5, amended: when a base of generation [n] pushes an overlapping
    item, the item is enqueued, gets generation [n + 1] and the base as
    pusher, and keeps its size and start bounds.  When the bounds of both
    are whole numbers, the item moves along one axis only: the vertical
    one when the centres of the two inflated boxes are further apart
    vertically than horizontally, the horizontal one otherwise (a tie
    goes to the horizontal axis); it moves away from the base's centre,
    by the amount that brings the facing edges of the two inflated boxes
    together, after which the boxes no longer intersect; and its bounds
    are whole numbers again. *)
Theorem pushEach_pushes_one_axis (baseItem item n : nat) (baseBounds : Rect.t)
    (data : PushAwayData.t) :
  item <> baseItem ->
  Gen.leb (generation data) (Gen.Fin n) = false ->
  let bb := inflate baseBounds in
  let box := inflate (bounds data) in
  Rect.intersects box bb = true ->
  let data' := fst (pushEach baseItem (Gen.Fin n) bb item data) in
  let box' := inflate (bounds data') in
  let dx := Point.x (Rect.center box) - Point.x (Rect.center bb) in
  let dy := Point.y (Rect.center box) - Point.y (Rect.center bb) in
  (snd (pushEach baseItem (Gen.Fin n) bb item data) = true /\
   generation data' = Gen.Fin (S n) /\ pusher data' = Some baseItem /\
   startBounds data' = startBounds data /\
   Rect.width (bounds data') = Rect.width (bounds data) /\
   Rect.height (bounds data') = Rect.height (bounds data)) /\
  (wholeRect baseBounds -> wholeRect (bounds data) ->
   (Qabs dx < Qabs dy ->
    Rect.left (bounds data') == Rect.left (bounds data) /\
    (0 < dy -> Rect.top box' == Rect.bottom bb /\
               Rect.top (bounds data) < Rect.top (bounds data')) /\
    (dy < 0 -> Rect.bottom box' == Rect.top bb /\
               Rect.top (bounds data') < Rect.top (bounds data))) /\
   (Qabs dy <= Qabs dx ->
    Rect.top (bounds data') == Rect.top (bounds data) /\
    (0 < dx -> Rect.left box' == Rect.right bb /\
               Rect.left (bounds data) < Rect.left (bounds data')) /\
    (dx <= 0 -> Rect.right box' == Rect.left bb /\
                Rect.left (bounds data') < Rect.left (bounds data))) /\
   Rect.intersects box' bb = false /\
   wholeRect (bounds data')).
Proof.
  intros Hne Hgen bb box Hint data' box' dx dy.
  assert (Hwhole : wholeRect baseBounds -> wholeRect (bounds data) ->
                   wholeRect (bounds data')).
  { intros Hwb Hwd. apply pushEach_whole; [now apply wholeRect_inflate|assumption]. }
  revert Hwhole.
  destruct (pushEach_cases baseItem (Gen.Fin n) bb item data)
    as [(_ & [?|[?|?]])|(_ & _ & _ & Heq)]; try congruence.
  { subst box. congruence. }
  subst data' box'. rewrite Heq. proj_simpl. intros Hwhole.
  split; [auto 10|]. intros Hwb Hwd.
  assert (Hsep := pushOffset_separates (bounds data) bb Hint).
  pose proof (proj1 (intersects_true _ _) Hint) as Hi.
  fold box in Hsep |- *.
  split_and!; [| |exact Hsep|exact (Hwhole Hwb Hwd)].
  - intros Habs. unfold pushOffset. fold dx dy.
    rewrite (proj2 (Qltb_true _ _) Habs). unfold Qgtb.
    destruct (Qltb (Point.y (Rect.center bb)) (Point.y (Rect.center box))) eqn:E.
    + apply Qltb_true in E. subst dx dy box. rect_unfold.
      split_and!; [lra | intros _; split; lra | intros; lra].
    + apply Qltb_false in E. subst dx dy box. rect_unfold.
      split_and!; [lra | intros; lra | intros _; split; lra].
  - intros Habs. unfold pushOffset. fold dx dy.
    rewrite (proj2 (Qltb_false _ _) Habs). unfold Qgtb.
    destruct (Qltb (Point.x (Rect.center bb)) (Point.x (Rect.center box))) eqn:E.
    + apply Qltb_true in E. subst dx dy box. rect_unfold.
      split_and!; [lra | intros _; split; lra | intros; lra].
    + apply Qltb_false in E. subst dx dy box. rect_unfold.
      split_and!; [lra | intros; lra | intros _; split; lra].
Qed.
(** ** Propagation *)

Lemma pushAll_length b g bb i ds :
  length (fst (pushAll b g bb i ds)) = length ds.
Proof.
  revert i. induction ds as [|d ds IH]; intros i; cbn [pushAll]; [reflexivity|].
  destruct (pushEach b g bb i d) as [d' p].
  specialize (IH (S i)). destruct (pushAll b g bb (S i) ds) as [ds' q].
  simpl in *. now rewrite IH.
Qed.

Lemma pushAll_lookup b g bb i ds k :
  fst (pushAll b g bb i ds) !! k
  = (fun d => fst (pushEach b g bb (i + k) d)) <$> ds !! k.
Proof.
  revert i k. induction ds as [|d ds IH]; intros i k; cbn [pushAll]; [reflexivity|].
  destruct (pushEach b g bb i d) as [d' p] eqn:E.
  specialize (IH (S i)). destruct (pushAll b g bb (S i) ds) as [ds' q].
  destruct k as [|k]; simpl in *.
  - now rewrite Nat.add_0_r, E.
  - rewrite IH. now rewrite Nat.add_succ_r.
Qed.

Lemma pushAll_pushed b g bb i ds j :
  j ∈ snd (pushAll b g bb i ds) <->
  exists k d, j = (i + k)%nat /\ ds !! k = Some d /\
              snd (pushEach b g bb j d) = true.
Proof.
  revert i. induction ds as [|d ds IH]; intros i; cbn [pushAll].
  - simpl. rewrite elem_of_nil. split; [tauto|]. intros (k & d & _ & H & _).
    discriminate.
  - destruct (pushEach b g bb i d) as [d' p] eqn:E.
    specialize (IH (S i)). destruct (pushAll b g bb (S i) ds) as [ds' q].
    cbn [snd] in *.
    assert (Hq : j ∈ (if p then i :: q else q) <-> (j = i /\ p = true) \/ j ∈ q).
    { destruct p; [rewrite elem_of_cons|]; intuition congruence. }
    rewrite Hq, IH. split.
    + intros [[-> ->]|(k & d0 & -> & Hk & Hp)].
      * exists 0%nat, d. rewrite Nat.add_0_r. simpl. now rewrite E.
      * exists (S k), d0. split_and!; [lia|assumption|assumption].
    + intros ([|k] & d0 & -> & Hk & Hp); simpl in Hk.
      * left. injection Hk as <-. rewrite Nat.add_0_r in *. rewrite E in Hp. auto.
      * right. exists k, d0. split_and!; [lia|assumption|].
        now replace (S i + k)%nat with (i + S k)%nat by lia.
Qed.
Lemma pushOne_spec b ds ds' q :
  pushOne b ds = Some (ds', q) ->
  exists bd, ds !! b = Some bd /\
    length ds' = length ds /\
    (forall k, ds' !! k =
       (fun d => fst (pushEach b (generation bd) (inflate (bounds bd)) k d)) <$> ds !! k) /\
    (forall j, j ∈ q <->
       exists d, ds !! j = Some d /\
         snd (pushEach b (generation bd) (inflate (bounds bd)) j d) = true).
Proof.
  unfold pushOne. destruct (ds !! b) as [bd|] eqn:Eb; [|discriminate].
  intros [= H]. exists bd. split; [reflexivity|].
  fold (inflate (bounds bd)) in H.
  assert (H1 : ds' = fst (pushAll b (generation bd) (inflate (bounds bd)) 0 ds)) by now rewrite H.
  assert (H2 : q = snd (pushAll b (generation bd) (inflate (bounds bd)) 0 ds)) by now rewrite H.
  subst ds' q. split_and!.
  - apply pushAll_length.
  - intros k. now rewrite pushAll_lookup.
  - intros j. rewrite pushAll_pushed. split.
    + intros (k & d & -> & Hk & Hp). eauto.
    + intros (d & Hd & Hp). exists j, d. auto.
Qed.

Lemma pushOne_defined b ds :
  (b < length ds)%nat -> exists ds' q, pushOne b ds = Some (ds', q).
Proof.
  intros Hb. unfold pushOne.
  destruct (lookup_lt_is_Some_2 ds b Hb) as [bd ->].
  destruct (pushAll _ _ _ _ _) as [ds' q]. eauto.
Qed.

(** Generations after one push. *)
Lemma pushEach_generation b g bb k d :
  let d' := fst (pushEach b g bb k d) in
  (generation d' = generation d /\ snd (pushEach b g bb k d) = false) \/
  (generation d' = Gen.succ g /\ Gen.leb (generation d) g = false /\
   snd (pushEach b g bb k d) = true).
Proof.
  destruct (pushEach_cases b g bb k d) as [(-> & _)|(_ & Hg & _ & ->)]; simpl; auto.
Qed.

Lemma Gen_leb_succ (n : nat) : Gen.leb (Gen.Fin (S n)) (Gen.Fin n) = false.
Proof. cbn [Gen.leb]. apply Nat.leb_gt. lia. Qed.

Lemma Gen_leb_refl (g : Gen.t) : Gen.leb g g = true.
Proof. destruct g; cbn [Gen.leb]; [apply Nat.leb_refl|reflexivity]. Qed.

Lemma filter_length_pointwise {A} (P : A -> bool) (l l' : list A) :
  length l = length l' ->
  (forall k x x', l !! k = Some x -> l' !! k = Some x' -> P x = P x') ->
  length (List.filter P l) = length (List.filter P l').
Proof.
  revert l'. induction l as [|x l IH]; intros [|x' l'] Hlen Hp; try discriminate.
  - reflexivity.
  - simpl. rewrite (Hp 0%nat x x' eq_refl eq_refl).
    assert (IH' : length (List.filter P l) = length (List.filter P l')).
    { apply IH; [simpl in Hlen; lia|]. intros k. apply (Hp (S k)). }
    destruct (P x'); simpl; lia.
Qed.

Lemma filter_length_stronger {A} (P P' : A -> bool) (l : list A) :
  (forall x, P' x = true -> P x = true) ->
  (length (List.filter P' l) <= length (List.filter P l))%nat /\
  ((exists x, x ∈ l /\ P x = true /\ P' x = false) ->
   (length (List.filter P' l) < length (List.filter P l))%nat).
Proof.
  intros Himp. induction l as [|x l [IH1 IH2]]; simpl.
  - split; [lia|]. intros (x & Hx & _). now apply elem_of_nil in Hx.
  - split.
    + destruct (P' x) eqn:E'; [rewrite (Himp x E')|destruct (P x)]; simpl; lia.
    + intros (y & Hy & HP & HP'). apply elem_of_cons in Hy. destruct Hy as [->|Hy].
      * rewrite HP, HP'. simpl. lia.
      * assert (IH := IH2 (ex_intro _ y (conj Hy (conj HP HP')))).
        destruct (P' x) eqn:E'; [rewrite (Himp x E')|destruct (P x)]; simpl; lia.
Qed.

Lemma aboveCount_pushOne n b ds ds' q :
  genOf ds b = Some (Gen.Fin n) ->
  pushOne b ds = Some (ds', q) ->
  aboveCount n ds' = aboveCount n ds.
Proof.
  intros Hb Hp. destruct (pushOne_spec _ _ _ _ Hp) as (bd & Hbd & Hlen & Hlk & _).
  unfold genOf in Hb. rewrite Hbd in Hb. injection Hb as Hg.
  apply filter_length_pointwise; [assumption|].
  intros k x' x Hx' Hx. rewrite Hlk, Hx in Hx'. injection Hx' as <-.
  destruct (pushEach_generation b (generation bd) (inflate (bounds bd)) k x)
    as [(-> & _)|(-> & Hle & _)]; [reflexivity|].
  rewrite Hg in *. cbn [Gen.succ]. now rewrite Hle, Gen_leb_succ.
Qed.

Lemma aboveCount_next n ds b :
  genOf ds b = Some (Gen.Fin (S n)) ->
  (aboveCount (S n) ds < aboveCount n ds)%nat.
Proof.
  intros Hb. unfold genOf in Hb. destruct (ds !! b) as [d|] eqn:Ed; [|discriminate].
  injection Hb as Hg. unfold aboveCount.
  apply filter_length_stronger.
  - intros x. rewrite !negb_true_iff. destruct (generation x) as [m|]; simpl; [|auto].
    intros H. apply Nat.leb_gt in H. apply Nat.leb_gt. lia.
  - exists d. split; [eapply list_elem_of_lookup_2; eassumption|].
    rewrite Hg. now rewrite Gen_leb_succ, Gen_leb_refl.
Qed.

Lemma genOf_pushOne n b ds ds' q i :
  genOf ds b = Some (Gen.Fin n) ->
  pushOne b ds = Some (ds', q) ->
  (genOf ds i = Some (Gen.Fin n) -> genOf ds' i = Some (Gen.Fin n)) /\
  (genOf ds i = Some (Gen.Fin (S n)) -> genOf ds' i = Some (Gen.Fin (S n))) /\
  (i ∈ q -> genOf ds' i = Some (Gen.Fin (S n))).
Proof.
  intros Hb Hp. destruct (pushOne_spec _ _ _ _ Hp) as (bd & Hbd & Hlen & Hlk & Hq).
  unfold genOf in *. rewrite Hbd in Hb. injection Hb as Hg.
  rewrite Hlk. rewrite Hg in *.
  destruct (ds !! i) as [d|] eqn:Ed; simpl.
  - destruct (pushEach_generation b (Gen.Fin n) (inflate (bounds bd)) i d)
      as [(-> & Hs)|(-> & Hle & Hs)].
    + split_and!; auto. intros Hi. apply Hq in Hi. destruct Hi as (d0 & Hd0 & Hs0).
      rewrite Ed in Hd0. injection Hd0 as <-. congruence.
    + split_and!; auto.
      intros [= E]. rewrite E in Hle. now rewrite Gen_leb_refl in Hle.
  - split_and!; try discriminate. intros Hi. apply Hq in Hi.
    destruct Hi as (d0 & Hd0 & _). rewrite Ed in Hd0. discriminate.
Qed.

Lemma queueInv_pushOne n b q1 q2 ds ds' q :
  queueInv n (b :: q1) q2 ds ->
  pushOne b ds = Some (ds', q) ->
  queueInv n q1 (q2 ++ q) ds'.
Proof.
  intros [H1 H2] Hp. apply Forall_cons in H1. destruct H1 as [Hb H1].
  split.
  - eapply Forall_impl; [exact H1|]. intros i Hi.
    exact (proj1 (genOf_pushOne n b ds ds' q i Hb Hp) Hi).
  - apply Forall_app. split.
    + eapply Forall_impl; [exact H2|]. intros i Hi.
      exact (proj1 (proj2 (genOf_pushOne n b ds ds' q i Hb Hp)) Hi).
    + apply Forall_forall. intros i Hi.
      exact (proj2 (proj2 (genOf_pushOne n b ds ds' q i Hb Hp)) Hi).
Qed.

Lemma pushLoop_terminates_inv (c : nat) :
  forall n q1 q2 ds,
    aboveCount n ds = c -> queueInv n q1 q2 ds ->
    exists fuel ds', pushLoop fuel ds (q1 ++ q2) = Some ds'.
Proof.
  induction c as [c IHc] using lt_wf_ind.
  intros n q1. induction q1 as [|b q1 IHq]; intros q2 ds Hc Hinv.
  - destruct q2 as [|b q2].
    + exists 0%nat, ds. reflexivity.
    + destruct Hinv as [_ H2].
      assert (Hb : genOf ds b = Some (Gen.Fin (S n))) by (apply Forall_cons in H2; tauto).
      destruct (IHc (aboveCount (S n) ds)) with (n := S n) (q1 := b :: q2)
        (q2 := @nil nat) (ds := ds) as (fuel & ds' & Hl).
      * rewrite <- Hc. now apply aboveCount_next with b.
      * reflexivity.
      * split; [assumption|constructor].
      * rewrite app_nil_r in Hl. simpl. eauto.
  - assert (Hb : genOf ds b = Some (Gen.Fin n)).
    { destruct Hinv as [H1 _]. apply Forall_cons in H1. tauto. }
    destruct (pushOne_defined b ds) as (ds' & q & Hp).
    { unfold genOf in Hb. destruct (ds !! b) eqn:E; [|discriminate].
      eapply lookup_lt_Some; eassumption. }
    destruct (IHq (q2 ++ q) ds') as (fuel & ds'' & Hl).
    + rewrite <- Hc. eapply aboveCount_pushOne; eassumption.
    + eapply queueInv_pushOne; eassumption.
    + exists (S fuel), ds''. cbn [pushLoop app]. rewrite Hp.
      now rewrite <- app_assoc.
Qed.

Lemma seed_spec items this ds :
  seed items this = Some ds ->
  (this < length items)%nat /\ length ds = length items /\
  (forall k, ds !! k =
     (fun it => if Nat.eqb k this
                then set_generation (setupPushAwayData it) (Gen.Fin 0)
                else setupPushAwayData it) <$> items !! k).
Proof.
  unfold seed. destruct (map setupPushAwayData items !! this) as [d|] eqn:Ed; [|discriminate].
  intros [= <-].
  assert (Hlt : (this < length items)%nat).
  { apply lookup_lt_Some in Ed. now rewrite length_map in Ed. }
  split; [assumption|]. split; [now rewrite length_insert, length_map|].
  intros k. destruct (Nat.eqb_spec k this) as [->|Hne].
  - rewrite list_lookup_insert_eq by now rewrite length_map.
    change (map setupPushAwayData items) with (setupPushAwayData <$> items) in Ed.
    rewrite list_lookup_fmap in Ed. destruct (items !! this); [|discriminate].
    simpl in *. now injection Ed as <-.
  - rewrite list_lookup_insert_ne by auto.
    change (map setupPushAwayData items) with (setupPushAwayData <$> items).
    rewrite list_lookup_fmap. now destruct (items !! k).
Qed.

Lemma seed_defined items this :
  (this < length items)%nat -> exists ds, seed items this = Some ds.
Proof.
  intros Hlt. unfold seed.
  destruct (lookup_lt_is_Some_2 (map setupPushAwayData items) this) as [d ->]; eauto.
  now rewrite length_map.
Qed.

Lemma propagate_terminates items this :
  (this < length items)%nat ->
  exists fuel ds, propagate fuel items this = Some ds.
Proof.
  intros Hlt. destruct (seed_defined items this Hlt) as [ds Hs].
  destruct (seed_spec _ _ _ Hs) as (_ & Hlen & Hlk).
  destruct (pushLoop_terminates_inv (aboveCount 0 ds) 0 [this] [] ds eq_refl)
    as (fuel & ds' & Hl).
  - split; [|constructor]. constructor; [|constructor].
    unfold genOf. rewrite Hlk.
    destruct (lookup_lt_is_Some_2 items this Hlt) as [it ->].
    simpl. now rewrite Nat.eqb_refl.
  - exists fuel, ds'. unfold propagate. now rewrite Hs.
Qed.
Lemma pushLoop_fuel_mono fuel fuel' ds q r :
  pushLoop fuel ds q = Some r -> (fuel <= fuel')%nat -> pushLoop fuel' ds q = Some r.
Proof.
  revert fuel' ds q. induction fuel as [|fuel IH]; intros fuel' ds q H Hle.
  - destruct q; [|discriminate]. simpl in H. now destruct fuel'.
  - destruct q as [|b q]; [now destruct fuel'|].
    destruct fuel' as [|fuel']; [lia|]. cbn [pushLoop] in *.
    destruct (pushOne b ds) as [[ds' p]|]; [|discriminate].
    apply IH; [assumption|lia].
Qed.

(** Induction over the iterations of the propagation loop. *)
Lemma pushLoop_invariant (P : list PushAwayData.t -> list nat -> Prop) :
  (forall ds b rest ds' pushed,
      P ds (b :: rest) -> pushOne b ds = Some (ds', pushed) ->
      P ds' (rest ++ pushed)) ->
  forall fuel ds q ds',
    P ds q -> pushLoop fuel ds q = Some ds' -> P ds' [].
Proof.
  intros Hstep. induction fuel as [|fuel IH]; intros ds q ds' HP Hl.
  - destruct q; [|discriminate]. now injection Hl as <-.
  - destruct q as [|b q]; [now injection Hl as <-|].
    cbn [pushLoop] in Hl.
    destruct (pushOne b ds) as [[ds1 p]|] eqn:Hp; [|discriminate].
    eapply IH; [|exact Hl]. eapply Hstep; eassumption.
Qed.

Lemma sameMeta_lookup ds ds' i :
  sameMeta ds ds' -> meta <$> ds' !! i = meta <$> ds !! i.
Proof. unfold sameMeta. intros H. now rewrite <- !list_lookup_fmap, H. Qed.

Lemma sameMeta_length ds ds' : sameMeta ds ds' -> length ds' = length ds.
Proof.
  unfold sameMeta. intros H. apply (f_equal length) in H.
  now rewrite !length_fmap in H.
Qed.

Lemma sameMeta_refl ds : sameMeta ds ds.
Proof. reflexivity. Qed.

Lemma sameMeta_trans ds1 ds2 ds3 :
  sameMeta ds1 ds2 -> sameMeta ds2 ds3 -> sameMeta ds1 ds3.
Proof. unfold sameMeta. congruence. Qed.

Lemma sameMeta_set_bounds ds i d b :
  ds !! i = Some d -> sameMeta ds (<[i := set_bounds d b]> ds).
Proof.
  intros Hi. unfold sameMeta. rewrite list_fmap_insert.
  apply list_insert_id. rewrite list_lookup_fmap, Hi. reflexivity.
Qed.

Lemma sameMeta_fields ds ds' i d d' :
  sameMeta ds ds' -> ds !! i = Some d -> ds' !! i = Some d' ->
  generation d' = generation d /\ pusher d' = pusher d /\
  startBounds d' = startBounds d.
Proof.
  intros H Hd Hd'. apply (sameMeta_lookup _ _ i) in H.
  rewrite Hd, Hd' in H. simpl in H. unfold meta in H.
  injection H as -> -> ->. auto.
Qed.

Lemma sameMeta_lookup_Some ds ds' i d :
  sameMeta ds ds' -> ds !! i = Some d -> exists d', ds' !! i = Some d'.
Proof.
  intros H Hd. apply (sameMeta_lookup _ _ i) in H. rewrite Hd in H.
  destruct (ds' !! i); [eauto|discriminate].
Qed.

Lemma chainOK_sameMeta ds ds' : sameMeta ds ds' -> chainOK ds -> chainOK ds'.
Proof.
  intros Hm Hc i d' Hd'.
  assert (Hm' : sameMeta ds' ds) by (unfold sameMeta in *; congruence).
  destruct (sameMeta_lookup_Some _ _ _ _ Hm' Hd') as [d Hd].
  destruct (sameMeta_fields _ _ _ _ _ Hm Hd Hd') as (-> & -> & _).
  specialize (Hc i d Hd). destruct (generation d) as [[|g]|]; try assumption.
  destruct Hc as (p & dp & g' & Hp & Hdp & Hg & Hle).
  destruct (sameMeta_lookup_Some _ _ _ _ Hm Hdp) as [dp' Hdp'].
  destruct (sameMeta_fields _ _ _ _ _ Hm Hdp Hdp') as (Hg' & _ & _).
  exists p, dp', g'. rewrite Hg'. auto.
Qed.

Lemma chainOK_seed items this ds : seed items this = Some ds -> chainOK ds.
Proof.
  intros Hs i d Hd. destruct (seed_spec _ _ _ Hs) as (_ & _ & Hlk).
  rewrite Hlk in Hd. destruct (items !! i) as [it|]; [|discriminate].
  simpl in Hd. injection Hd as <-. now destruct (Nat.eqb i this).
Qed.

Lemma chainOK_pushOne b ds ds' q :
  chainOK ds -> pushOne b ds = Some (ds', q) -> chainOK ds'.
Proof.
  intros Hc Hp. destruct (pushOne_spec _ _ _ _ Hp) as (bd & Hbd & Hlen & Hlk & _).
  set (bb := inflate (bounds bd)) in *.
  assert (Hbase : ds' !! b = Some bd).
  { rewrite Hlk, Hbd. simpl.
    destruct (pushEach_cases b (generation bd) bb b bd) as [(-> & _)|(? & _)];
      [reflexivity|congruence]. }
  intros i d' Hd'. rewrite Hlk in Hd'.
  destruct (ds !! i) as [d|] eqn:Hd; [|discriminate]. simpl in Hd'.
  injection Hd' as <-.
  destruct (pushEach_cases b (generation bd) bb i d)
    as [(-> & _)|(_ & Hle & _ & ->)]; cbn [fst generation pusher].
  - specialize (Hc i d Hd). destruct (generation d) as [[|g]|]; try assumption.
    destruct Hc as (p & dp & g' & Hpu & Hdp & Hg & Hleg).
    exists p. rewrite Hlk, Hdp. simpl.
    destruct (pushEach_generation b (generation bd) bb p dp)
      as [(Hg1 & _)|(Hg1 & Hle1 & _)].
    + eexists _, g'. rewrite Hg1. auto.
    + rewrite Hg in Hle1. destruct (generation bd) as [n|]; [|discriminate].
      cbn [Gen.leb] in Hle1. apply Nat.leb_gt in Hle1.
      eexists _, (S n). rewrite Hg1. cbn [Gen.succ]. split_and!; auto. lia.
  - destruct (generation bd) as [n|] eqn:Hgb.
    + cbn [Gen.succ]. exists b, bd, n. auto.
    + destruct (generation d); discriminate.
Qed.

(** [apply] changes bounds only. *)
Lemma apply_sameMeta fuel i ps ps2 ss ds ds' :
  apply fuel i ps ps2 ss ds = Some ds' -> sameMeta ds ds'.
Proof.
  revert i ps ds. induction fuel as [|fuel IH]; intros i ps ds H; [discriminate|].
  cbn [apply] in H. destruct (ds !! i) as [d|] eqn:Hd; [|discriminate].
  destruct (Gen.is_zero (generation d)); [injection H as <-; apply sameMeta_refl|].
  match type of H with context [<[i := ?x]> ds] => set (ds1 := <[i := x]> ds) in * end.
  assert (H1 : sameMeta ds ds1) by now apply sameMeta_set_bounds.
  destruct (pusher d) as [p|].
  - eapply sameMeta_trans; [exact H1|]. eapply IH. exact H.
  - now injection H as <-.
Qed.

Lemma apply_terminates fuel i d ps ps2 ss ds :
  chainOK ds -> ds !! i = Some d -> (rank (generation d) < fuel)%nat ->
  exists ds', apply fuel i ps ps2 ss ds = Some ds'.
Proof.
  revert i d ps ds. induction fuel as [|fuel IH]; intros i d ps ds Hc Hd Hr; [lia|].
  cbn [apply]. rewrite Hd.
  destruct (Gen.is_zero (generation d)) eqn:Hz; [eauto|].
  match goal with |- context [<[i := ?x]> ds] => set (ds1 := <[i := x]> ds) in * end.
  assert (H1 : sameMeta ds ds1) by now apply sameMeta_set_bounds.
  pose proof (Hc i d Hd) as Hci.
  destruct (pusher d) as [p|]; [|eauto].
  destruct (generation d) as [[|g]|]; try discriminate.
  destruct Hci as (p' & dp & g' & [= <-] & Hdp & Hg & Hle).
  destruct (sameMeta_lookup_Some _ _ _ _ H1 Hdp) as [dp1 Hdp1].
  destruct (sameMeta_fields _ _ _ _ _ H1 Hdp Hdp1) as (Hg1 & _ & _).
  eapply IH; [eapply chainOK_sameMeta; eassumption|exact Hdp1|].
  rewrite Hg1, Hg. simpl in *. lia.
Qed.

Lemma squishItem_sameMeta fuel page i ds ds' :
  squishItem fuel page i ds = Some ds' -> sameMeta ds ds'.
Proof.
  unfold squishItem. destruct (ds !! i) as [d|]; [|discriminate].
  destruct (Gen.is_zero _); [intros [= <-]; apply sameMeta_refl|].
  destruct (squishAxis _ _ _ _ _) as [[px p2x] sx].
  destruct (squishAxis _ _ _ _ _) as [[py p2y] sy].
  destruct (_ || _); [apply apply_sameMeta|intros [= <-]; apply sameMeta_refl].
Qed.

Lemma squishItem_terminates fuel page i d ds :
  chainOK ds -> ds !! i = Some d -> (rank (generation d) < fuel)%nat ->
  exists ds', squishItem fuel page i ds = Some ds'.
Proof.
  intros Hc Hd Hr. unfold squishItem. rewrite Hd.
  destruct (Gen.is_zero _); [eauto|].
  destruct (squishAxis _ _ _ _ _) as [[px p2x] sx].
  destruct (squishAxis _ _ _ _ _) as [[py p2y] sy].
  destruct (_ || _); [|eauto]. eapply apply_terminates; eassumption.
Qed.

(** Induction over a [forEach]. *)
Lemma forEachItem_invariant {S : Type} (f : nat -> S -> option S) (P : S -> Prop) :
  forall indices s s',
    (forall i s s1, i ∈ indices -> P s -> f i s = Some s1 -> P s1) ->
    P s -> forEachItem f indices s = Some s' -> P s'.
Proof.
  induction indices as [|i rest IH]; intros s s' Hstep HP H; cbn [forEachItem] in H.
  - now injection H as <-.
  - destruct (f i s) as [s1|] eqn:E; [|discriminate].
    eapply IH; [| |exact H].
    + intros j t t1 Hj. apply Hstep. now apply list_elem_of_further.
    + eapply Hstep; [apply list_elem_of_here|exact HP|exact E].
Qed.

Lemma maxRank_ge ds i d : ds !! i = Some d -> (rank (generation d) <= maxRank ds)%nat.
Proof.
  intros Hd. apply max_list_elem_of_le.
  apply list_elem_of_fmap. exists d. split; [reflexivity|].
  eapply list_elem_of_lookup_2; eassumption.
Qed.

Lemma squish_sameMeta fuel page ds ds' :
  squish fuel page ds = Some ds' -> sameMeta ds ds'.
Proof.
  unfold squish. generalize (seq 0 (length ds)). intros idx H.
  revert H. apply (forEachItem_invariant _ (fun s => sameMeta ds s)).
  - intros i s s1 _ Hs H1. eapply sameMeta_trans; [exact Hs|].
    eapply squishItem_sameMeta; eassumption.
  - apply sameMeta_refl.
Qed.

Lemma squish_terminates fuel page ds :
  chainOK ds -> (maxRank ds < fuel)%nat ->
  exists ds', squish fuel page ds = Some ds'.
Proof.
  intros Hc Hr. unfold squish.
  assert (Hidx : forall i, i ∈ seq 0 (length ds) -> (i < length ds)%nat).
  { intros i Hi. apply elem_of_seq in Hi. lia. }
  revert Hidx. generalize (seq 0 (length ds)). intros idx.
  assert (Hm : sameMeta ds ds) by apply sameMeta_refl.
  revert Hm. generalize ds at 2 4 as s.
  induction idx as [|i idx IH]; intros s Hm Hidx; cbn [forEachItem]; [eauto|].
  assert (Hi : (i < length s)%nat).
  { rewrite (sameMeta_length _ _ Hm). apply Hidx, list_elem_of_here. }
  destruct (lookup_lt_is_Some_2 s i Hi) as [d Hd].
  destruct (squishItem_terminates fuel page i d s) as [s1 Hs1].
  - eapply chainOK_sameMeta; eassumption.
  - assumption.
  - destruct (sameMeta_lookup_Some s ds i d) as [d0 Hd0];
      [unfold sameMeta in *; congruence|assumption|].
    destruct (sameMeta_fields _ _ _ _ _ Hm Hd0 Hd) as (-> & _ & _).
    pose proof (maxRank_ge ds i d0 Hd0). lia.
  - rewrite Hs1. apply IH.
    + eapply sameMeta_trans; [exact Hm|]. eapply squishItem_sameMeta; eassumption.
    + intros j Hj. apply Hidx. now apply list_elem_of_further.
Qed.

Lemma propagate_chainOK fuel items this ds :
  propagate fuel items this = Some ds -> chainOK ds.
Proof.
  unfold propagate. destruct (seed items this) as [ds0|] eqn:Hs; [|discriminate].
  apply (pushLoop_invariant (fun ds _ => chainOK ds)).
  - intros ? ? ? ? ? Hc Hp. eapply chainOK_pushOne; eassumption.
  - eapply chainOK_seed; eassumption.
Qed.

Lemma propagate_fuel_mono fuel fuel' items this ds :
  propagate fuel items this = Some ds -> (fuel <= fuel')%nat ->
  propagate fuel' items this = Some ds.
Proof.
  unfold propagate. destruct (seed items this); [|discriminate].
  apply pushLoop_fuel_mono.
Qed.

Lemma resolve_terminates w items this :
  (this < length items)%nat ->
  exists fuel ds, resolve fuel w items this = Some ds.
Proof.
  intros Hlt. destruct (propagate_terminates items this Hlt) as (f1 & ds1 & H1).
  set (fuel := Nat.max f1 (S (maxRank ds1))).
  assert (H1' : propagate fuel items this = Some ds1).
  { eapply propagate_fuel_mono; [exact H1|]. unfold fuel. lia. }
  destruct (squish_terminates fuel (Items.getSafeWindowBounds w) ds1) as [ds2 H2].
  { eapply propagate_chainOK; eassumption. }
  { unfold fuel. lia. }
  exists fuel. unfold resolve. rewrite H1', H2. eauto.
Qed.

Lemma pushAway_terminates w items this :
  (this < length items)%nat ->
  exists fuel items', pushAway fuel w items this = Some items'.
Proof.
  intros Hlt. destruct (resolve_terminates w items this Hlt) as (fuel & ds & H).
  exists fuel. unfold pushAway. rewrite H. destruct (_ <? _)%nat; eauto.
Qed.

(** The guard of [pushEach]: a base never pushes an item whose generation
    is at most its own. *)
Lemma pushEach_guard b g bb k d :
  Gen.leb (generation d) g = true -> pushEach b g bb k d = (d, false).
Proof.
  intros Hle. destruct (pushEach_cases b g bb k d) as [(-> & _)|(_ & H & _)];
    [reflexivity|congruence].
Qed.

(** C1: for every list of registered items and every seed among them, the
    propagation loop of [pushAway] stops after finitely many iterations
    (some amount of fuel is enough, and any larger amount gives the same
    scratch data), and so does the whole of [pushAway]; a base never
    pushes an item whose generation is at most its own. *)
Theorem pushAway_propagation_terminates (w : Items.Window)
    (items : list Item.t) (this : nat) :
  (this < length items)%nat ->
  (exists fuel ds,
      propagate fuel items this = Some ds /\
      forall fuel', (fuel <= fuel')%nat -> propagate fuel' items this = Some ds) /\
  (exists fuel items', pushAway fuel w items this = Some items') /\
  (forall baseItem baseGen bb item data,
      Gen.leb (generation data) baseGen = true ->
      pushEach baseItem baseGen bb item data = (data, false)).
Proof.
  intros Hlt. split_and!.
  - destruct (propagate_terminates items this Hlt) as (fuel & ds & H).
    exists fuel, ds. split; [exact H|].
    intros fuel' Hle. eapply propagate_fuel_mono; eassumption.
  - now apply pushAway_terminates.
  - intros. now apply pushEach_guard.
Qed.

Lemma pushAway_propagation_terminates_witness :
  (0 < length threeOverlapping)%nat /\
  exists fuel items', pushAway fuel bigWindow threeOverlapping 0 = Some items'.
Proof.
  assert (H : (0 < length threeOverlapping)%nat) by (vm_compute; lia).
  split; [exact H|].
  exact (proj1 (proj2 (pushAway_propagation_terminates bigWindow threeOverlapping 0 H))).
Defined.
(** ** Minimum size *)

Lemma pushEach_size b g bb k d :
  Rect.width (bounds (fst (pushEach b g bb k d))) = Rect.width (bounds d) /\
  Rect.height (bounds (fst (pushEach b g bb k d))) = Rect.height (bounds d).
Proof.
  destruct (pushEach_cases b g bb k d) as [(-> & _)|(_ & _ & _ & ->)]; auto.
Qed.

Lemma allMinSize_pushOne b ds ds' q :
  allMinSize ds -> pushOne b ds = Some (ds', q) -> allMinSize ds'.
Proof.
  intros Hm Hp. destruct (pushOne_spec _ _ _ _ Hp) as (bd & _ & _ & Hlk & _).
  intros i d' Hd'. rewrite Hlk in Hd'.
  destruct (ds !! i) as [d|] eqn:Hd; [|discriminate]. injection Hd' as <-.
  unfold minSize.
  destruct (pushEach_size b (generation bd) (inflate (bounds bd)) i d) as [-> ->].
  exact (Hm i d Hd).
Qed.

Lemma allMinSize_seed items this ds :
  Forall (fun it => minSize (Item.bounds it)) items ->
  seed items this = Some ds -> allMinSize ds.
Proof.
  intros Hall Hs i d Hd. destruct (seed_spec _ _ _ Hs) as (_ & _ & Hlk).
  rewrite Hlk in Hd. destruct (items !! i) as [it|] eqn:Hit; [|discriminate].
  injection Hd as <-. rewrite Forall_lookup in Hall. specialize (Hall i it Hit).
  now destruct (Nat.eqb i this).
Qed.

Lemma allMinSize_propagate fuel items this ds :
  Forall (fun it => minSize (Item.bounds it)) items ->
  propagate fuel items this = Some ds -> allMinSize ds.
Proof.
  intros Hall. unfold propagate.
  destruct (seed items this) as [ds0|] eqn:Hs; [|discriminate].
  apply (pushLoop_invariant (fun ds _ => allMinSize ds)).
  - intros ? ? ? ? ? Hc Hp. eapply allMinSize_pushOne; eassumption.
  - eapply allMinSize_seed; eassumption.
Qed.

Lemma allMinSize_insert ds i d :
  allMinSize ds -> minSize (bounds d) -> allMinSize (<[i := d]> ds).
Proof.
  intros Hm Hd j dj Hj. apply list_lookup_insert_Some in Hj.
  destruct Hj as [(_ & <- & _)|(_ & Hj)]; [assumption|exact (Hm j dj Hj)].
Qed.

Lemma allMinSize_apply fuel i ps ps2 ss ds ds' :
  allMinSize ds -> apply fuel i ps ps2 ss ds = Some ds' -> allMinSize ds'.
Proof.
  revert i ps ds. induction fuel as [|fuel IH]; intros i ps ds Hm H; [discriminate|].
  cbn [apply] in H. destruct (ds !! i) as [d|] eqn:Hd; [|discriminate].
  destruct (Gen.is_zero (generation d)); [now injection H as <-|].
  match type of H with context [<[i := ?x]> ds] => set (ds1 := <[i := x]> ds) in * end.
  assert (H1 : allMinSize ds1).
  { apply allMinSize_insert; [assumption|]. apply calcValidSize_min. }
  destruct (pusher d) as [p|]; [eapply IH; eassumption|now injection H as <-].
Qed.

Lemma allMinSize_squish fuel page ds ds' :
  allMinSize ds -> squish fuel page ds = Some ds' -> allMinSize ds'.
Proof.
  intros Hm. unfold squish. apply forEachItem_invariant; [|assumption].
  intros i s s1 _ Hs. unfold squishItem. destruct (s !! i) as [d|]; [|discriminate].
  destruct (Gen.is_zero _); [now intros [= <-]|].
  destruct (squishAxis _ _ _ _ _) as [[px p2x] sx].
  destruct (squishAxis _ _ _ _ _) as [[py p2y] sy].
  destruct (_ || _); [now apply allMinSize_apply|now intros [= <-]].
Qed.

(** ** Unsquish *)

Lemma unsquishPair_cases page i ps :
  Unsquish.unsquishPair page i ps = ps \/
  exists pr, ps !! i = Some pr /\
    Unsquish.blocked i (Unsquish.target page pr) 0 ps = false /\
    Rect.equals (Unsquish.bounds pr) (Unsquish.target page pr) = false /\
    Unsquish.unsquishPair page i ps = <[i := Unsquish.mkPair (Unsquish.item pr) (Unsquish.target page pr)]> ps.
Proof.
  unfold Unsquish.unsquishPair. destruct (ps !! i) as [pr|]; [|now left]. cbv zeta.
  destruct (Rect.equals _ _) eqn:He; [now left|].
  destruct (Unsquish.blocked _ _ _ _) eqn:Hb; [now left|]. right. exists pr. auto.
Qed.

Lemma unsquish_invariant page (P : list Unsquish.Pair -> Prop) pairs :
  P pairs -> (forall i ps, P ps -> P (Unsquish.unsquishPair page i ps)) ->
  P (Unsquish.unsquish page pairs).
Proof.
  intros HP Hstep. unfold Unsquish.unsquish. generalize (seq 0 (length pairs)).
  intros idx. revert pairs HP. induction idx as [|i idx IH]; intros ps HP; simpl.
  - assumption.
  - apply IH. now apply Hstep.
Qed.

Lemma unsquish_items page pairs :
  Unsquish.item <$> Unsquish.unsquish page pairs = Unsquish.item <$> pairs.
Proof.
  apply (unsquish_invariant page (fun ps => Unsquish.item <$> ps = Unsquish.item <$> pairs)).
  - reflexivity.
  - intros i ps <-. destruct (unsquishPair_cases page i ps) as [->|(pr & Hpr & _ & _ & ->)].
    + reflexivity.
    + rewrite list_fmap_insert. apply list_insert_id.
      now rewrite list_lookup_fmap, Hpr.
Qed.

Lemma unsquish_length page pairs : length (Unsquish.unsquish page pairs) = length pairs.
Proof.
  pose proof (f_equal length (unsquish_items page pairs)) as H.
  now rewrite !length_fmap in H.
Qed.

Lemma target_size page pr :
  Rect.width (Unsquish.bounds pr) <= Rect.width (Unsquish.target page pr) /\
  Rect.height (Unsquish.bounds pr) <= Rect.height (Unsquish.target page pr).
Proof. unfold Unsquish.target, Rect.offset. proj_simpl. split; apply Qmax_ge_l. Qed.

Lemma unsquish_minSize page pairs :
  pairsMinSize pairs -> pairsMinSize (Unsquish.unsquish page pairs).
Proof.
  intros H. apply unsquish_invariant; [assumption|].
  intros i ps Hps. destruct (unsquishPair_cases page i ps) as [->|(pr & Hpr & _ & _ & ->)];
    [assumption|].
  intros j p Hj. apply list_lookup_insert_Some in Hj.
  destruct Hj as [(_ & <- & _)|(_ & Hj)]; [|exact (Hps j p Hj)].
  cbn [Unsquish.bounds]. destruct (Hps i pr Hpr) as [Hw Hh].
  destruct (target_size page pr) as [Hw' Hh']. unfold minSize. split; lra.
Qed.

(** The scratch data at the end of the pass: what [resolve] returns. *)
Lemma resolve_spec fuel w items this ds :
  resolve fuel w items this = Some ds ->
  exists ds1 ds2,
    propagate fuel items this = Some ds1 /\
    squish fuel (Items.getSafeWindowBounds w) ds1 = Some ds2 /\
    ds = zip_with (fun d p => set_bounds d (Unsquish.bounds p)) ds2
           (Unsquish.unsquish (Items.getSafeWindowBounds w)
              (zip_with (fun it d => Unsquish.mkPair it (bounds d)) items ds2)).
Proof.
  unfold resolve. destruct (propagate fuel items this) as [ds1|]; [|discriminate].
  cbv zeta. destruct (squish _ _ ds1) as [ds2|] eqn:H2; [|discriminate].
  intros [= <-]. exists ds1, ds2. auto.
Qed.

Lemma propagate_length fuel items this ds :
  propagate fuel items this = Some ds -> length ds = length items.
Proof.
  unfold propagate. destruct (seed items this) as [ds0|] eqn:Hs; [|discriminate].
  destruct (seed_spec _ _ _ Hs) as (_ & Hlen & _). rewrite <- Hlen.
  apply (pushLoop_invariant (fun ds _ => length ds = length ds0)); [|reflexivity].
  intros ? ? ? ? ? Hc Hp. destruct (pushOne_spec _ _ _ _ Hp) as (_ & _ & -> & _).
  assumption.
Qed.

Lemma allMinSize_resolve fuel w items this ds :
  Forall (fun it => minSize (Item.bounds it)) items ->
  resolve fuel w items this = Some ds -> allMinSize ds.
Proof.
  intros Hall H. destruct (resolve_spec _ _ _ _ _ H) as (ds1 & ds2 & H1 & H2 & ->).
  assert (Hm2 : allMinSize ds2).
  { eapply allMinSize_squish; [|exact H2]. eapply allMinSize_propagate; eassumption. }
  intros i d Hd. apply lookup_zip_with_Some in Hd.
  destruct Hd as (d2 & p & -> & Hd2 & Hp). cbn [bounds set_bounds].
  clear Hd2. revert i p Hp. apply unsquish_minSize.
  intros j p Hp. apply lookup_zip_with_Some in Hp.
  destruct Hp as (it & dj & -> & _ & Hdj). exact (Hm2 j dj Hdj).
Qed.

Lemma setBounds_minSize it r : minSize (Item.bounds it) -> minSize (Item.bounds (Item.setBounds it r)).
Proof.
  intros H. unfold Item.setBounds. destruct (_ && _); [assumption|].
  apply calcValidSize_min.
Qed.

Lemma commit_minSize it d : minSize (Item.bounds it) -> minSize (Item.bounds (commit it d)).
Proof.
  intros H. unfold commit. destruct (negb _); [|assumption].
  now apply setBounds_minSize.
Qed.

Lemma resolve_length fuel w items this ds :
  resolve fuel w items this = Some ds -> length ds = length items.
Proof.
  intros H. destruct (resolve_spec _ _ _ _ _ H) as (ds1 & ds2 & H1 & H2 & ->).
  pose proof (propagate_length _ _ _ _ H1) as L1.
  pose proof (sameMeta_length _ _ (squish_sameMeta _ _ _ _ H2)) as L2.
  rewrite length_zip_with, unsquish_length, length_zip_with. lia.
Qed.

(** C3: when every item starts a pass at least as large as the minimum
    item size (what [setBounds] maintains), a complete [pushAway] pass
    returns, the scratch bounds at its end (after propagation, squish and
    unsquish) are at least the minimum size, and so are the bounds of
    every item once the changes are applied. *)
Theorem pushAway_keeps_minimum_size (w : Items.Window) (items : list Item.t)
    (this : nat) :
  (this < length items)%nat ->
  Forall (fun it => minSize (Item.bounds it)) items ->
  (exists fuel items', pushAway fuel w items this = Some items') /\
  (forall fuel ds, resolve fuel w items this = Some ds ->
     Forall (fun d => minSize (bounds d)) ds) /\
  (forall fuel items', pushAway fuel w items this = Some items' ->
     length items' = length items /\
     Forall (fun it => minSize (Item.bounds it)) items').
Proof.
  intros Hlt Hall. split_and!.
  - now apply pushAway_terminates.
  - intros fuel ds H. apply Forall_lookup. intros i d.
    now apply (allMinSize_resolve fuel w items this ds Hall H).
  - intros fuel items' H. unfold pushAway in H.
    destruct (length items <? 2)%nat; [injection H as <-; auto|].
    destruct (resolve fuel w items this) as [ds|] eqn:Hr; [|discriminate].
    injection H as <-. split.
    + rewrite length_zip_with. pose proof (resolve_length _ _ _ _ _ Hr). lia.
    + apply Forall_lookup. intros i it' Hi. apply lookup_zip_with_Some in Hi.
      destruct Hi as (it & d & -> & Hit & _). apply commit_minSize.
      rewrite Forall_lookup in Hall. exact (Hall i it Hit).
Qed.
(** ** Configurations that a pass leaves alone *)

Lemma equals_true (a b : Rect.t) : Rect.equals a b = true <-> Rect.eq b a.
Proof.
  unfold Rect.equals, Rect.eq. rewrite !andb_true_iff, !Qeq_bool_iff. tauto.
Qed.

Lemma equals_refl (a : Rect.t) : Rect.equals a a = true.
Proof. apply equals_true. unfold Rect.eq. split_and!; reflexivity. Qed.

Lemma truthy_zero : truthy 0 = false.
Proof. reflexivity. Qed.

Lemma squishAxis_within lo hi plo phi g :
  plo <= lo -> hi <= phi -> squishAxis lo hi plo phi g = (0, 0, 0).
Proof.
  intros H1 H2. unfold squishAxis, Qgtb.
  rewrite (proj2 (Qltb_false _ _) H1), (proj2 (Qltb_false _ _) H2). reflexivity.
Qed.

Lemma squishItem_within fuel page i d ds :
  ds !! i = Some d ->
  Gen.is_zero (generation d) = true \/ withinPage page (bounds d) ->
  squishItem fuel page i ds = Some ds.
Proof.
  intros Hd H. unfold squishItem. rewrite Hd.
  destruct (Gen.is_zero (generation d)); [reflexivity|].
  destruct H as [?|(H1 & H2 & H3 & H4)]; [discriminate|].
  rewrite !squishAxis_within by assumption. reflexivity.
Qed.



Lemma target_settled page it :
  settled page it ->
  Rect.equals (Item.bounds it)
              (Unsquish.target page (Unsquish.mkPair it (Item.bounds it))) = true.
Proof.
  intros (Hw & Hh & H1 & H2 & H3 & H4). apply equals_true.
  unfold Unsquish.target. cbn [Unsquish.bounds Unsquish.item].
  fold (preferredSize it).
  rewrite (Qmax_left _ _ Hw), (Qmax_left _ _ Hh).
  set (b := Item.bounds it) in *.
  set (nb := Rect.mk _ _ _ _).
  assert (El : Rect.left nb == Rect.left b).
  { unfold nb. proj_simpl. field. }
  assert (Et : Rect.top nb == Rect.top b).
  { unfold nb. proj_simpl. field. }
  assert (Er : Rect.right nb == Rect.right b).
  { unfold Rect.right. rewrite El. reflexivity. }
  assert (Eb : Rect.bottom nb == Rect.bottom b).
  { unfold Rect.bottom. rewrite Et. reflexivity. }
  unfold Qgtb.
  rewrite (proj2 (Qltb_false (Rect.left nb) (Rect.left page))) by (rewrite El; exact H1).
  rewrite (proj2 (Qltb_false (Rect.right page) (Rect.right nb))) by (rewrite Er; exact H2).
  rewrite (proj2 (Qltb_false (Rect.top nb) (Rect.top page))) by (rewrite Et; exact H3).
  rewrite (proj2 (Qltb_false (Rect.bottom page) (Rect.bottom nb))) by (rewrite Eb; exact H4).
  unfold Rect.eq, Rect.offset. proj_simpl. split_and!; try reflexivity; lra.
Qed.

Lemma unsquish_settled page pairs :
  (forall i pr, pairs !! i = Some pr ->
     Rect.equals (Unsquish.bounds pr) (Unsquish.target page pr) = true) ->
  Unsquish.unsquish page pairs = pairs.
Proof.
  intros H. apply (unsquish_invariant page (fun ps => ps = pairs)); [reflexivity|].
  intros i ps ->. destruct (unsquishPair_cases page i pairs)
    as [->|(pr & Hpr & _ & He & _)]; [reflexivity|].
  rewrite (H i pr Hpr) in He. discriminate.
Qed.


(** ** What the seed is cleared of *)

Lemma withinPageb_true page r : withinPageb page r = true <-> withinPage page r.
Proof.
  unfold withinPageb, withinPage. rewrite !andb_true_iff, !Qleb_true. tauto.
Qed.

Lemma Gen_leb_zero g : Gen.leb (Gen.Fin 0) g = true.
Proof. now destruct g. Qed.

Lemma firstGenInv_first items this seedItem ds0 ds1 pushed :
  items !! this = Some seedItem ->
  seed items this = Some ds0 ->
  pushOne this ds0 = Some (ds1, pushed) ->
  firstGenInv this (Item.bounds seedItem) ds1 pushed.
Proof.
  intros Hseed Hs Hp. destruct (seed_spec _ _ _ Hs) as (_ & _ & Hlk0).
  destruct (pushOne_spec _ _ _ _ Hp) as (bd & Hbd & _ & Hlk & Hq).
  assert (Ebd : bd = set_generation (setupPushAwayData seedItem) (Gen.Fin 0)).
  { rewrite Hlk0, Hseed in Hbd. simpl in Hbd. rewrite Nat.eqb_refl in Hbd. congruence. }
  assert (Hgb : generation bd = Gen.Fin 0) by now rewrite Ebd.
  assert (Hbb : bounds bd = Item.bounds seedItem) by now rewrite Ebd.
  rewrite Hgb, Hbb in *. set (bb := inflate (Item.bounds seedItem)) in *.
  assert (Hold : forall i d, i <> this -> ds0 !! i = Some d ->
                             generation d = Gen.Infinity).
  { intros i d Hne Hd. rewrite Hlk0 in Hd. destruct (items !! i); [|discriminate].
    simpl in Hd. rewrite (proj2 (Nat.eqb_neq i this) Hne) in Hd. now injection Hd as <-. }
  split_and!.
  - exists bd. rewrite Hlk, Hbd. simpl. split_and!; auto.
    destruct (pushEach_cases this (Gen.Fin 0) bb this bd) as [(-> & _)|(? & _)];
      [reflexivity|congruence].
  - intros i d' Hne Hd'. rewrite Hlk in Hd'.
    destruct (ds0 !! i) as [d|] eqn:Hd; [|discriminate]. injection Hd' as <-.
    destruct (pushEach_generation this (Gen.Fin 0) bb i d) as [(-> & _)|(-> & _)].
    + rewrite (Hold i d Hne Hd). discriminate.
    + discriminate.
  - intros i Hi ->. apply Hq in Hi. destruct Hi as (d & _ & Hsn).
    destruct (pushEach_cases this (Gen.Fin 0) bb this d) as [(E & _)|(? & _)];
      [rewrite E in Hsn; discriminate|congruence].
  - intros i d' Hne Hd' _. rewrite Hlk in Hd'.
    destruct (ds0 !! i) as [d|] eqn:Hd; [|discriminate]. injection Hd' as <-.
    destruct (pushEach_cases this (Gen.Fin 0) bb i d)
      as [(-> & [?|[Hle|Hni]])|(_ & _ & Hi & ->)]; cbn [fst bounds].
    + congruence.
    + rewrite (Hold i d Hne Hd) in Hle. discriminate.
    + exact Hni.
    + now apply pushOffset_separates.
Qed.

Lemma firstGenInv_step this B0 ds b rest ds' pushed :
  firstGenInv this B0 ds (b :: rest) ->
  pushOne b ds = Some (ds', pushed) ->
  firstGenInv this B0 ds' (rest ++ pushed).
Proof.
  intros ((sd & Hsd & Hsg & Hsb) & Hnz & Hq & Hsep) Hp.
  destruct (pushOne_spec _ _ _ _ Hp) as (bd & Hbd & _ & Hlk & Hpq).
  set (bb := inflate (bounds bd)) in *.
  assert (Hbne : b <> this) by (apply Hq, list_elem_of_here).
  assert (Hgb : generation bd <> Gen.Fin 0) by exact (Hnz b bd Hbne Hbd).
  split_and!.
  - exists sd. rewrite Hlk, Hsd. simpl. split_and!; auto.
    destruct (pushEach_cases b (generation bd) bb this sd) as [(-> & _)|(_ & Hle & _)];
      [reflexivity|]. rewrite Hsg, Gen_leb_zero in Hle. discriminate.
  - intros i d' Hne Hd'. rewrite Hlk in Hd'.
    destruct (ds !! i) as [d|] eqn:Hd; [|discriminate]. injection Hd' as <-.
    destruct (pushEach_generation b (generation bd) bb i d) as [(-> & _)|(-> & _)].
    + exact (Hnz i d Hne Hd).
    + now destruct (generation bd).
  - intros i Hi. apply elem_of_app in Hi. destruct Hi as [Hi|Hi].
    + apply Hq. now apply list_elem_of_further.
    + intros ->. apply Hpq in Hi. destruct Hi as (d & Hd & Hsn).
      rewrite Hsd in Hd. injection Hd as <-.
      destruct (pushEach_cases b (generation bd) bb this sd) as [(E & _)|(_ & Hle & _)].
      * rewrite E in Hsn. discriminate.
      * rewrite Hsg, Gen_leb_zero in Hle. discriminate.
  - intros i d' Hne Hd' Hg'. rewrite Hlk in Hd'.
    destruct (ds !! i) as [d|] eqn:Hd; [|discriminate]. injection Hd' as <-.
    destruct (pushEach_cases b (generation bd) bb i d)
      as [(E & _)|(_ & Hle & _ & E)]; rewrite E in *; cbn [fst generation bounds] in *.
    + exact (Hsep i d Hne Hd Hg').
    + destruct (generation bd) as [[|m]|]; cbn [Gen.succ] in Hg'.
      * congruence.
      * destruct Hg'; discriminate.
      * destruct (generation d); discriminate.
Qed.

Lemma firstGenInv_propagate fuel items this seedItem ds :
  items !! this = Some seedItem ->
  propagate fuel items this = Some ds ->
  firstGenInv this (Item.bounds seedItem) ds [].
Proof.
  intros Hseed. unfold propagate.
  destruct (seed items this) as [ds0|] eqn:Hs; [|discriminate].
  destruct fuel as [|fuel]; [discriminate|]. cbn [pushLoop].
  destruct (pushOne this ds0) as [[ds1 pushed]|] eqn:Hp; [|discriminate].
  cbn [app]. apply (pushLoop_invariant (firstGenInv this (Item.bounds seedItem))).
  - intros. eapply firstGenInv_step; eassumption.
  - eapply firstGenInv_first; eassumption.
Qed.

Lemma inflate_intersects (a b : Rect.t) :
  Rect.intersects (inflate a) (inflate b) = false -> Rect.intersects a b = false.
Proof.
  rewrite !intersects_false. rect_unfold. intros H. lra.
Qed.

Lemma intersects_eq (a a' b b' : Rect.t) :
  Rect.eq a a' -> Rect.eq b b' -> Rect.intersects a b = Rect.intersects a' b'.
Proof.
  intros (A1 & A2 & A3 & A4) (B1 & B2 & B3 & B4).
  destruct (Rect.intersects a' b') eqn:E.
  - apply intersects_true in E. apply intersects_true. rect_unfold. lra.
  - apply intersects_false in E. apply intersects_false. rect_unfold. lra.
Qed.

Lemma blocked_false i nb j0 ps :
  Unsquish.blocked i nb j0 ps = false ->
  forall k p, ps !! k = Some p -> (j0 + k)%nat <> i ->
              Rect.intersects (Unsquish.bounds p) nb = false.
Proof.
  revert j0. induction ps as [|p0 ps IH]; intros j0 H k p Hk Hne; [discriminate|].
  cbn [Unsquish.blocked] in H. apply orb_false_iff in H. destruct H as [H0 H].
  destruct k as [|k]; simpl in Hk.
  - injection Hk as <-. rewrite Nat.add_0_r in Hne.
    rewrite (proj2 (Nat.eqb_neq j0 i) Hne) in H0. exact H0.
  - apply (IH (S j0) H k p Hk). lia.
Qed.

Lemma unsquishPair_apart page k ps i j :
  i <> j -> apart ps i j -> apart (Unsquish.unsquishPair page k ps) i j.
Proof.
  intros Hij Hap.
  destruct (unsquishPair_cases page k ps) as [->|(pr & Hpr & Hb & _ & ->)];
    [assumption|].
  intros pi pj Hi Hj.
  apply list_lookup_insert_Some in Hi. apply list_lookup_insert_Some in Hj.
  destruct Hi as [(-> & <- & _)|(Hki & Hi)]; destruct Hj as [(Ekj & <- & _)|(Hkj & Hj)].
  - congruence.
  - cbn [Unsquish.bounds]. rewrite intersects_sym.
    apply (blocked_false _ _ _ _ Hb j pj Hj). simpl. congruence.
  - cbn [Unsquish.bounds]. subst k.
    apply (blocked_false _ _ _ _ Hb i pi Hi). simpl. congruence.
  - now apply Hap.
Qed.

Lemma unsquish_apart page ps i j :
  i <> j -> apart ps i j -> apart (Unsquish.unsquish page ps) i j.
Proof.
  intros Hij Hap. apply unsquish_invariant; [assumption|].
  intros k ps'. now apply unsquishPair_apart.
Qed.

Lemma startOK_propagate fuel items this ds :
  propagate fuel items this = Some ds -> startOK items ds.
Proof.
  unfold propagate. destruct (seed items this) as [ds0|] eqn:Hs; [|discriminate].
  destruct (seed_spec _ _ _ Hs) as (_ & _ & Hlk0).
  apply (pushLoop_invariant (fun ds _ => startOK items ds)).
  - intros s b rest s' pushed Hok Hp i d' it Hd' Hit.
    destruct (pushOne_spec _ _ _ _ Hp) as (bd & _ & _ & Hlk & _).
    rewrite Hlk in Hd'. destruct (s !! i) as [d|] eqn:Hd; [|discriminate].
    injection Hd' as <-. rewrite <- (Hok i d it Hd Hit).
    destruct (pushEach_cases b (generation bd) (inflate (bounds bd)) i d)
      as [(-> & _)|(_ & _ & _ & ->)]; reflexivity.
  - intros i d it Hd Hit. rewrite Hlk0, Hit in Hd. injection Hd as <-.
    now destruct (Nat.eqb i this).
Qed.

Lemma commit_bounds_eq it d :
  minSize (bounds d) -> startBounds d = Item.bounds it ->
  Rect.eq (Item.bounds (commit it d)) (bounds d).
Proof.
  intros [Hw Hh] Hst. unfold commit.
  destruct (Rect.equals (bounds d) (startBounds d)) eqn:He; cbn [negb].
  - apply equals_true in He. cbn [Item.set_pushAwayData Item.bounds].
    rewrite <- Hst. exact He.
  - unfold Item.setBounds.
    rewrite (calcValidSize_fixed (Point.mk (Rect.width (bounds d)) (Rect.height (bounds d))))
      by assumption.
    proj_simpl.
    destruct (_ && _) eqn:Hc.
    + rewrite !andb_true_iff, !Qeq_bool_iff in Hc. cbn [Item.set_pushAwayData Item.bounds].
      unfold Rect.eq. destruct Hc as (((H1 & H2) & H3) & H4).
      split_and!; symmetry; assumption.
    + cbn [Item.set_bounds Item.bounds]. unfold Rect.eq. proj_simpl.
      split_and!; reflexivity.
Qed.

(** An item that was never pushed is where it started. *)
Lemma unpushed_propagate fuel items this ds :
  propagate fuel items this = Some ds ->
  forall i d, ds !! i = Some d -> generation d = Gen.Infinity ->
    bounds d = startBounds d.
Proof.
  unfold propagate. destruct (seed items this) as [ds0|] eqn:Hs; [|discriminate].
  destruct (seed_spec _ _ _ Hs) as (_ & _ & Hlk0).
  apply (pushLoop_invariant
           (fun ds _ => forall i d, ds !! i = Some d ->
              generation d = Gen.Infinity -> bounds d = startBounds d)).
  - intros s b rest s' pushed Hok Hp i d' Hd' Hg.
    destruct (pushOne_spec _ _ _ _ Hp) as (bd & _ & _ & Hlk & _).
    rewrite Hlk in Hd'. destruct (s !! i) as [d|] eqn:Hd; [|discriminate].
    injection Hd' as <-.
    destruct (pushEach_cases b (generation bd) (inflate (bounds bd)) i d)
      as [(E & _)|(_ & Hle & _ & E)]; rewrite E in *; cbn [fst] in *.
    + exact (Hok i d Hd Hg).
    + cbn [generation] in Hg. destruct (generation bd); [discriminate|].
      destruct (generation d); discriminate.
  - intros i d Hd _. rewrite Hlk0 in Hd.
    destruct (items !! i) as [it|]; [|discriminate].
    simpl in Hd. injection Hd as <-. now destruct (Nat.eqb i this).
Qed.

(** The squish of an item that has no pusher changes that item only. *)
Lemma squishItem_unpushed fuel page j dj s s1 :
  s !! j = Some dj -> pusher dj = None ->
  squishItem fuel page j s = Some s1 ->
  forall k, k <> j -> s1 !! k = s !! k.
Proof.
  intros Hdj Hp. unfold squishItem. rewrite Hdj.
  destruct (Gen.is_zero (generation dj)) eqn:Hz; [now intros [= <-]|].
  destruct (squishAxis _ _ _ _ _) as [[px p2x] sx].
  destruct (squishAxis _ _ _ _ _) as [[py p2y] sy].
  destruct (_ || _); [|now intros [= <-]].
  destruct fuel as [|fuel]; [discriminate|]. cbn [apply].
  rewrite Hdj, Hz, Hp. intros [= <-] k Hne.
  apply list_lookup_insert_ne. congruence.
Qed.

(** When no pushed item has left the page, the squish pass moves only
    items that were never pushed and lie outside the page. *)
Lemma squish_keeps_reached fuel page ds ds' :
  chainOK ds -> pushedInPage page ds = true ->
  squish fuel page ds = Some ds' ->
  forall k d, ds !! k = Some d ->
    generation d <> Gen.Infinity \/ withinPage page (bounds d) ->
    ds' !! k = Some d.
Proof.
  intros Hc Hin Hsq.
  assert (Hpush : forall k d p, ds !! k = Some d -> pusher d = Some p ->
                    withinPage page (bounds d)).
  { unfold pushedInPage in Hin. rewrite forallb_forall in Hin.
    intros k d p Hd Hp. specialize (Hin d). rewrite Hp in Hin.
    apply withinPageb_true, Hin.
    apply list_elem_of_In. eapply list_elem_of_lookup_2; eassumption. }
  unfold squish in Hsq. revert Hsq. generalize (seq 0 (length ds)). intros idx Hsq.
  set (P := fun s : list PushAwayData.t =>
              sameMeta ds s /\
              forall k d, ds !! k = Some d ->
                generation d <> Gen.Infinity \/ withinPage page (bounds d) ->
                s !! k = Some d).
  enough (HP : P ds') by apply HP.
  eapply (forEachItem_invariant _ P); [| |exact Hsq].
  - intros j s s1 _ [Hm Hk] Hs.
    destruct (s !! j) as [dj|] eqn:Hdj;
      [|unfold squishItem in Hs; rewrite Hdj in Hs; discriminate].
    destruct (lookup_lt_is_Some_2 ds j) as [d0 Hd0].
    { rewrite <- (sameMeta_length _ _ Hm). eapply lookup_lt_Some; eassumption. }
    destruct (sameMeta_fields _ _ _ _ _ Hm Hd0 Hdj) as (Eg & Ep & _).
    pose proof (Hc j d0 Hd0) as Hcj.
    assert (Hkeep : generation d0 <> Gen.Infinity \/ withinPage page (bounds d0) ->
                    s1 = s).
    { intros Hor. pose proof (Hk j d0 Hd0 Hor) as E. rewrite Hdj in E.
      injection E as ->.
      assert (Hz : Gen.is_zero (generation d0) = true \/ withinPage page (bounds d0)).
      { destruct Hor as [Hn|?]; [|auto].
        destruct (generation d0) as [[|g]|]; [left; reflexivity| |congruence].
        right. destruct Hcj as (p & _ & _ & Hp & _). eapply Hpush; eassumption. }
      rewrite (squishItem_within fuel page j d0 s Hdj Hz) in Hs. now injection Hs. }
    destruct (withinPageb page (bounds d0)) eqn:Hw.
    { apply withinPageb_true in Hw. rewrite (Hkeep (or_intror Hw)). now split. }
    destruct (generation d0) as [n|] eqn:Eg0.
    { rewrite Hkeep; [now split|]. left. discriminate. }
    split; [eapply sameMeta_trans; [exact Hm|eapply squishItem_sameMeta; exact Hs]|].
    intros k d Hd Hor. destruct (Nat.eq_dec k j) as [->|Hne].
    + rewrite Hd0 in Hd. injection Hd as <-. destruct Hor as [Hn|Hin'].
      * congruence.
      * apply withinPageb_true in Hin'. congruence.
    + rewrite <- (Hk k d Hd Hor).
      eapply squishItem_unpushed; [exact Hdj|congruence|exact Hs|exact Hne].
  - split; [apply sameMeta_refl|auto].
Qed.

(** C2, amended: when every item starts at least as large as the minimum
    size and, at the end of the propagation, no pushed item has left the
    safe window bounds, then after [pushAway] the bounds of every item of
    generation 1 (pushed by the seed itself), and of every item that was
    never pushed and started inside the safe window bounds, do not
    intersect the bounds of the seed. *)
Theorem pushAway_clears_seed (w : Items.Window) (items : list Item.t)
    (this fuel : nat) (ds1 : list PushAwayData.t) (items' : list Item.t) :
  Forall (fun it => minSize (Item.bounds it)) items ->
  propagate fuel items this = Some ds1 ->
  pushedInPage (Items.getSafeWindowBounds w) ds1 = true ->
  pushAway fuel w items this = Some items' ->
  forall i it s d,
    i <> this -> items' !! i = Some it -> items' !! this = Some s ->
    Item.pushAwayData it = Some d ->
    generation d = Gen.Fin 1 \/
    (generation d = Gen.Infinity /\
     withinPage (Items.getSafeWindowBounds w) (startBounds d)) ->
    Rect.intersects (Item.bounds it) (Item.bounds s) = false.
Proof.
  intros Hmin Hprop Hstay Hpa i it s d Hne Hi Hthis Hd Hg.
  unfold pushAway in Hpa. destruct (Nat.ltb_spec (length items) 2) as [Hlen|Hlen].
  { injection Hpa as <-. apply lookup_lt_Some in Hi, Hthis. lia. }
  destruct (resolve fuel w items this) as [ds|] eqn:Hres; [|discriminate].
  injection Hpa as <-.
  pose proof (allMinSize_resolve _ _ _ _ _ Hmin Hres) as Hms.
  destruct (resolve_spec _ _ _ _ _ Hres) as (ds1' & ds2 & H1 & H2 & Hds).
  rewrite Hprop in H1. injection H1 as <-.
  set (page := Items.getSafeWindowBounds w) in *.
  pose proof (squish_sameMeta _ _ _ _ H2) as Hm.
  pose proof (squish_keeps_reached fuel page ds1 ds2
                (propagate_chainOK _ _ _ _ Hprop) Hstay H2) as Hkeep.
  set (pairs := zip_with (fun it d => Unsquish.mkPair it (bounds d)) items ds2) in *.
  apply lookup_zip_with_Some in Hi. destruct Hi as (it0 & di & -> & Hit0 & Hdi).
  apply lookup_zip_with_Some in Hthis. destruct Hthis as (s0 & dt & -> & Hs0 & Hdt).
  pose proof (startOK_propagate _ _ _ _ Hprop) as Hst.
  pose proof Hdi as Hdi'. pose proof Hdt as Hdt'.
  rewrite Hds in Hdi', Hdt'.
  apply lookup_zip_with_Some in Hdi'. destruct Hdi' as (d2i & pi & Edi & Hd2i & Hpi).
  apply lookup_zip_with_Some in Hdt'. destruct Hdt' as (d2t & pt & Edt & Hd2t & Hpt).
  assert (Ed : d = di).
  { unfold commit in Hd. destruct (negb _) in Hd.
    - unfold Item.setBounds in Hd. destruct (_ && _) in Hd; cbn in Hd;
        now injection Hd as <-.
    - cbn in Hd. now injection Hd as <-. }
  rewrite Ed, Edi in Hg. cbn [generation startBounds set_bounds] in Hg.
  destruct (firstGenInv_propagate _ _ _ _ _ Hs0 Hprop)
    as ((sd & Hsd & Hsg & Hsb) & _ & _ & Hsep).
  assert (Hd1t : ds1 !! this = Some d2t).
  { assert (E : ds2 !! this = Some sd).
    { apply Hkeep; [exact Hsd|]. left. rewrite Hsg. discriminate. }
    rewrite Hd2t in E. now injection E as ->. }
  rewrite Hd1t in Hsd. injection Hsd as <-.
  destruct (lookup_lt_is_Some_2 ds1 i) as [d1i Hd1i].
  { rewrite <- (sameMeta_length _ _ Hm). eapply lookup_lt_Some; eassumption. }
  destruct (sameMeta_fields _ _ _ _ _ Hm Hd1i Hd2i) as (Eg & _ & Es).
  assert (Hg1 : generation d1i = Gen.Fin 1 \/ generation d1i = Gen.Infinity).
  { rewrite <- Eg. tauto. }
  assert (Hor : generation d1i <> Gen.Infinity \/ withinPage page (bounds d1i)).
  { destruct Hg as [Hg|[Hg Hw]].
    - left. rewrite <- Eg, Hg. discriminate.
    - right. rewrite (unpushed_propagate _ _ _ _ Hprop i d1i Hd1i), <- Es;
        [exact Hw|now rewrite <- Eg]. }
  pose proof (Hkeep i d1i Hd1i Hor) as E. rewrite Hd2i in E. injection E as ->.
  rewrite (intersects_eq _ (bounds di) _ (bounds dt)).
  2:{ apply commit_bounds_eq; [exact (Hms i di Hdi)|].
      rewrite Edi. cbn [startBounds set_bounds]. exact (Hst i d1i it0 Hd1i Hit0). }
  2:{ apply commit_bounds_eq; [exact (Hms this dt Hdt)|].
      rewrite Edt. cbn [startBounds set_bounds]. exact (Hst this d2t s0 Hd1t Hs0). }
  rewrite Edi, Edt. cbn [bounds set_bounds].
  refine (unsquish_apart page pairs i this Hne _ pi pt Hpi Hpt).
  clear dependent pi. clear dependent pt.
  intros pi pt Hpi Hpt. unfold pairs in Hpi, Hpt.
  apply lookup_zip_with_Some in Hpi. destruct Hpi as (? & d1i' & -> & _ & Hd1i').
  apply lookup_zip_with_Some in Hpt. destruct Hpt as (? & d1t' & -> & _ & Hd1t').
  rewrite Hd2i in Hd1i'. injection Hd1i' as <-.
  rewrite Hd2t in Hd1t'. injection Hd1t' as <-.
  cbn [Unsquish.bounds]. apply inflate_intersects.
  rewrite Hsb. exact (Hsep i d1i Hne Hd1i Hg1).
Qed.

(** C2, counterexample: the seed pushes two items to the same side; they
    end up on top of each other, inside a window that is large enough. *)
Lemma pushAway_same_generation_overlap :
  let page := Items.getSafeWindowBounds bigWindow in
  exists items' b c,
    pushAway 3 bigWindow threeOverlapping 0 = Some items' /\
    Item.bounds <$> items' !! 1%nat = Some b /\
    Item.bounds <$> items' !! 2%nat = Some c /\
    Rect.intersects b c = true /\
    forallb (fun it => withinPageb page (Item.bounds it)) items' = true.
Proof.
  vm_compute. do 3 eexists. split_and!; reflexivity.
Qed.


Lemma threeOverlapping_minSize :
  Forall (fun it => minSize (Item.bounds it)) threeOverlapping.
Proof.
  unfold threeOverlapping, minSize. repeat apply Forall_cons_2; try apply Forall_nil_2;
    cbn; split; discriminate.
Qed.

Lemma pushAway_clears_seed_witness :
  exists items' it s,
    pushAway 3 bigWindow threeOverlapping 0 = Some items' /\
    items' !! 1%nat = Some it /\ items' !! 0%nat = Some s /\
    Rect.intersects (Item.bounds it) (Item.bounds s) = false.
Proof.
  destruct (pushAway 3 bigWindow threeOverlapping 0) as [items'|] eqn:Hp;
    [|vm_compute in Hp; discriminate].
  destruct (propagate 3 threeOverlapping 0) as [ds1|] eqn:Hprop;
    [|vm_compute in Hprop; discriminate].
  destruct (items' !! 1%nat) as [it|] eqn:Hit;
    [|vm_compute in Hp; injection Hp as <-; discriminate].
  destruct (items' !! 0%nat) as [s|] eqn:Hs;
    [|vm_compute in Hp; injection Hp as <-; discriminate].
  destruct (Item.pushAwayData it) as [d|] eqn:Hd;
    [|vm_compute in Hp; injection Hp as <-; vm_compute in Hit; injection Hit as <-; discriminate].
  exists items', it, s. split_and!; [reflexivity|exact Hit|exact Hs|].
  apply (pushAway_clears_seed bigWindow threeOverlapping 0 3 ds1 items'
           threeOverlapping_minSize Hprop) with (i := 1%nat) (d := d); auto.
  - vm_compute in Hprop. injection Hprop as <-. reflexivity.
  - left. vm_compute in Hp. injection Hp as <-. vm_compute in Hit.
    injection Hit as <-. vm_compute in Hd. injection Hd as <-. reflexivity.
Defined.

Lemma pushEach_pushes_one_axis_witness :
  let base := Rect.mk 500 500 200 200 in
  let data := PushAwayData.mk (Rect.mk 650 520 200 150) (Rect.mk 650 520 200 150)
                              Gen.Infinity None in
  generation (fst (pushEach 0 (Gen.Fin 0) (inflate base) 1 data)) = Gen.Fin 1 /\
  Rect.intersects
    (inflate (bounds (fst (pushEach 0 (Gen.Fin 0) (inflate base) 1 data))))
    (inflate base) = false.
Proof.
  intros base data.
  assert (Hb : wholeRect base).
  { split_and!; [exists 500%Z|exists 500%Z|exists 200%Z|exists 200%Z]; reflexivity. }
  assert (Hd : wholeRect (bounds data)).
  { split_and!; [exists 650%Z|exists 520%Z|exists 200%Z|exists 150%Z]; reflexivity. }
  pose proof (pushEach_pushes_one_axis 0 1 0 base data
                ltac:(discriminate) eq_refl
                ltac:(vm_compute; reflexivity)) as H.
  cbv zeta in H. destruct H as ((_ & Hg & _) & H).
  destruct (H Hb Hd) as (_ & _ & Hsep & _).
  split; [exact Hg|exact Hsep].
Defined.

(** On whole numbers the binary64 computation is the exact one: the
    configuration of the instance above, pushed on binary64 numbers, ends
    edge to edge with the base, at left 714. *)
Lemma pushEach_double_whole_example :
  let bb := Double.inflate Double.wholeBase in
  let data' := fst (Double.pushEach 0 (Gen.Fin 0) bb 1 Double.wholeItem) in
  PrimFloat.eqb (Double.left (Double.inflate (Double.bounds data')))
                (Double.right bb) = true /\
  PrimFloat.eqb (Double.left (Double.bounds data')) Double.wholeLeft = true /\
  Double.intersects (Double.inflate (Double.bounds data')) bb = false.
Proof. vm_compute. split_and!; reflexivity. Qed.

(** C5, counterexample: on binary64 numbers, with bounds in thirds of a
    pixel, the base pushes the item to the right and the item's inflated
    box still begins left of the right edge of the base's inflated box:
    the two boxes intersect, they are not edge to edge. *)
Lemma pushEach_rounding_overlap :
  let bb := Double.inflate Double.thirdsBase in
  let data' := fst (Double.pushEach 0 (Gen.Fin 0) bb 1 Double.thirdsItem) in
  snd (Double.pushEach 0 (Gen.Fin 0) bb 1 Double.thirdsItem) = true /\
  Double.top (Double.bounds data') = Double.top (Double.bounds Double.thirdsItem) /\
  PrimFloat.ltb (Double.left (Double.inflate (Double.bounds data')))
                (Double.right bb) = true /\
  Double.intersects (Double.inflate (Double.bounds data')) bb = true.
Proof. vm_compute. split_and!; reflexivity. Qed.

Lemma pushAway_keeps_minimum_size_witness :
  exists items',
    pushAway 3 bigWindow threeOverlapping 0 = Some items' /\
    Forall (fun it => minSize (Item.bounds it)) items'.
Proof.
  destruct (pushAway_keeps_minimum_size bigWindow threeOverlapping 0
              ltac:(vm_compute; lia) threeOverlapping_minSize) as (_ & _ & H).
  destruct (pushAway 3 bigWindow threeOverlapping 0) as [items'|] eqn:Hp;
    [|vm_compute in Hp; discriminate].
  exists items'. split; [reflexivity|]. exact (proj2 (H 3%nat items' Hp)).
Defined.


(** ** Items.arrange *)

Import Arrange.

Lemma Qnat_pos (n : nat) : (1 <= n)%nat -> 0 < Qnat n.
Proof.
  intros H. unfold Qnat. change 0 with (inject_Z 0). rewrite <- Zlt_Qlt. lia.
Qed.

Lemma rows_le_1 (count : nat) (bounds : Rect.t) (m : Q) (columns : nat) :
  (1 <= columns)%nat -> (count <= columns)%nat ->
  (rows (figure count bounds m columns) <= 1)%nat.
Proof.
  intros Hc Hle. unfold figure. cbn [rows].
  assert (Hq : Qnat count / Qnat columns <= inject_Z 1).
  { apply Qle_shift_div_r; [now apply Qnat_pos|].
    unfold Qnat. rewrite <- inject_Z_mult, <- Zle_Qle. lia. }
  apply Qceiling_resp_le in Hq. rewrite Qceiling_Z in Hq. lia.
Qed.


Section EmitFacts.
Variable bounds : Rect.t.
Variable itemMargin : Q.
Variable rtl : bool.
Variable columns : nat.
Variable initialOffset : Q.






Lemma emitLoop_dropIndex_None (n a : nat) (e : Emit) :
  dropIndex (emitLoop bounds itemMargin rtl columns initialOffset None n a e)
  = dropIndex e.
Proof.
  revert a e. induction n as [|n IH]; intros a e; cbn [emitLoop].
  - reflexivity.
  - rewrite IH. unfold emitStep. now destruct (Nat.eqb _ _).
Qed.
End EmitFacts.


(** C7: [arrange] with count 6, bounds (0, 0, 600, 300), no items and no
    fixed column count returns a number of columns with
    [ceil(6 / columns) * columns >= 6] and six rectangles, each inside the
    bounds and at least the minimum item size; this for either reading
    direction and with or without a drop point. *)
Theorem arrange_six_in_600x300 (rtl : bool) (dp : option Point.t) :
  let bounds := Rect.mk 0 0 600 300 in
  exists rects di columns,
    arrange rtl None bounds (sixOptions dp) = Some (Arranged rects di (Some columns)) /\
    (6 <= Z.to_nat (Qceiling (6 / Qnat columns)) * columns)%nat /\
    length rects = 6%nat /\
    Forall (fun r => Rect.contains bounds r = true /\
                     Items.minItemWidth <= Rect.width r /\
                     Items.minItemHeight <= Rect.height r) rects.
Proof.
  intros bounds.
  assert (H : exists rects di,
             arrange rtl None bounds (sixOptions dp) = Some (Arranged rects di (Some 3%nat)) /\
             length rects = 6%nat /\ forallb (within_min bounds) rects = true).
  { destruct rtl; destruct dp as [p|]; vm_compute; eexists _, _; split_and!; reflexivity. }
  destruct H as (rects & di & Harr & Hlen & Hall).
  exists rects, di, 3%nat. split_and!; try assumption.
  - vm_compute. lia.
  - apply Forall_forall. intros r Hr. rewrite forallb_forall in Hall.
    apply list_elem_of_In in Hr. specialize (Hall r Hr). unfold within_min in Hall.
    rewrite !andb_true_iff, !Qleb_true in Hall. tauto.
Qed.


(** The same call also shows the value returned when nothing is hit. *)
Lemma arrange_dropIndex_false_example :
  exists rects columns,
    arrange false None (Rect.mk 0 0 600 300) (sixOptions (Some (Point.mk 700 10)))
    = Some (Arranged rects DropFalse columns).
Proof. vm_compute. do 2 eexists. reflexivity. Qed.


(** ** The registry *)

Section RegistryFacts.
Context {ItemRef : Type} `{EqDecision ItemRef} {Opts MRUList : Type}.
Variable MRU_remove : ItemRef -> MRUList -> MRUList.
Import Registry.

Local Abbreviation State := (@Registry.State ItemRef Opts MRUList).
Local Abbreviation Info := (@Registry.ArrangeInfo ItemRef Opts).

Lemma differs_same (it : ItemRef) : differs it it = false.
Proof. unfold differs. now rewrite bool_decide_eq_true_2. Qed.

Lemma differs_other (it x : ItemRef) : it <> x -> differs it x = true.
Proof. intros H. unfold differs. now rewrite bool_decide_eq_false_2. Qed.

Lemma filter_differs_id (it : ItemRef) (l : list ItemRef) :
  it ∉ l -> List.filter (differs it) l = l.
Proof.
  induction l as [|x l IH]; simpl; intros Hn; [reflexivity|].
  apply not_elem_of_cons in Hn. destruct Hn as [Hne Hn].
  rewrite differs_other by assumption. f_equal. now apply IH.
Qed.

(** On a list without duplicates, [indexOf] followed by [splice]
    removes every occurrence. *)
Lemma indexOf_splice (it : ItemRef) (l : list ItemRef) :
  NoDup l ->
  match indexOf it l with
  | Some index => delete index l
  | None => l
  end = List.filter (differs it) l.
Proof.
  induction 1 as [|x l Hx Hnd IH]; simpl; [reflexivity|].
  destruct (decide (x = it)) as [->|Hne].
  - rewrite differs_same. simpl. symmetry. now apply filter_differs_id.
  - rewrite differs_other by congruence. rewrite <- IH.
    now destruct (indexOf it l).
Qed.

Lemma indexOf_None (it : ItemRef) (l : list ItemRef) :
  indexOf it l = None -> it ∉ l.
Proof.
  induction l as [|x l IH]; simpl; intros H.
  - apply not_elem_of_nil.
  - destruct (decide (x = it)); [discriminate|].
    destruct (indexOf it l); [discriminate|].
    apply not_elem_of_cons. split; [congruence|now apply IH].
Qed.

(** [register], under its assertion, keeps the list free of duplicates. *)
Lemma register_NoDup (it : ItemRef) (s : State) :
  register_pre it s -> NoDup (items s) -> NoDup (items (register it s)).
Proof.
  unfold register_pre; simpl. intros Hpre Hnd.
  apply indexOf_None in Hpre.
  apply (proj2 (NoDup_app _ _)). split_and!.
  - assumption.
  - intros x Hx Hx'. apply list_elem_of_singleton in Hx'. congruence.
  - apply NoDup_singleton.
Qed.

(** C10: after [unregister(item)] the item is in none of the items
    list, the pending-arrange queue and the active-item pointer, and
    everything else is as before: the other items and the other pending
    entries, in their order, the active item when it is another one, and
    the pause flag.  The items list has no duplicates, which is what the
    assertion of [register] maintains. *)
Theorem unregister_no_dangling (it : ItemRef) (s : State) :
  NoDup (items s) ->
  let s' := unregister MRU_remove it s in
  ((it ∉ items s') /\
   (forall g, g ∈ _arrangesPending s' -> item g <> it) /\
   (_activeItem s = Some it -> _activeItem s' = None)) /\
  (items s' = List.filter (differs it) (items s) /\
   _arrangesPending s' =
     List.filter (fun g => differs it (item g)) (_arrangesPending s) /\
   (_activeItem s <> Some it -> _activeItem s' = _activeItem s) /\
   _arrangePaused s' = _arrangePaused s).
Proof.
  intros Hnd s'.
  assert (Hitems : items s' = List.filter (differs it) (items s)).
  { subst s'; simpl. now apply indexOf_splice. }
  assert (Hpend : _arrangesPending s' =
     List.filter (fun g => differs it (item g)) (_arrangesPending s)).
  { reflexivity. }
  split; [split_and!|split_and!]; try assumption.
  - rewrite Hitems, list_elem_of_In, filter_In, differs_same.
    intros [_ ?]; discriminate.
  - intros g. rewrite Hpend, list_elem_of_In, filter_In. intros [_ Hg] Heq.
    rewrite Heq, differs_same in Hg. discriminate.
  - intros Ha. subst s'; simpl. rewrite decide_True; congruence.
  - intros Ha. subst s'; simpl. rewrite decide_False; congruence.
  - reflexivity.
Qed.

End RegistryFacts.

Lemma unregister_no_dangling_witness :
  let s' := Registry.unregister removeFromList 2%nat smallRegistry in
  NoDup (Registry.items smallRegistry) /\
  (2%nat ∉ Registry.items s') /\ Registry._activeItem s' = None.
Proof.
  assert (Hnd : NoDup (Registry.items smallRegistry)).
  { simpl. apply NoDup_cons_2; [|apply NoDup_singleton].
    intros H. apply list_elem_of_singleton in H. discriminate H. }
  destruct (unregister_no_dangling removeFromList 2%nat smallRegistry Hnd)
    as ((H1 & _ & H3) & _).
  split_and!; [exact Hnd|exact H1|exact (H3 eq_refl)].
Defined.
Section ArrangeQueueFacts.
Context {ItemRef : Type} `{EqDecision ItemRef} {Opts MRUList : Type}.
Import Registry.

Local Abbreviation State := (@Registry.State ItemRef Opts MRUList).
Local Abbreviation Info := (@Registry.ArrangeInfo ItemRef Opts).

Lemma findPending_absent (it : ItemRef) (l : list Info) (i0 : nat) :
  it ∉ map item l -> findPending it i0 l = (i0 + length l)%nat.
Proof.
  revert i0. induction l as [|g l IH]; intros i0 Hn; simpl.
  - lia.
  - simpl in Hn. rewrite not_elem_of_cons in Hn. destruct Hn as [Hne Hn].
    rewrite decide_False by congruence. rewrite IH by assumption. lia.
Qed.

Lemma findPending_first (it : ItemRef) (l1 l2 : list Info) (g : Info) (i0 : nat) :
  it ∉ map item l1 -> item g = it ->
  findPending it i0 (l1 ++ g :: l2) = (i0 + length l1)%nat.
Proof.
  revert i0. induction l1 as [|h l1 IH]; intros i0 Hn Hg; simpl.
  - rewrite decide_True by assumption. lia.
  - simpl in Hn. rewrite not_elem_of_cons in Hn. destruct Hn as [Hne Hn].
    rewrite decide_False by congruence. rewrite IH by assumption. lia.
Qed.

Lemma pushArrange_absent (it : ItemRef) (o : Opts) (s : State) :
  it ∉ map item (_arrangesPending s) ->
  _arrangesPending (pushArrange it o s) =
  _arrangesPending s ++ [{| item := it; options := o |}].
Proof.
  intros Hn. simpl. rewrite findPending_absent by assumption. simpl.
  now rewrite Nat.ltb_irrefl.
Qed.

Lemma pushArrange_present (it : ItemRef) (o : Opts) (s : State)
    (l1 l2 : list Info) (g : Info) :
  _arrangesPending s = l1 ++ g :: l2 ->
  it ∉ map item l1 -> item g = it ->
  _arrangesPending (pushArrange it o s) =
  l1 ++ {| item := it; options := o |} :: l2.
Proof.
  intros Hs Hn Hg. simpl. rewrite Hs, findPending_first by assumption. simpl.
  rewrite length_app. simpl.
  destruct (Nat.ltb_spec (length l1) (length l1 + S (length l2))) as [_|Hge]; [|lia].
  rewrite insert_app_r_alt by lia. now rewrite Nat.sub_diag.
Qed.

Lemma elem_of_map_item_split (it : ItemRef) (l : list Info) :
  it ∈ map item l ->
  exists l1 g l2, l = l1 ++ g :: l2 /\ (it ∉ map item l1) /\ item g = it.
Proof.
  induction l as [|h l IH]; simpl; intros Hin.
  - now apply elem_of_nil in Hin.
  - destruct (decide (item h = it)) as [Heq|Hne].
    + exists [], h, l. split_and!; [reflexivity| apply not_elem_of_nil |assumption].
    + apply elem_of_cons in Hin. destruct Hin as [Hin|Hin]; [congruence|].
      destruct (IH Hin) as (l1 & g & l2 & Hl & Hn & Hg). subst l.
      exists (h :: l1), g, l2. split_and!; [reflexivity| |assumption].
      simpl. rewrite not_elem_of_cons. split; congruence.
Qed.

(** The items of the pending list after one [pushArrange]. *)
Lemma pushArrange_items (it : ItemRef) (o : Opts) (s : State) :
  map item (_arrangesPending (pushArrange it o s)) =
  if decide (it ∈ map item (_arrangesPending s))
  then map item (_arrangesPending s)
  else map item (_arrangesPending s) ++ [it].
Proof.
  destruct (decide (it ∈ map item (_arrangesPending s))) as [Hin|Hn].
  - destruct (elem_of_map_item_split _ _ Hin) as (l1 & g & l2 & Hs & Hn & Hg).
    rewrite (pushArrange_present it o s l1 l2 g Hs Hn Hg), Hs.
    rewrite !map_app. simpl. now rewrite Hg.
  - rewrite pushArrange_absent by assumption. now rewrite map_app.
Qed.

Lemma pushArrange_NoDup (it : ItemRef) (o : Opts) (s : State) :
  NoDup (map item (_arrangesPending s)) ->
  NoDup (map item (_arrangesPending (pushArrange it o s))).
Proof.
  intros Hnd. rewrite pushArrange_items. case_decide; [assumption|].
  apply (proj2 (NoDup_app _ _)). split_and!; [assumption| |apply NoDup_singleton].
  intros x Hx Hx'. apply list_elem_of_singleton in Hx'. congruence.
Qed.

Lemma pushArrange_entry (it : ItemRef) (o : Opts) (s : State) :
  {| item := it; options := o |} ∈ _arrangesPending (pushArrange it o s).
Proof.
  destruct (decide (it ∈ map item (_arrangesPending s))) as [Hin|Hn].
  - destruct (elem_of_map_item_split _ _ Hin) as (l1 & g & l2 & Hs & Hn & Hg).
    rewrite (pushArrange_present it o s l1 l2 g Hs Hn Hg).
    rewrite elem_of_app, elem_of_cons. auto.
  - rewrite pushArrange_absent by assumption.
    rewrite elem_of_app, list_elem_of_singleton. auto.
Qed.

Lemma pushArrange_others (it : ItemRef) (o : Opts) (s : State) (g : Info) :
  item g <> it ->
  g ∈ _arrangesPending s -> g ∈ _arrangesPending (pushArrange it o s).
Proof.
  intros Hne Hg.
  destruct (decide (it ∈ map item (_arrangesPending s))) as [Hin|Hn].
  - destruct (elem_of_map_item_split _ _ Hin) as (l1 & h & l2 & Hs & Hn & Hh).
    rewrite (pushArrange_present it o s l1 l2 h Hs Hn Hh).
    rewrite Hs in Hg. rewrite elem_of_app, elem_of_cons in Hg.
    rewrite elem_of_app, elem_of_cons.
    destruct Hg as [?|[->|?]]; auto. congruence.
  - rewrite pushArrange_absent by assumption. rewrite elem_of_app. auto.
Qed.

Lemma pushArranges_app (c1 c2 : list (ItemRef * Opts)) (s : State) :
  pushArranges (c1 ++ c2) s = pushArranges c2 (pushArranges c1 s).
Proof. apply fold_left_app. Qed.

Lemma pushArranges_NoDup (calls : list (ItemRef * Opts)) (s : State) :
  NoDup (map item (_arrangesPending s)) ->
  NoDup (map item (_arrangesPending (pushArranges calls s))).
Proof.
  revert s. induction calls as [|[it o] calls IH]; intros s Hnd; simpl.
  - assumption.
  - apply IH. now apply pushArrange_NoDup.
Qed.

Lemma pushArranges_prefix (calls : list (ItemRef * Opts)) (s : State) :
  map item (_arrangesPending s) `prefix_of`
  map item (_arrangesPending (pushArranges calls s)).
Proof.
  revert s. induction calls as [|[it o] calls IH]; intros s; simpl.
  - reflexivity.
  - etransitivity; [|apply IH]. rewrite pushArrange_items.
    case_decide; [reflexivity|]. now apply prefix_app_r.
Qed.

Lemma pushArranges_others (calls : list (ItemRef * Opts)) (s : State) (g : Info) :
  item g ∉ map fst calls ->
  g ∈ _arrangesPending s -> g ∈ _arrangesPending (pushArranges calls s).
Proof.
  revert s. induction calls as [|[it o] calls IH]; intros s Hn Hg; simpl.
  - assumption.
  - simpl in Hn. rewrite not_elem_of_cons in Hn. destruct Hn as [Hne Hn].
    apply IH; [assumption|]. now apply pushArrange_others.
Qed.

Lemma pushArranges_items (calls : list (ItemRef * Opts)) (s : State) (it : ItemRef) :
  it ∈ map item (_arrangesPending (pushArranges calls s)) <->
  it ∈ map item (_arrangesPending s) \/ it ∈ map fst calls.
Proof.
  revert s. induction calls as [|[it' o] calls IH]; intros s; simpl.
  - rewrite elem_of_nil. tauto.
  - rewrite IH, pushArrange_items, elem_of_cons. case_decide as Hin.
    + split; [tauto|]. intros [?|[->|?]]; auto.
    + rewrite elem_of_app, list_elem_of_singleton. tauto.
Qed.

(** C9: starting from the empty pending list that [pauseArrange]
    asserts, after any series of [pushArrange] calls the pending list
    holds one entry per item pushed and no item twice; pushing an item
    that is already pending replaces its entry where it stands; the
    entry of an item carries the options of its last push; the items of
    the pending list after a first part of the calls are a prefix of the
    items at the end, so entries stay in the order of first insertion;
    and [resumeArrange] replays exactly the pending list, in order, and
    leaves it empty. *)
Theorem pushArrange_coalesces (calls : list (ItemRef * Opts)) (s : State) :
  _arrangesPending s = [] ->
  let s' := pushArranges calls s in
  (NoDup (map item (_arrangesPending s')) /\
   (forall it, it ∈ map item (_arrangesPending s') <-> it ∈ map fst calls)) /\
  (forall it o l1 g l2,
      _arrangesPending s' = l1 ++ g :: l2 -> item g = it ->
      _arrangesPending (pushArrange it o s') =
      l1 ++ {| item := it; options := o |} :: l2) /\
  (forall c1 it o c2,
      calls = c1 ++ (it, o) :: c2 -> it ∉ map fst c2 ->
      {| item := it; options := o |} ∈ _arrangesPending s') /\
  (forall c1 c2,
      calls = c1 ++ c2 ->
      map item (_arrangesPending (pushArranges c1 s)) `prefix_of`
      map item (_arrangesPending s')) /\
  (fst (resumeArrange s') = _arrangesPending s' /\
   _arrangesPending (snd (resumeArrange s')) = []).
Proof.
  intros Hs s'.
  assert (Hnd : NoDup (map item (_arrangesPending s'))).
  { apply pushArranges_NoDup. rewrite Hs. apply NoDup_nil_2. }
  split_and!.
  - assumption.
  - intros it. subst s'. rewrite pushArranges_items, Hs. simpl.
    rewrite elem_of_nil. tauto.
  - intros it o l1 g l2 Hl Hg. apply (pushArrange_present it o s' l1 l2 g Hl); [|assumption].
    rewrite Hl, map_app in Hnd. simpl in Hnd.
    apply NoDup_app in Hnd. destruct Hnd as (_ & Hdisj & _).
    intros Hin. apply (Hdisj _ Hin). rewrite Hg. apply elem_of_cons. auto.
  - intros c1 it o c2 -> Hn. subst s'.
    rewrite pushArranges_app. simpl.
    apply pushArranges_others; [assumption|]. apply pushArrange_entry.
  - intros c1 c2 ->. subst s'. rewrite pushArranges_app. apply pushArranges_prefix.
  - reflexivity.
  - reflexivity.
Qed.

End ArrangeQueueFacts.

Lemma pushArrange_coalesces_witness :
  let s' := Registry.pushArranges threeCalls smallRegistry in
  Registry._arrangesPending smallRegistry = [] /\
  NoDup (map Registry.item (Registry._arrangesPending s')) /\
  fst (Registry.resumeArrange s') = Registry._arrangesPending s'.
Proof.
  destruct (pushArrange_coalesces threeCalls smallRegistry eq_refl)
    as ((H1 & _) & _ & _ & _ & H5 & _).
  split_and!; [reflexivity|exact H1|exact H5].
Defined.

(** * Further properties of the code *)

(** ** Further properties of Items.arrange *)

Lemma Qnat_succ (n : nat) : Qnat (S n) == Qnat n + 1.
Proof.
  unfold Qnat. rewrite Nat2Z.inj_succ. unfold Z.succ.
  rewrite inject_Z_plus. reflexivity.
Qed.

Lemma Qnat_zero : Qnat 0 == 0.
Proof. reflexivity. Qed.

Lemma Qnat_le (a b : nat) : (a <= b)%nat -> Qnat a <= Qnat b.
Proof. intros H. unfold Qnat. rewrite <- Zle_Qle. lia. Qed.

Lemma Qnat_lt (a b : nat) : (a < b)%nat -> Qnat a + 1 <= Qnat b.
Proof.
  intros H. rewrite <- Qnat_succ. apply Qnat_le. lia.
Qed.

Lemma succ_divmod (c a : nat) :
  (1 <= c)%nat ->
  if Nat.eqb (S (a mod c)) c
  then (S a / c = S (a / c) /\ S a mod c = 0)%nat
  else (S a / c = a / c /\ S a mod c = S (a mod c))%nat.
Proof.
  intros Hc. pose proof (Nat.div_mod_eq a c) as Hdm.
  pose proof (Nat.mod_upper_bound a c ltac:(lia)) as Hub.
  destruct (Nat.eqb_spec (S (a mod c)) c) as [E|E].
  - assert (H : (S a = c * S (a / c) + 0)%nat) by nia.
    split; [symmetry; eapply Nat.div_unique; [|exact H]; lia|].
    symmetry. eapply Nat.mod_unique; [|exact H]. lia.
  - assert (H : (S a = c * (a / c) + S (a mod c))%nat) by lia.
    split; [symmetry; eapply Nat.div_unique; [|exact H]; lia|].
    symmetry. eapply Nat.mod_unique; [|exact H]. lia.
Qed.

Lemma figureLoop_first_fit (count : nat) (bounds : Rect.t) (m : Q)
    (fuel c0 : nat) :
  (1 <= c0)%nat -> (count <= fuel + c0)%nat ->
  exists c,
    figureLoop count bounds m fuel c0 = Some (c, figure count bounds m c) /\
    (c0 <= c)%nat /\ (c <= Nat.max c0 count)%nat /\ fits count bounds m c /\
    forall c', (c0 <= c')%nat -> (c' < c)%nat -> ~ fits count bounds m c'.
Proof.
  revert c0. induction fuel as [|fuel IH]; intros c0 Hc Hle.
  - cbn [figureLoop].
    assert (Hr := rows_le_1 count bounds m c0 Hc ltac:(lia)).
    destruct (Nat.ltb_spec 1 (rows (figure count bounds m c0))); [lia|].
    cbn [andb]. exists c0. split_and!; [reflexivity|lia|lia|now left|intros; lia].
  - cbn [figureLoop].
    destruct (Nat.ltb_spec 1 (rows (figure count bounds m c0))) as [Hrows|Hrows];
      cbn [andb].
    + destruct (Qgtb _ _) eqn:Hgt.
      * apply Qltb_true in Hgt.
        assert (Hlt : (c0 < count)%nat).
        { destruct (Nat.lt_ge_cases c0 count) as [|Hge]; [assumption|].
          pose proof (rows_le_1 count bounds m c0 Hc Hge). lia. }
        destruct (IH (S c0)) as (c & H1 & H2 & H3 & H4 & H5); [lia|lia|].
        exists c. split_and!; [assumption|lia|lia|assumption|].
        intros c' Hc' Hc'c. destruct (Nat.eq_dec c' c0) as [->|Hne].
        -- intros [Hf|Hf]; [lia|lra].
        -- apply H5; lia.
      * apply Qltb_false in Hgt. exists c0.
        split_and!; [reflexivity|lia|lia|now right|intros; lia].
    + exists c0. split_and!; [reflexivity|lia|lia|now left|intros; lia].
Qed.

Lemma orElse_pos (o : option nat) : (1 <= orElse o 1)%nat.
Proof. unfold orElse. destruct o as [[|?]|]; lia. Qed.

(** X1: for at least one item [arrange] returns, and the number of
    columns of its result is the first one, counting up from
    [options.columns] (or 1), with which the grid has a single row or is
    not higher than the bounds; it is never more than the larger of that
    starting number and the item count. *)
Theorem arrange_columns_first_fit (rtl : bool) (items : option (list ArrItem))
    (bounds : Rect.t) (options : Options) :
  (1 <= itemCount items options)%nat ->
  let count := itemCount items options in
  let m := itemMarginOf items in
  let c0 := orElse (columns options) 1%nat in
  exists r c,
    arrange rtl items bounds options = Some r /\
    resultColumns r = Some c /\
    (c0 <= c)%nat /\ (c <= Nat.max c0 count)%nat /\
    fits count bounds m c /\
    forall c', (c0 <= c')%nat -> (c' < c)%nat -> ~ fits count bounds m c'.
Proof.
  intros Hcount count m c0. unfold arrange. fold count m c0.
  destruct count as [|n] eqn:Ec; [lia|]. rewrite <- Ec.
  destruct (figureLoop_first_fit count bounds m count c0 (orElse_pos _) ltac:(lia))
    as (c & -> & H2 & H3 & H4 & H5).
  destruct (if Nat.eqb (rows _) 1 then _ else _) as [tw th].
  destruct (returnWidthAndColumns options); eexists _, c;
    (split; [reflexivity|]); cbn [resultColumns]; auto.
Qed.
Lemma emitInv_step bounds itemMargin rtl columns initialOffset w h
    (dropRect : option Rect.t) (a : nat) (e : Emit) :
  (1 <= columns)%nat ->
  emitInv bounds itemMargin rtl columns initialOffset w h a e ->
  emitInv bounds itemMargin rtl columns initialOffset w h (S a)
    (emitStep bounds itemMargin rtl columns initialOffset dropRect a e).
Proof.
  intros columns_pos (Hlen & Hcol & (Hl & Ht & Hw & Hh) & Hrects).
  pose proof (succ_divmod columns a columns_pos) as Hsd.
  assert (Hnew : forall k r, (rects e ++ [box e]) !! k = Some r ->
            cellAt (Rect.left bounds + initialOffset) (Rect.top bounds) w h
                   (padding itemMargin) (gridDir rtl) columns k r).
  { intros k r Hk. apply lookup_app_Some in Hk.
    destruct Hk as [Hk|[Hge Hk]]; [now apply Hrects|].
    rewrite Hlen in *. destruct (k - a)%nat as [|?] eqn:E; [|discriminate].
    injection Hk as <-. assert (k = a) by lia. subst k.
    unfold cellAt. auto. }
  assert (Hlen' : length (rects e ++ [box e]) = S a).
  { rewrite length_app. simpl. lia. }
  unfold emitInv, emitStep, cellAt. rewrite Hcol.
  destruct (Nat.eqb (S (a mod columns)) columns); destruct Hsd as [Hd Hm];
    cbn [rects column box]; rewrite Hd, Hm; proj_simpl.
  - split_and!; try assumption; try reflexivity.
    + rewrite Qnat_zero. ring.
    + rewrite Ht, Qnat_succ, Hh. ring.
  - split_and!; try assumption; try reflexivity.
    rewrite Hl, Qnat_succ, Hw. unfold gridDir. destruct rtl; ring.
Qed.

Lemma emitInv_loop bounds itemMargin rtl columns initialOffset w h
    (dropRect : option Rect.t) (n a : nat) (e : Emit) :
  (1 <= columns)%nat ->
  emitInv bounds itemMargin rtl columns initialOffset w h a e ->
  emitInv bounds itemMargin rtl columns initialOffset w h (a + n)
    (emitLoop bounds itemMargin rtl columns initialOffset dropRect n a e).
Proof.
  intros Hc. revert a e. induction n as [|n IH]; intros a e Hinv; cbn [emitLoop].
  - now rewrite Nat.add_0_r.
  - replace (a + S n)%nat with (S a + n)%nat by lia.
    apply IH. now apply emitInv_step.
Qed.

Lemma arrange_withReturn rtl items bounds options :
  arrange rtl items bounds options
  = arrange rtl items bounds (withReturn (returnWidthAndColumns options) options).
Proof. now destruct options. Qed.

(** The layout [arrange] computes, in both forms in which it returns it. *)
Lemma arrange_layout (rtl : bool) (items : option (list ArrItem))
    (bounds : Rect.t) (options : Options) :
  (1 <= itemCount items options)%nat ->
  let m := itemMarginOf items in
  exists c tw th,
    (1 <= c)%nat /\ Items.minItemWidth <= tw /\ Items.minItemHeight <= th /\
    arrange rtl items bounds (withReturn true options)
    = Some (WidthAndColumns tw c) /\
    exists rects di,
      arrange rtl items bounds (withReturn false options)
      = Some (Arranged rects di (Some c)) /\
      length rects = itemCount items options /\
      forall a r, rects !! a = Some r ->
        cellAt (Rect.left bounds + gridOffset rtl bounds m tw) (Rect.top bounds)
               tw th (padding m) (gridDir rtl) c a r.
Proof.
  intros Hcount m. unfold arrange.
  change (itemCount items (withReturn true options)) with (itemCount items options).
  change (itemCount items (withReturn false options)) with (itemCount items options).
  cbn [columns withReturn returnWidthAndColumns].
  destruct (itemCount items options) as [|n] eqn:Ec; [lia|]. fold m.
  destruct (figureLoop_first_fit (S n) bounds m (S n) (orElse (columns options) 1)
              (orElse_pos _) ltac:(lia)) as (c & -> & Hc0 & _).
  pose proof (orElse_pos (columns options)) as Hpos.
  set (f := figure (S n) bounds m c).
  assert (Hsize : exists tw th,
            (if Nat.eqb (rows f) 1
             then (Point.x (Items.calcValidSize
                     (Point.mk (tabWidth f) (Rect.height bounds - 2 * m))),
                   Point.y (Items.calcValidSize
                     (Point.mk (tabWidth f) (Rect.height bounds - 2 * m))))
             else (tabWidth f, tabHeight f)) = (tw, th) /\
            Items.minItemWidth <= tw /\ Items.minItemHeight <= th).
  { destruct (Nat.eqb (rows f) 1).
    - eexists _, _. split; [reflexivity|]. apply calcValidSize_min.
    - eexists _, _. split; [reflexivity|]. unfold f, figure. cbn [tabWidth tabHeight].
      apply calcValidSize_min. }
  destruct Hsize as (tw & th & -> & Hw & Hh).
  exists c, tw, th. split_and!; [lia|assumption|assumption|reflexivity|].
  fold (gridOffset rtl bounds m tw).
  set (e0 := {| box := _; column := _; dropIndex := DropFalse; rects := [] |}).
  pose proof (emitInv_loop bounds m rtl c (gridOffset rtl bounds m tw) tw th
                (dropRectOf (withReturn false options)) (S n) 0 e0 ltac:(lia)) as Hinv.
  destruct Hinv as (Hlen & _ & _ & Hcells).
  { unfold emitInv, e0, cellAt. cbn [rects column box]. proj_simpl.
    rewrite Nat.Div0.mod_0_l, Nat.Div0.div_0_l.
    split_and!; try reflexivity.
    - rewrite Qnat_zero. ring.
    - rewrite Qnat_zero. ring.
    - intros k r Hk. discriminate. }
  eexists _, _. split; [reflexivity|]. split; [exact Hlen|exact Hcells].
Qed.



(** X2: for at least one item [arrange] gives exactly [count]
    rectangles, all of one width and one height, both at least the
    minimum item size; called with [return: 'widthAndColumns'] it gives
    that width and the same number of columns. *)
Theorem arrange_cells_uniform (rtl : bool) (items : option (list ArrItem))
    (bounds : Rect.t) (options : Options) :
  (1 <= itemCount items options)%nat ->
  exists rects di c w h,
    arrange rtl items bounds (withReturn false options)
    = Some (Arranged rects di (Some c)) /\
    arrange rtl items bounds (withReturn true options)
    = Some (WidthAndColumns w c) /\
    length rects = itemCount items options /\
    Items.minItemWidth <= w /\ Items.minItemHeight <= h /\
    Forall (fun r => Rect.width r = w /\ Rect.height r = h) rects.
Proof.
  intros Hcount.
  destruct (arrange_layout rtl items bounds options Hcount)
    as (c & tw & th & _ & Hw & Hh & Hwc & rects & di & Harr & Hlen & Hcells).
  exists rects, di, c, tw, th. split_and!; try assumption.
  apply Forall_lookup. intros a r Hr.
  destruct (Hcells a r Hr) as (_ & _ & ? & ?). auto.
Qed.

(** X3: for bounds at whole-number coordinates, the rectangle of index
    [a] of an arrangement stands in row [a / columns] of a grid whose
    vertical step is the cell height plus twice the item margin; when
    the cell width is a whole number too, it stands in column [a mod
    columns], the horizontal step being the cell width plus twice the
    item margin, and a row is filled from the left edge of the bounds,
    or in a right-to-left UI from the right edge towards the left. *)
Theorem arrange_cells_on_grid (rtl : bool) (items : option (list ArrItem))
    (bounds : Rect.t) (options : Options) :
  (1 <= itemCount items options)%nat ->
  returnWidthAndColumns options = false ->
  wholeRect bounds ->
  let m := itemMarginOf items in
  exists rects di c w h,
    arrange rtl items bounds options = Some (Arranged rects di (Some c)) /\
    (1 <= c)%nat /\
    forall a r, rects !! a = Some r ->
      Rect.width r = w /\ Rect.height r = h /\
      (whole w ->
       Rect.left r == Rect.left bounds + gridOffset rtl bounds m w
                      + gridDir rtl * Qnat (a mod c) * (w + m * 2)) /\
      Rect.top r == Rect.top bounds + Qnat (a / c) * (h + m * 2).
Proof.
  intros Hcount Hret _ m. rewrite arrange_withReturn, Hret.
  destruct (arrange_layout rtl items bounds options Hcount)
    as (c & tw & th & Hc & _ & _ & _ & rects & di & Harr & _ & Hcells).
  exists rects, di, c, tw, th. split_and!; try assumption.
  intros a r Hr. destruct (Hcells a r Hr) as (Hl & Ht & ? & ?).
  fold m in Hl, Ht. unfold padding in Hl, Ht. auto.
Qed.


(** X5: without a drop position the drop index of [arrange] is never a
    number: it is [null] for an empty arrangement and [false] otherwise. *)
Theorem arrange_dropIndex_without_dropPos (rtl : bool)
    (items : option (list ArrItem)) (bounds : Rect.t) (options : Options) :
  dropPos options = None ->
  returnWidthAndColumns options = false ->
  exists rects c,
    arrange rtl items bounds options
    = Some (Arranged rects
              (if Nat.eqb (itemCount items options) 0 then DropNull else DropFalse)
              c).
Proof.
  intros Hdp Hret. unfold arrange.
  destruct (itemCount items options) as [|n] eqn:Ec.
  - rewrite Hdp. cbn [Nat.eqb]. eauto.
  - destruct (figureLoop_first_fit (S n) bounds (itemMarginOf items) (S n)
                (orElse (columns options) 1) (orElse_pos _) ltac:(lia))
      as (c & -> & _).
    destruct (if Nat.eqb (rows _) 1 then _ else _) as [tw th].
    rewrite Hret. unfold dropRectOf. rewrite Hdp.
    rewrite emitLoop_dropIndex_None. cbn [dropIndex Nat.eqb]. eauto.
Qed.
(** ** Item.setBounds, setPosition, setSize *)

Lemma setBounds_cases (this : Item.t) (r : Rect.t) :
  let rect := Rect.mk (Rect.left r) (Rect.top r)
                      (Qmax (Rect.width r) Items.minItemWidth)
                      (Qmax (Rect.height r) Items.minItemHeight) in
  (Item.setBounds this r = this /\ Rect.eq (Item.bounds this) rect) \/
  (Item.setBounds this r = Item.set_bounds this rect /\
   ~ Rect.eq (Item.bounds this) rect).
Proof.
  intros rect. unfold Item.setBounds, Items.calcValidSize. proj_simpl.
  fold rect. destruct (_ && _) eqn:E.
  - left. split; [reflexivity|]. rewrite !andb_true_iff, !Qeq_bool_iff in E.
    unfold Rect.eq. destruct E as (((E1 & E2) & E3) & E4).
    split_and!; symmetry; assumption.
  - right. split; [reflexivity|]. intros (E1 & E2 & E3 & E4).
    rewrite !andb_false_iff, !Qeq_bool_false in E.
    destruct E as [[[E|E]|E]|E]; apply E; symmetry; assumption.
Qed.

Lemma Rect_eq_refl (r : Rect.t) : Rect.eq r r.
Proof. unfold Rect.eq. split_and!; reflexivity. Qed.

Lemma setBounds_bounds (this : Item.t) (r : Rect.t) :
  Rect.eq (Item.bounds (Item.setBounds this r))
          (Rect.mk (Rect.left r) (Rect.top r)
                   (Qmax (Rect.width r) Items.minItemWidth)
                   (Qmax (Rect.height r) Items.minItemHeight)).
Proof.
  destruct (setBounds_cases this r) as [(-> & He)|(-> & _)];
    [assumption|apply Rect_eq_refl].
Qed.

(** X6: after [setBounds(r)] the item is at least as large as the
    minimum item size and its bounds are, numerically, [r] with the
    width and the height raised to the minimum; the user size and the
    push-away data of the item are not touched. *)
Theorem setBounds_conforms (this : Item.t) (r : Rect.t) :
  let it := Item.setBounds this r in
  minSize (Item.bounds it) /\
  Rect.eq (Item.bounds it)
          (Rect.mk (Rect.left r) (Rect.top r)
                   (Qmax (Rect.width r) Items.minItemWidth)
                   (Qmax (Rect.height r) Items.minItemHeight)) /\
  Item.userSize it = Item.userSize this /\
  Item.pushAwayData it = Item.pushAwayData this.
Proof.
  intros it. subst it.
  assert (Hm : forall a b, b <= Qmax a b) by (intros; apply Qmax_ge_r).
  destruct (setBounds_cases this r) as [(-> & He)|(-> & _)].
  - split_and!; [|assumption|reflexivity|reflexivity].
    destruct He as (_ & _ & Hw & Hh). unfold minSize. rewrite Hw, Hh. proj_simpl.
    split; apply Hm.
  - cbn [Item.set_bounds Item.bounds Item.userSize Item.pushAwayData].
    split_and!; try reflexivity.
    + unfold minSize. proj_simpl. split; apply Hm.
    + unfold Rect.eq. split_and!; reflexivity.
Qed.

(** X7: [setBounds] with the same rectangle a second time changes
    nothing. *)
Theorem setBounds_idempotent (this : Item.t) (r : Rect.t) :
  Item.setBounds (Item.setBounds this r) r = Item.setBounds this r.
Proof.
  destruct (setBounds_cases this r) as [(E & He)|(E & _)]; rewrite E.
  - exact E.
  - destruct (setBounds_cases (Item.set_bounds this
        (Rect.mk (Rect.left r) (Rect.top r)
                 (Qmax (Rect.width r) Items.minItemWidth)
                 (Qmax (Rect.height r) Items.minItemHeight))) r)
      as [(E' & _)|(_ & Hne)]; [exact E'|].
    exfalso. apply Hne. apply Rect_eq_refl.
Qed.

(** X8: on an item of at least the minimum size [setPosition] moves the
    item and keeps its size, and [setSize] keeps the position and gives
    the requested size raised to the minimum. *)
Theorem setPosition_setSize (this : Item.t) (left top width height : Q) :
  minSize (Item.bounds this) ->
  Rect.eq (Item.bounds (ItemOps.setPosition this left top))
          (Rect.mk left top (Rect.width (Item.bounds this))
                   (Rect.height (Item.bounds this))) /\
  Rect.eq (Item.bounds (ItemOps.setSize this width height))
          (Rect.mk (Rect.left (Item.bounds this)) (Rect.top (Item.bounds this))
                   (Qmax width Items.minItemWidth)
                   (Qmax height Items.minItemHeight)).
Proof.
  intros [Hw Hh]. split.
  - unfold ItemOps.setPosition.
    pose proof (setBounds_bounds this
                (Rect.mk left top (Rect.width (Item.bounds this))
                         (Rect.height (Item.bounds this)))) as He.
    proj_simpl. rewrite (Qmax_left _ _ Hw), (Qmax_left _ _ Hh) in He. exact He.
  - unfold ItemOps.setSize. apply setBounds_bounds.
Qed.
(** ** Further properties of Items.unsquish *)

Lemma grownFrom_step page pairs ps k :
  grownFrom pairs ps -> grownFrom pairs (Unsquish.unsquishPair page k ps).
Proof.
  intros [Hlen Hg].
  destruct (unsquishPair_cases page k ps) as [->|(pr & Hpr & _ & _ & ->)];
    [now split|].
  split; [now rewrite length_insert|].
  intros i p p' Hp Hp'. apply list_lookup_insert_Some in Hp'.
  destruct Hp' as [(-> & <- & _)|(_ & Hp')]; [|exact (Hg i p p' Hp Hp')].
  destruct (Hg i p pr Hp Hpr) as (Hi & Hw & Hh).
  destruct (target_size page pr) as [Hw' Hh'].
  cbn [Unsquish.item Unsquish.bounds]. split_and!; [assumption|lra|lra].
Qed.

Lemma unsquish_grownFrom page pairs :
  grownFrom pairs (Unsquish.unsquish page pairs).
Proof.
  apply unsquish_invariant.
  - split; [reflexivity|]. intros i p p' Hp Hp'. rewrite Hp in Hp'.
    injection Hp' as <-. split_and!; [reflexivity|lra|lra].
  - intros k ps. apply grownFrom_step.
Qed.

(** X9: [Items.unsquish(pairs)] keeps the pairs, their order and their
    items, and never makes the bounds of a pair narrower or lower. *)
Theorem unsquish_never_shrinks (page : Rect.t) (pairs : list Unsquish.Pair) :
  length (Unsquish.unsquish page pairs) = length pairs /\
  forall i p, pairs !! i = Some p ->
    exists p', Unsquish.unsquish page pairs !! i = Some p' /\
      Unsquish.item p' = Unsquish.item p /\
      Rect.width (Unsquish.bounds p) <= Rect.width (Unsquish.bounds p') /\
      Rect.height (Unsquish.bounds p) <= Rect.height (Unsquish.bounds p').
Proof.
  destruct (unsquish_grownFrom page pairs) as [Hlen Hg]. split; [exact Hlen|].
  intros i p Hp.
  destruct (lookup_lt_is_Some_2 (Unsquish.unsquish page pairs) i) as [p' Hp'].
  { rewrite Hlen. eapply lookup_lt_Some; eassumption. }
  exists p'. split; [exact Hp'|]. exact (Hg i p p' Hp Hp').
Qed.

(** X10: two pairs whose bounds do not intersect before
    [Items.unsquish(pairs)] do not intersect after it. *)
Theorem unsquish_keeps_apart (page : Rect.t) (pairs : list Unsquish.Pair)
    (i j : nat) :
  i <> j -> apart pairs i j -> apart (Unsquish.unsquish page pairs) i j.
Proof. apply unsquish_apart. Qed.

Lemma changedClear_step page pairs ps k :
  changedClear pairs ps -> changedClear pairs (Unsquish.unsquishPair page k ps).
Proof.
  intros Hcc.
  destruct (unsquishPair_cases page k ps) as [->|(pr & Hpr & Hb & _ & ->)];
    [assumption|].
  intros i p p' Hp Hp' Hne j pj Hji Hj.
  apply list_lookup_insert_Some in Hp'. apply list_lookup_insert_Some in Hj.
  destruct Hp' as [(-> & <- & _)|(Hki & Hp')];
    destruct Hj as [(Ekj & <- & _)|(Hkj & Hj)]; cbn [Unsquish.bounds] in *.
  - congruence.
  - rewrite intersects_sym.
    apply (blocked_false _ _ _ _ Hb j pj Hj). simpl. congruence.
  - subst k. apply (blocked_false _ _ _ _ Hb i p' Hp'). simpl. congruence.
  - exact (Hcc i p p' Hp Hp' Hne j pj Hji Hj).
Qed.

(** X11: a pair whose bounds [Items.unsquish(pairs)] has changed
    intersects no other pair at the end, whatever overlaps there were at
    the start. *)
Theorem unsquish_changed_clear (page : Rect.t) (pairs : list Unsquish.Pair)
    (i j : nat) (p p' pj : Unsquish.Pair) :
  pairs !! i = Some p ->
  Unsquish.unsquish page pairs !! i = Some p' ->
  Unsquish.bounds p' <> Unsquish.bounds p ->
  j <> i ->
  Unsquish.unsquish page pairs !! j = Some pj ->
  Rect.intersects (Unsquish.bounds p') (Unsquish.bounds pj) = false.
Proof.
  intros Hp Hp' Hne Hji Hj.
  assert (H : changedClear pairs (Unsquish.unsquish page pairs)).
  { apply unsquish_invariant.
    - intros a q q' Hq Hq' Hn. rewrite Hq in Hq'. injection Hq' as <-. congruence.
    - intros k ps. apply changedClear_step. }
  exact (H i p p' Hp Hp' Hne j pj Hji Hj).
Qed.

Lemma target_pairSettled page pr :
  pairSettled page pr ->
  Rect.equals (Unsquish.bounds pr) (Unsquish.target page pr) = true.
Proof.
  intros (Hw & Hh & H1 & H2 & H3 & H4). apply equals_true.
  unfold Unsquish.target. fold (preferredSize (Unsquish.item pr)).
  rewrite (Qmax_left _ _ Hw), (Qmax_left _ _ Hh).
  set (b := Unsquish.bounds pr) in *.
  set (nb := Rect.mk _ _ _ _).
  assert (El : Rect.left nb == Rect.left b).
  { unfold nb. proj_simpl. field. }
  assert (Et : Rect.top nb == Rect.top b).
  { unfold nb. proj_simpl. field. }
  assert (Er : Rect.right nb == Rect.right b).
  { unfold Rect.right. rewrite El. reflexivity. }
  assert (Eb : Rect.bottom nb == Rect.bottom b).
  { unfold Rect.bottom. rewrite Et. reflexivity. }
  unfold Qgtb.
  rewrite (proj2 (Qltb_false (Rect.left nb) (Rect.left page))) by (rewrite El; exact H1).
  rewrite (proj2 (Qltb_false (Rect.right page) (Rect.right nb))) by (rewrite Er; exact H2).
  rewrite (proj2 (Qltb_false (Rect.top nb) (Rect.top page))) by (rewrite Et; exact H3).
  rewrite (proj2 (Qltb_false (Rect.bottom page) (Rect.bottom nb))) by (rewrite Eb; exact H4).
  unfold Rect.eq, Rect.offset. proj_simpl. split_and!; try reflexivity; lra.
Qed.

(** X12: when every pair is at least as large as the preferred size of
    its item (the user size, or the minimum size) and lies in the safe
    window bounds, [Items.unsquish(pairs)] changes nothing. *)
Theorem unsquish_fixed_when_settled (page : Rect.t) (pairs : list Unsquish.Pair) :
  Forall (pairSettled page) pairs -> Unsquish.unsquish page pairs = pairs.
Proof.
  intros H. apply unsquish_settled. intros i pr Hpr.
  apply target_pairSettled. rewrite Forall_lookup in H. exact (H i pr Hpr).
Qed.
(** ** Item.overlapsWithOtherItems, Items.getBoundingBox, Items.getPageBounds *)

Lemma contains_true (r a : Rect.t) :
  Rect.contains r a = true <->
  Rect.left r <= Rect.left a /\ Rect.right a <= Rect.right r /\
  Rect.top r <= Rect.top a /\ Rect.bottom a <= Rect.bottom r.
Proof.
  unfold Rect.contains, Qgeb. rewrite !andb_true_iff, !Qleb_true. tauto.
Qed.

Lemma someOther_spec self b j0 items :
  ItemOps.someOther self b j0 items = true <->
  exists k it, items !! k = Some it /\ (j0 + k)%nat <> self /\
               Rect.intersects (Item.bounds it) b = true.
Proof.
  revert j0. induction items as [|it0 items IH]; intros j0; cbn [ItemOps.someOther].
  - split; [discriminate|]. intros (k & it & Hk & _). discriminate.
  - rewrite orb_true_iff, andb_true_iff, negb_true_iff, Nat.eqb_neq, IH. split.
    + intros [[Hne Hi]|(k & it & Hk & Hne & Hi)].
      * exists O, it0. rewrite Nat.add_0_r. auto.
      * exists (S k), it. rewrite Nat.add_succ_r. auto.
    + intros ([|k] & it & Hk & Hne & Hi).
      * left. injection Hk as ->. rewrite Nat.add_0_r in Hne. auto.
      * right. exists k, it. rewrite Nat.add_succ_r in Hne. auto.
Qed.

(** X13: [overlapsWithOtherItems] is true exactly when the bounds of
    some item other than the item itself intersect its bounds; the item
    never counts as overlapping itself. *)
Theorem overlapsWithOtherItems_iff (items : list Item.t) (self : nat)
    (this : Item.t) :
  ItemOps.overlapsWithOtherItems items self this = true <->
  exists j it, j <> self /\ items !! j = Some it /\
               Rect.intersects (Item.bounds it) (Item.bounds this) = true.
Proof.
  unfold ItemOps.overlapsWithOtherItems. rewrite someOther_spec. split.
  - intros (k & it & Hk & Hne & Hi). exists k, it. auto.
  - intros (k & it & Hne & Hk & Hi). exists k, it. auto.
Qed.

Lemma minOf_le x l :
  ItemsOps.minOf x l <= x /\ forall y, y ∈ l -> ItemsOps.minOf x l <= y.
Proof.
  unfold ItemsOps.minOf. revert x. induction l as [|z l IH]; intros x; simpl.
  - split; [lra|]. intros y Hy. inversion Hy.
  - destruct (IH (Qmin x z)) as [H1 H2]. split.
    + pose proof (Q.le_min_l x z). lra.
    + intros y Hy. apply elem_of_cons in Hy. destruct Hy as [->|Hy].
      * pose proof (Q.le_min_r x z). lra.
      * now apply H2.
Qed.

Lemma minOf_glb x l m :
  m <= x -> (forall y, y ∈ l -> m <= y) -> m <= ItemsOps.minOf x l.
Proof.
  unfold ItemsOps.minOf. revert x. induction l as [|z l IH]; intros x Hx Hl; simpl.
  - assumption.
  - apply IH.
    + apply Q.min_glb; [assumption|]. apply Hl. left.
    + intros y Hy. apply Hl. now right.
Qed.

Lemma maxOf_ge x l :
  x <= ItemsOps.maxOf x l /\ forall y, y ∈ l -> y <= ItemsOps.maxOf x l.
Proof.
  unfold ItemsOps.maxOf. revert x. induction l as [|z l IH]; intros x; simpl.
  - split; [lra|]. intros y Hy. inversion Hy.
  - destruct (IH (Qmax x z)) as [H1 H2]. split.
    + pose proof (Q.le_max_l x z). lra.
    + intros y Hy. apply elem_of_cons in Hy. destruct Hy as [->|Hy].
      * pose proof (Q.le_max_r x z). lra.
      * now apply H2.
Qed.

Lemma maxOf_lub x l m :
  x <= m -> (forall y, y ∈ l -> y <= m) -> ItemsOps.maxOf x l <= m.
Proof.
  unfold ItemsOps.maxOf. revert x. induction l as [|z l IH]; intros x Hx Hl; simpl.
  - assumption.
  - apply IH.
    + apply Q.max_lub; [assumption|]. apply Hl. left.
    + intros y Hy. apply Hl. now right.
Qed.

Lemma minOf_whole x l :
  whole x -> Forall whole l -> whole (ItemsOps.minOf x l).
Proof.
  unfold ItemsOps.minOf. revert x.
  induction l as [|z l IH]; intros x Hx Hl; simpl; [assumption|].
  apply Forall_cons in Hl. destruct Hl as [Hz Hl].
  apply IH; [now apply whole_min|assumption].
Qed.

Lemma maxOf_whole x l :
  whole x -> Forall whole l -> whole (ItemsOps.maxOf x l).
Proof.
  unfold ItemsOps.maxOf. revert x.
  induction l as [|z l IH]; intros x Hx Hl; simpl; [assumption|].
  apply Forall_cons in Hl. destruct Hl as [Hz Hl].
  apply IH; [now apply whole_max|assumption].
Qed.

(** X14: for at least one element, and elements whose bounds are whole
    numbers, [getBoundingBox] gives a rectangle at whole-number
    coordinates that contains the bounds of every element and is
    contained in every rectangle that does. *)
Theorem getBoundingBox_least (bounds : list Rect.t) :
  bounds <> [] ->
  Forall wholeRect bounds ->
  exists box,
    ItemsOps.getBoundingBox bounds = Some box /\
    wholeRect box /\
    (forall b, b ∈ bounds -> Rect.contains box b = true) /\
    (forall r, (forall b, b ∈ bounds -> Rect.contains r b = true) ->
               Rect.contains r box = true).
Proof.
  destruct bounds as [|b0 bs]; [congruence|]. intros _ Hwhole.
  eexists. split; [reflexivity|].
  apply Forall_cons in Hwhole. destruct Hwhole as [Hw0 Hws].
  assert (Hmap : forall f : Rect.t -> Q,
            (forall r, wholeRect r -> whole (f r)) -> Forall whole (map f bs)).
  { intros f Hf. apply Forall_fmap. eapply Forall_impl; [exact Hws|].
    intros r Hr. now apply Hf. }
  assert (WL : whole (ItemsOps.minOf (Rect.left b0) (map Rect.left bs))).
  { apply minOf_whole; [apply Hw0|]. apply Hmap. intros r Hr. apply Hr. }
  assert (WT : whole (ItemsOps.minOf (Rect.top b0) (map Rect.top bs))).
  { apply minOf_whole; [apply Hw0|]. apply Hmap. intros r Hr. apply Hr. }
  assert (WR : whole (ItemsOps.maxOf (Rect.right b0) (map Rect.right bs))).
  { apply maxOf_whole; [now apply whole_right|]. apply Hmap. apply whole_right. }
  assert (WB : whole (ItemsOps.maxOf (Rect.bottom b0) (map Rect.bottom bs))).
  { apply maxOf_whole; [now apply whole_bottom|]. apply Hmap. apply whole_bottom. }
  split.
  { unfold wholeRect. cbn [Rect.left Rect.top Rect.width Rect.height].
    split_and!; try assumption; now apply whole_minus. }
  set (L := ItemsOps.minOf (Rect.left b0) (map Rect.left bs)).
  set (T := ItemsOps.minOf (Rect.top b0) (map Rect.top bs)).
  set (R := ItemsOps.maxOf (Rect.right b0) (map Rect.right bs)).
  set (B := ItemsOps.maxOf (Rect.bottom b0) (map Rect.bottom bs)).
  assert (ER : Rect.right (Rect.mk L T (R - L) (B - T)) == R)
    by (unfold Rect.right; cbn [Rect.left Rect.width]; ring).
  assert (EB : Rect.bottom (Rect.mk L T (R - L) (B - T)) == B)
    by (unfold Rect.bottom; cbn [Rect.top Rect.height]; ring).
  split.
  - intros b Hb. apply contains_true. rewrite ER, EB. cbn [Rect.left Rect.top].
    destruct (minOf_le (Rect.left b0) (map Rect.left bs)) as [HL0 HL].
    destruct (minOf_le (Rect.top b0) (map Rect.top bs)) as [HT0 HT].
    destruct (maxOf_ge (Rect.right b0) (map Rect.right bs)) as [HR0 HR].
    destruct (maxOf_ge (Rect.bottom b0) (map Rect.bottom bs)) as [HB0 HB].
    apply elem_of_cons in Hb. destruct Hb as [->|Hb].
    + split_and!; assumption.
    + split_and!; [apply HL|apply HR|apply HT|apply HB];
        apply list_elem_of_fmap; exists b; auto.
  - intros r Hr. apply contains_true. rewrite ER, EB. cbn [Rect.left Rect.top].
    assert (H0 := proj1 (contains_true r b0) (Hr b0 ltac:(left))).
    assert (Hs : forall b, b ∈ bs ->
      Rect.left r <= Rect.left b /\ Rect.right b <= Rect.right r /\
      Rect.top r <= Rect.top b /\ Rect.bottom b <= Rect.bottom r).
    { intros b Hb. apply contains_true, Hr. now right. }
    split_and!.
    + apply minOf_glb; [tauto|]. intros y Hy.
      apply list_elem_of_fmap in Hy. destruct Hy as (b & -> & Hb). now apply Hs.
    + apply maxOf_lub; [tauto|]. intros y Hy.
      apply list_elem_of_fmap in Hy. destruct Hy as (b & -> & Hb). now apply Hs.
    + apply minOf_glb; [tauto|]. intros y Hy.
      apply list_elem_of_fmap in Hy. destruct Hy as (b & -> & Hb). now apply Hs.
    + apply maxOf_lub; [tauto|]. intros y Hy.
      apply list_elem_of_fmap in Hy. destruct Hy as (b & -> & Hb). now apply Hs.
Qed.

(** X15: whatever the size of the window, the page bounds are at least
    100 by 100 and contain the safe window bounds. *)
Theorem getPageBounds_contains_safe (w : Items.Window) :
  Rect.contains (ItemsOps.getPageBounds w) (Items.getSafeWindowBounds w) = true /\
  100 <= Rect.width (ItemsOps.getPageBounds w) /\
  100 <= Rect.height (ItemsOps.getPageBounds w).
Proof.
  split_and!.
  - apply contains_true.
    unfold ItemsOps.getPageBounds, Items.getSafeWindowBounds, Rect.right,
      Rect.bottom, Items.defaultGutter.
    cbn [Rect.left Rect.top Rect.width Rect.height].
    pose proof (Q.le_max_r 100 (Items.innerWidth w)).
    pose proof (Q.le_max_r 100 (Items.innerHeight w)).
    split_and!; lra.
  - apply Q.le_max_l.
  - apply Q.le_max_l.
Qed.
(** ** The box dragged out of the background *)

(** X16: the box dragged out of the background spans the distance from
    the point where the mouse went down to the mouse, in both
    directions, and the corner named as stationary is the corner of the
    box at the point where the mouse went down. *)
Theorem updateSize_corner (startPos client : Point.t) :
  let box := DragOut.updateSizeBox startPos client in
  Rect.width box == Qabs (Point.x client - Point.x startPos) /\
  Rect.height box == Qabs (Point.y client - Point.y startPos) /\
  match DragOut.stationaryCorner startPos box with
  | DragOut.topleft =>
      Rect.left box == Point.x startPos /\ Rect.top box == Point.y startPos
  | DragOut.topright =>
      Rect.right box == Point.x startPos /\ Rect.top box == Point.y startPos
  | DragOut.bottomleft =>
      Rect.left box == Point.x startPos /\ Rect.bottom box == Point.y startPos
  | DragOut.bottomright =>
      Rect.right box == Point.x startPos /\ Rect.bottom box == Point.y startPos
  end.
Proof.
  intros box.
  assert (Hmin : forall a b, Qmin a b == a \/ Qmin a b == b).
  { intros a b. destruct (Q.min_spec a b) as [[_ ->]|[_ ->]];
      [left|right]; reflexivity. }
  assert (Hw : forall a b, Qmax a b - Qmin a b == Qabs (b - a)).
  { intros a b.
    destruct (Q.min_spec a b) as [[H ->]|[H ->]];
      destruct (Q.max_spec a b) as [[H' ->]|[H' ->]]; try lra.
    - rewrite Qabs_pos; lra.
    - rewrite Qabs_neg; lra. }
  assert (Hr : forall a b, ~ a == Qmin a b -> Qmin a b + (Qmax a b - Qmin a b) == a).
  { intros a b Hne.
    destruct (Q.min_spec a b) as [[H E]|[H E]];
      destruct (Q.max_spec a b) as [[H' E']|[H' E']]; rewrite ?E, ?E' in *; lra. }
  split_and!.
  - apply Hw.
  - apply Hw.
  - unfold DragOut.stationaryCorner, Rect.right, Rect.bottom.
    subst box. unfold DragOut.updateSizeBox, RectOps.spanning.
    cbn [Rect.left Rect.top Rect.width Rect.height].
    destruct (Qeq_bool (Point.y startPos) _) eqn:Ey;
      destruct (Qeq_bool (Point.x startPos) _) eqn:Ex;
      [apply Qeq_bool_iff in Ey | apply Qeq_bool_iff in Ey
      |apply Qeq_bool_false in Ey | apply Qeq_bool_false in Ey];
      [apply Qeq_bool_iff in Ex | apply Qeq_bool_false in Ex
      |apply Qeq_bool_iff in Ex | apply Qeq_bool_false in Ex];
      split; try (symmetry; assumption); now apply Hr.
Qed.

(** ** The resize handle *)

(** X17: while an item is resized by its handle, with the resize options
    that [setResizable] stores, the item stays at least as large as the
    minimum size and its top edge stays where it is; left to right its
    left edge stays where it is too. For bounds, start size and mouse
    positions that are whole numbers: the height follows the mouse from
    the height at mouse down, not below the minimum; left to right the
    width does the same; right to left the right edge stays where it is
    and the width follows the mouse the other way, except that an item
    at the minimum width keeps its width while the mouse is not left of
    where it went down. *)
Theorem handleMouseMove_anchored (rtl : bool)
    (startMouse startSize mouse : Point.t) (self : Item.t) :
  let self' := Resize.handleMouseMove rtl Resize.itemOptions
                 startMouse startSize mouse self in
  let dx := Point.x mouse - Point.x startMouse in
  let dy := Point.y mouse - Point.y startMouse in
  minSize (Item.bounds self') /\
  Rect.top (Item.bounds self') == Rect.top (Item.bounds self) /\
  (rtl = false ->
   Rect.left (Item.bounds self') == Rect.left (Item.bounds self)) /\
  (wholeRect (Item.bounds self) -> wholePoint startSize ->
   wholePoint startMouse -> wholePoint mouse ->
   Rect.height (Item.bounds self') ==
   Qmax Items.minItemHeight (Point.y startSize + dy) /\
   (rtl = false ->
    Rect.width (Item.bounds self') ==
    Qmax Items.minItemWidth (Point.x startSize + dx)) /\
   (rtl = true ->
    Rect.right (Item.bounds self') == Rect.right (Item.bounds self) /\
    Rect.width (Item.bounds self') ==
    (if negb (Qeq_bool Items.minItemWidth (Rect.width (Item.bounds self)))
        || Qltb (Point.x mouse) (Point.x startMouse)
     then Qmax Items.minItemWidth (Point.x startSize - dx)
     else Rect.width (Item.bounds self)))).
Proof.
  intros self' dx dy. subst self' dx dy. unfold Resize.handleMouseMove.
  set (box := Resize.resizedBox _ _ _ _ _ _).
  destruct (setBounds_bounds self box) as (El & Et & Ew & Eh).
  cbn [Rect.left Rect.top Rect.width Rect.height] in El, Et, Ew, Eh.
  assert (Hmax : forall a b, b <= a -> Qmax a b == a).
  { intros a b H. rewrite (Qmax_left _ _ H). reflexivity. }
  assert (Hh : Rect.height box ==
          Qmax Items.minItemHeight
               (Point.y startSize + (Point.y mouse - Point.y startMouse))).
  { subst box. unfold Resize.resizedBox, Resize.itemOptions.
    cbn [Resize.aspectRatio Resize.minHeight Rect.height]. reflexivity. }
  assert (Ht : Rect.top box == Rect.top (Item.bounds self)).
  { subst box. unfold Resize.resizedBox, Resize.itemOptions.
    cbn [Resize.aspectRatio Resize.minWidth Resize.minHeight].
    destruct rtl; [|reflexivity].
    destruct (_ || _); reflexivity. }
  assert (Hhm : Items.minItemHeight <= Rect.height box).
  { rewrite Hh. apply Q.le_max_l. }
  assert (Hwm : Items.minItemWidth <= Rect.width box).
  { subst box. unfold Resize.resizedBox, Resize.itemOptions.
    cbn [Resize.aspectRatio Resize.minWidth Resize.minHeight].
    destruct rtl; cbn [Rect.width Rect.left Rect.top Rect.height];
      [|apply Q.le_max_l].
    destruct (negb _) eqn:En; cbn [orb].
    - cbn [Rect.width]. apply Q.le_max_l.
    - apply negb_false_iff, Qeq_bool_iff in En.
      destruct (Qltb _ _); cbn [Rect.width]; [apply Q.le_max_l|].
      rewrite <- En. lra. }
  rewrite (Hmax _ _ Hwm) in Ew. rewrite (Hmax _ _ Hhm) in Eh.
  split_and!.
  - unfold minSize. rewrite Ew, Eh. split; assumption.
  - rewrite Et. exact Ht.
  - intros ->. rewrite El. subst box. reflexivity.
  - intros _ _ _ _. split_and!.
    + rewrite Eh. exact Hh.
    + intros ->. rewrite Ew. subst box. reflexivity.
    + intros ->. split.
      * unfold Rect.right. rewrite El, Ew. subst box.
        unfold Resize.resizedBox, Resize.itemOptions.
        cbn [Resize.aspectRatio Resize.minWidth Resize.minHeight].
        destruct (_ || _); cbn [Rect.width Rect.left]; ring.
      * rewrite Ew. subst box.
        unfold Resize.resizedBox, Resize.itemOptions.
        cbn [Resize.aspectRatio Resize.minWidth Resize.minHeight].
        destruct (_ || _); cbn [Rect.width]; reflexivity.
Qed.
(** ** The choice of the drop target *)

Section DropFacts.

Context {ItemRef : Type} `{EqDecision ItemRef}.
Variable accept : ItemRef -> bool.

Lemma consider_cases current box best d :
  0 <= Drop.score best ->
  (Drop.consider accept current box best d = best /\
   (dropAccepted accept current d = true -> dropScore box d <= Drop.score best)) \/
  (Drop.consider accept current box best d =
     {| Drop.dropTarget := Some (Drop.item d); Drop.score := dropScore box d |} /\
   dropAccepted accept current d = true /\ Drop.score best < dropScore box d).
Proof.
  intros H0. unfold Drop.consider, dropScore, dropAccepted.
  destruct (RectOps.intersection box (Drop.bounds d)) as [r|]; [|left; auto].
  destruct (Qgtb (RectOps.area r) (Drop.score best)) eqn:Hgt.
  - apply Qltb_true in Hgt.
    destruct (decide (Some (Drop.item d) = current)) as [E|E].
    + right. rewrite bool_decide_eq_true_2 by assumption. auto.
    + rewrite bool_decide_eq_false_2 by assumption. cbn [orb].
      destruct (accept (Drop.item d)); [right; auto|left].
      split; [reflexivity|discriminate].
  - apply Qltb_false in Hgt. left. auto.
Qed.

Lemma bestOf_score current box seen best :
  bestOf accept current box seen best -> 0 <= Drop.score best.
Proof.
  intros [_ H]. destruct (Drop.dropTarget best).
  - destruct H as (d & _ & _ & _ & -> & Hp). lra.
  - rewrite H. lra.
Qed.

Lemma bestOf_step current box seen best d :
  bestOf accept current box seen best ->
  bestOf accept current box (seen ++ [d])
         (Drop.consider accept current box best d).
Proof.
  intros Hb. pose proof (bestOf_score _ _ _ _ Hb) as H0.
  destruct Hb as [Hmax Ht].
  destruct (consider_cases current box best d H0) as [(-> & Hd)|(-> & Ha & Hlt)].
  - split.
    + intros d' Hd' Ha'. apply elem_of_app in Hd'. destruct Hd' as [Hd'|Hd'].
      * now apply Hmax.
      * apply list_elem_of_singleton in Hd'. subst d'. now apply Hd.
    + destruct (Drop.dropTarget best); [|assumption].
      destruct Ht as (d0 & Hin & Ht). exists d0. split; [|assumption].
      apply elem_of_app. now left.
  - unfold bestOf. cbn [Drop.dropTarget Drop.score]. split.
    + intros d' Hd' Ha'. apply elem_of_app in Hd'. destruct Hd' as [Hd'|Hd'].
      * specialize (Hmax d' Hd' Ha'). lra.
      * apply list_elem_of_singleton in Hd'. subst d'. lra.
    + exists d. split_and!; try reflexivity; try assumption.
      * apply elem_of_app. right. apply list_elem_of_singleton. reflexivity.
      * lra.
Qed.

Lemma bestOf_fold current box ds :
  forall seen best,
    bestOf accept current box seen best ->
    bestOf accept current box (seen ++ ds)
           (fold_left (Drop.consider accept current box) ds best).
Proof.
  induction ds as [|d ds IH]; intros seen best Hb; simpl.
  - now rewrite app_nil_r.
  - replace (seen ++ d :: ds) with ((seen ++ [d]) ++ ds)
      by (now rewrite <- app_assoc).
    apply IH. now apply bestOf_step.
Qed.


(** X19: when no droppable accepts the dragged item, as with the
    [accept] function every item is created with,
    [determineBestDropTarget] returns [null] or the drop target it
    already had: a drag never finds a new target. *)
Theorem determineBestDropTarget_refusing (current : option ItemRef)
    (box : Rect.t) (droppables : list Drop.Droppable) :
  (forall d, d ∈ droppables -> accept (Drop.item d) = false) ->
  Drop.determineBestDropTarget accept current box droppables = None \/
  Drop.determineBestDropTarget accept current box droppables = current.
Proof.
  intros Hacc. unfold Drop.determineBestDropTarget.
  assert (Hb := bestOf_fold current box droppables []
                  {| Drop.dropTarget := None; Drop.score := 0 |}).
  rewrite app_nil_l in Hb.
  destruct Hb as [_ Ht].
  { split; [|reflexivity]. intros d Hd. inversion Hd. }
  destruct (Drop.dropTarget _) as [t|]; [right|now left].
  destruct Ht as (d & Hin & <- & Ha & _).
  unfold dropAccepted in Ha. rewrite (Hacc d Hin), orb_false_r in Ha.
  now apply bool_decide_eq_true in Ha.
Qed.

End DropFacts.
(** ** More of the registry *)

Section RegistryMore.

Context {ItemRef : Type} `{EqDecision ItemRef}.
Context {Opts : Type} {MRUList : Type}.
Variable MRU_remove : ItemRef -> MRUList -> MRUList.

Local Abbreviation RState := (@Registry.State ItemRef Opts MRUList).

Lemma indexOf_app_last (it : ItemRef) (l : list ItemRef) :
  Registry.indexOf it l = None ->
  Registry.indexOf it (l ++ [it]) = Some (length l).
Proof.
  induction l as [|x l IH]; simpl.
  - intros _. now rewrite decide_True.
  - destruct (decide (x = it)); [discriminate|].
    destruct (Registry.indexOf it l); [discriminate|]. intros _.
    now rewrite IH.
Qed.

Lemma delete_app_last {A} (l : list A) (x : A) : delete (length l) (l ++ [x]) = l.
Proof. induction l as [|y l IH]; simpl; [reflexivity|]. now rewrite IH. Qed.

Lemma filter_all {A} (P : A -> bool) (l : list A) :
  (forall x, x ∈ l -> P x = true) -> List.filter P l = l.
Proof.
  induction l as [|x l IH]; intros H; simpl; [reflexivity|].
  rewrite (H x) by left. rewrite IH; [reflexivity|].
  intros y Hy. apply H. now right.
Qed.

(** X20: unregistering an item right after it was registered gives back
    the items list and the pause flag, the active item when it is
    another one, and the pending arranges when none is for the item. *)
Theorem register_unregister (it : ItemRef) (s : RState) :
  Registry.register_pre it s ->
  let s' := Registry.unregister MRU_remove it (Registry.register it s) in
  Registry.items s' = Registry.items s /\
  Registry._arrangePaused s' = Registry._arrangePaused s /\
  (Registry._activeItem s <> Some it ->
   Registry._activeItem s' = Registry._activeItem s) /\
  ((forall g, g ∈ Registry._arrangesPending s -> Registry.item g <> it) ->
   Registry._arrangesPending s' = Registry._arrangesPending s).
Proof.
  intros Hpre s'. subst s'. unfold Registry.register_pre in Hpre.
  unfold Registry.unregister, Registry.register.
  cbn [Registry.items Registry._activeItem Registry._arrangePaused
       Registry._arrangesPending].
  split_and!.
  - rewrite (indexOf_app_last _ _ Hpre). apply delete_app_last.
  - reflexivity.
  - intros Hne. rewrite decide_False; congruence.
  - intros Hp. apply filter_all. intros g Hg. unfold Registry.differs.
    rewrite bool_decide_eq_false_2; [reflexivity|].
    intros E. apply (Hp g Hg). congruence.
Qed.

Lemma filter_filter_same {A} (P : A -> bool) (l : list A) :
  List.filter P (List.filter P l) = List.filter P l.
Proof.
  induction l as [|x l IH]; simpl; [reflexivity|].
  destruct (P x) eqn:E; simpl; rewrite ?E, IH; reflexivity.
Qed.

(** X21: on an items list without duplicates a second [unregister] of
    the same item changes neither the items list, the active item, the
    pending arranges nor the pause flag, and the items list stays
    without duplicates. *)
Theorem unregister_idempotent (it : ItemRef) (s : RState) :
  NoDup (Registry.items s) ->
  let s1 := Registry.unregister MRU_remove it s in
  let s2 := Registry.unregister MRU_remove it s1 in
  Registry.items s2 = Registry.items s1 /\
  Registry._activeItem s2 = Registry._activeItem s1 /\
  Registry._arrangesPending s2 = Registry._arrangesPending s1 /\
  Registry._arrangePaused s2 = Registry._arrangePaused s1 /\
  NoDup (Registry.items s1).
Proof.
  intros Hnd s1 s2.
  assert (E1 : Registry.items s1 = List.filter (Registry.differs it) (Registry.items s)).
  { subst s1. cbn [Registry.unregister Registry.items]. now apply indexOf_splice. }
  assert (Hnd1 : NoDup (Registry.items s1)).
  { rewrite E1. apply NoDup_ListNoDup, List.NoDup_filter, NoDup_ListNoDup, Hnd. }
  split_and!.
  - subst s2. cbn [Registry.unregister Registry.items].
    rewrite (indexOf_splice _ _ Hnd1), E1. apply filter_filter_same.
  - subst s2 s1. cbn [Registry.unregister Registry._activeItem].
    destruct (decide (Some it = Registry._activeItem s)) as [E|E].
    + now rewrite decide_False.
    + now rewrite decide_False.
  - subst s2 s1. cbn [Registry.unregister Registry._arrangesPending].
    apply filter_filter_same.
  - reflexivity.
  - exact Hnd1.
Qed.

End RegistryMore.
(** ** The propagation loop, breadth first *)

Lemma bfsInv_seed items this ds : seed items this = Some ds -> bfsInv ds [this].
Proof.
  intros Hs. destruct (seed_spec _ _ _ Hs) as (Hlt & Hlen & Hlk).
  assert (Hgen : forall i d, ds !! i = Some d ->
            (generation d = Gen.Fin 0 \/ generation d = Gen.Infinity) /\
            pusher d = None).
  { intros i d Hd. rewrite Hlk in Hd. destruct (items !! i) as [it|]; [|discriminate].
    simpl in Hd. injection Hd as <-. destruct (Nat.eqb i this); simpl; auto. }
  exists O, [this], []. split_and!.
  - reflexivity.
  - split; [|constructor]. constructor; [|constructor].
    unfold genOf. rewrite Hlk.
    destruct (lookup_lt_is_Some_2 items this Hlt) as [it ->]. simpl.
    now rewrite Nat.eqb_refl.
  - intros i d g Hd Hg. destruct (Hgen i d Hd) as [[E|E] _]; rewrite E in Hg.
    + injection Hg as <-. lia.
    + discriminate.
  - intros i d p Hd Hp. destruct (Hgen i d Hd) as [_ E]. congruence.
Qed.

Lemma bfsInv_head ds b rest :
  bfsInv ds (b :: rest) ->
  exists n q1 q2, rest = q1 ++ q2 /\ queueInv n (b :: q1) q2 ds /\
                  maxGen n ds /\ clearOfPusher ds.
Proof.
  intros (n & q1 & q2 & Hq & Hinv & Hmax & Hc).
  destruct q1 as [|b0 q1].
  - cbn [app] in Hq. subst q2. exists (S n), rest, []. split_and!.
    + now rewrite app_nil_r.
    + split; [exact (proj2 Hinv)|constructor].
    + intros i d g Hd Hg. specialize (Hmax i d g Hd Hg). lia.
    + assumption.
  - cbn [app] in Hq. injection Hq as -> ->. exists n, q1, q2. auto.
Qed.

Lemma bfsInv_step ds b rest ds' pushed :
  bfsInv ds (b :: rest) -> pushOne b ds = Some (ds', pushed) ->
  bfsInv ds' (rest ++ pushed).
Proof.
  intros Hb Hp. destruct (bfsInv_head _ _ _ Hb) as (n & q1 & q2 & -> & Hinv & Hmax & Hc).
  exists n, q1, (q2 ++ pushed).
  pose proof (queueInv_pushOne _ _ _ _ _ _ _ Hinv Hp) as Hinv'.
  destruct (pushOne_spec _ _ _ _ Hp) as (bd & Hbd & _ & Hlk & _).
  assert (Hgb : generation bd = Gen.Fin n).
  { destruct Hinv as [H1 _]. apply Forall_cons in H1. destruct H1 as [H1 _].
    unfold genOf in H1. rewrite Hbd in H1. simpl in H1. congruence. }
  rewrite Hgb in Hlk.
  split_and!.
  - now rewrite app_assoc.
  - assumption.
  - intros i d' g Hd' Hg. rewrite Hlk in Hd'.
    destruct (ds !! i) as [d|] eqn:Hd; [|discriminate]. injection Hd' as <-.
    destruct (pushEach_generation b (Gen.Fin n) (inflate (bounds bd)) i d)
      as [(E & _)|(E & _)]; rewrite E in Hg.
    + exact (Hmax i d g Hd Hg).
    + cbn [Gen.succ] in Hg. injection Hg as <-. lia.
  - intros i d' p Hd' Hpu. rewrite Hlk in Hd'.
    destruct (ds !! i) as [d|] eqn:Hd; [|discriminate]. injection Hd' as <-.
    destruct (pushEach_cases b (Gen.Fin n) (inflate (bounds bd)) i d)
      as [(E & _)|(_ & _ & Hi & E)]; rewrite E in *; cbn [fst] in *.
    + destruct (Hc i d p Hd Hpu) as (dp & m & Hdp & Hgp & Hgd & Hni).
      exists dp, m. split_and!; try assumption.
      rewrite Hlk, Hdp. simpl. rewrite pushEach_guard; [reflexivity|].
      rewrite Hgp. cbn [Gen.leb]. apply Nat.leb_le.
      specialize (Hmax i d (S m) Hd Hgd). lia.
    + cbn [pusher generation bounds] in *. injection Hpu as <-.
      exists bd, n. split_and!; try assumption.
      * rewrite Hlk, Hbd. simpl. rewrite pushEach_guard; [reflexivity|].
        rewrite Hgb. apply Gen_leb_refl.
      * reflexivity.
      * now apply pushOffset_separates.
Qed.

Lemma bfsInv_propagate fuel items this ds :
  propagate fuel items this = Some ds -> clearOfPusher ds.
Proof.
  unfold propagate. destruct (seed items this) as [ds0|] eqn:Hs; [|discriminate].
  intros Hl.
  destruct (pushLoop_invariant bfsInv bfsInv_step fuel ds0 [this] ds
              (bfsInv_seed _ _ _ Hs) Hl) as (_ & _ & _ & _ & _ & _ & Hc).
  exact Hc.
Qed.

Lemma whole_propagate fuel items this ds :
  propagate fuel items this = Some ds ->
  Forall (fun it => wholeRect (Item.bounds it)) items ->
  forall i d, ds !! i = Some d -> wholeRect (bounds d).
Proof.
  unfold propagate. destruct (seed items this) as [ds0|] eqn:Hs; [|discriminate].
  intros Hl Hw. destruct (seed_spec _ _ _ Hs) as (_ & _ & Hlk0).
  apply (pushLoop_invariant
           (fun s _ => forall i d, s !! i = Some d -> wholeRect (bounds d)))
    with (fuel := fuel) (ds := ds0) (q := [this]); [| |exact Hl].
  - intros s b rest s' pushed Hall Hp i d' Hd'.
    destruct (pushOne_spec _ _ _ _ Hp) as (bd & Hbd & _ & Hlk & _).
    rewrite Hlk in Hd'. destruct (s !! i) as [d|] eqn:Hd; [|discriminate].
    injection Hd' as <-.
    apply pushEach_whole; [apply wholeRect_inflate, (Hall b bd Hbd)|exact (Hall i d Hd)].
  - intros i d Hd. rewrite Hlk0 in Hd.
    destruct (items !! i) as [it|] eqn:Hit; [|discriminate].
    rewrite Forall_lookup in Hw. specialize (Hw i it Hit).
    simpl in Hd. injection Hd as <-. now destruct (Nat.eqb i this).
Qed.

(** X22: when the bounds of all items are whole numbers, they still are
    at the end of the propagation loop of [pushAway], and every item of
    generation g + 1 has a pusher, the pusher has generation g, and the
    boxes of the two, grown by the buffer, do not intersect. *)
Theorem propagate_clear_of_pusher (fuel : nat) (items : list Item.t)
    (this : nat) (ds : list PushAwayData.t) :
  propagate fuel items this = Some ds ->
  Forall (fun it => wholeRect (Item.bounds it)) items ->
  (forall i d, ds !! i = Some d -> wholeRect (bounds d)) /\
  forall i d g, ds !! i = Some d -> generation d = Gen.Fin (S g) ->
    exists p dp, pusher d = Some p /\ ds !! p = Some dp /\
      generation dp = Gen.Fin g /\
      Rect.intersects (inflate (bounds d)) (inflate (bounds dp)) = false.
Proof.
  intros Hp Hw. split; [exact (whole_propagate _ _ _ _ Hp Hw)|].
  intros i d g Hd Hg.
  pose proof (propagate_chainOK _ _ _ _ Hp i d Hd) as Hch. rewrite Hg in Hch.
  destruct Hch as (p & _ & _ & Hpu & _).
  destruct (bfsInv_propagate _ _ _ _ Hp i d p Hd Hpu) as (dp & m & Hdp & Hgp & Hgd & Hni).
  exists p, dp. split_and!; try assumption. congruence.
Qed.

Lemma translated_seed items this ds : seed items this = Some ds -> translated items ds.
Proof.
  intros Hs. destruct (seed_spec _ _ _ Hs) as (_ & _ & Hlk).
  intros i it d Hit Hd. rewrite Hlk, Hit in Hd. simpl in Hd. injection Hd as <-.
  destruct (Nat.eqb i this); simpl; auto.
Qed.

Lemma translated_pushOne items b ds ds' pushed :
  translated items ds -> pushOne b ds = Some (ds', pushed) -> translated items ds'.
Proof.
  intros Ht Hp. destruct (pushOne_spec _ _ _ _ Hp) as (bd & Hbd & _ & Hlk & _).
  intros i it d' Hit Hd'. rewrite Hlk in Hd'.
  destruct (ds !! i) as [d|] eqn:Hd; [|discriminate]. injection Hd' as <-.
  destruct (Ht i it d Hit Hd) as (Hw & Hh & Hsb & Hn).
  destruct (pushEach_cases b (generation bd) (inflate (bounds bd)) i d)
    as [(E & _)|(_ & _ & _ & E)]; rewrite E; cbn [fst].
  - auto.
  - cbn [bounds startBounds pusher Rect.offset Rect.width Rect.height].
    split_and!; try assumption. discriminate.
Qed.

Lemma translated_propagate fuel items this ds :
  propagate fuel items this = Some ds -> translated items ds.
Proof.
  unfold propagate.
  destruct (seed items this) as [ds0|] eqn:Hs; [|discriminate]. intros Hl.
  apply (pushLoop_invariant (fun s _ => translated items s)
           (fun s b rest s' pushed H1 H2 => translated_pushOne items b s s' pushed H1 H2)
           fuel ds0 [this] ds (translated_seed _ _ _ Hs) Hl).
Qed.

(** X23: the propagation loop of [pushAway] only translates: every item
    keeps its width and height and its start bounds; the seed, and only
    the seed, has generation 0; the seed and every item that was never
    pushed are where they were and have no pusher. *)
Theorem propagate_translates (fuel : nat) (items : list Item.t) (this : nat)
    (ds : list PushAwayData.t) :
  propagate fuel items this = Some ds ->
  length ds = length items /\
  forall i it, items !! i = Some it ->
    exists d, ds !! i = Some d /\
      Rect.width (bounds d) = Rect.width (Item.bounds it) /\
      Rect.height (bounds d) = Rect.height (Item.bounds it) /\
      startBounds d = Item.bounds it /\
      (generation d = Gen.Fin 0 <-> i = this) /\
      (generation d = Gen.Fin 0 \/ generation d = Gen.Infinity ->
       bounds d = Item.bounds it /\ pusher d = None).
Proof.
  intros Hp. pose proof (propagate_length _ _ _ _ Hp) as Hlen.
  split; [exact Hlen|]. intros i it Hit.
  destruct (lookup_lt_is_Some_2 ds i) as [d Hd].
  { rewrite Hlen. eapply lookup_lt_Some; eassumption. }
  exists d. split; [exact Hd|].
  pose proof (translated_propagate _ _ _ _ Hp) as Ht.
  destruct (Ht i it d Hit Hd) as (Hw & Hh & Hsb & Hn).
  pose proof (propagate_chainOK _ _ _ _ Hp i d Hd) as Hch.
  assert (Hthis : (this < length items)%nat).
  { unfold propagate in Hp. destruct (seed items this) eqn:Hs; [|discriminate].
    now destruct (seed_spec _ _ _ Hs). }
  destruct (lookup_lt_is_Some_2 items this Hthis) as [s Hs].
  destruct (firstGenInv_propagate _ _ _ _ _ Hs Hp) as ((sd & Hsd & Hsg & _) & Hnz & _).
  split_and!; try assumption.
  - split.
    + intros Hg. destruct (decide (i = this)) as [|Hne]; [assumption|].
      exfalso. exact (Hnz i d Hne Hd Hg).
    + intros ->. congruence.
  - intros [Hg|Hg]; rewrite Hg in Hch; auto.
Qed.
(** ** What a pass leaves in place *)

Lemma apply_untouched fuel j ps ps2 ss ds ds' i d :
  chainOK ds -> apply fuel j ps ps2 ss ds = Some ds' ->
  ds !! i = Some d ->
  generation d = Gen.Fin 0 \/ (generation d = Gen.Infinity /\ i <> j) ->
  ds' !! i = Some d.
Proof.
  revert j ps ds. induction fuel as [|fuel IH]; intros j ps ds Hc H Hd Hg;
    [discriminate|].
  cbn [apply] in H. destruct (ds !! j) as [dj|] eqn:Hj; [|discriminate].
  destruct (Gen.is_zero (generation dj)) eqn:Hz; [injection H as <-; assumption|].
  assert (Hij : i <> j).
  { intros ->. rewrite Hj in Hd. injection Hd as ->.
    destruct Hg as [Hg|[_ ?]]; [|congruence]. rewrite Hg in Hz. discriminate. }
  match type of H with context [<[j := ?x]> ds] => set (ds1 := <[j := x]> ds) in * end.
  assert (H1 : sameMeta ds ds1) by now apply sameMeta_set_bounds.
  assert (Hd1 : ds1 !! i = Some d).
  { subst ds1. rewrite list_lookup_insert_ne; auto. }
  pose proof (Hc j dj Hj) as Hcj.
  destruct (pusher dj) as [p|] eqn:Hpu.
  - eapply IH; [eapply chainOK_sameMeta; eassumption|exact H|exact Hd1|].
    destruct Hg as [Hg|[Hg _]]; [now left|right]. split; [assumption|].
    intros ->. destruct (generation dj) as [[|g]|]; try discriminate.
    destruct Hcj as (p' & dp & g' & [= <-] & Hdp & Hgp & _). congruence.
  - now injection H as <-.
Qed.

Lemma squishItem_untouched fuel page j ds ds' i d :
  chainOK ds -> squishItem fuel page j ds = Some ds' -> ds !! i = Some d ->
  generation d = Gen.Fin 0 \/
  (generation d = Gen.Infinity /\ withinPage page (bounds d)) ->
  ds' !! i = Some d.
Proof.
  intros Hc H Hd Hg. destruct (decide (i = j)) as [->|Hij].
  - rewrite (squishItem_within fuel page j d ds Hd) in H.
    + now injection H as <-.
    + destruct Hg as [Hg|[_ Hw]]; [left; now rewrite Hg|now right].
  - revert H. unfold squishItem. destruct (ds !! j) as [dj|]; [|discriminate].
    destruct (Gen.is_zero _); [intros [= <-]; assumption|].
    destruct (squishAxis _ _ _ _ _) as [[px p2x] sx].
    destruct (squishAxis _ _ _ _ _) as [[py p2y] sy].
    destruct (_ || _); [|intros [= <-]; assumption].
    intros H. eapply apply_untouched; try eassumption.
    destruct Hg as [?|[? _]]; auto.
Qed.

Lemma squish_untouched fuel page ds ds' i d :
  chainOK ds -> squish fuel page ds = Some ds' -> ds !! i = Some d ->
  generation d = Gen.Fin 0 \/
  (generation d = Gen.Infinity /\ withinPage page (bounds d)) ->
  ds' !! i = Some d.
Proof.
  intros Hc H Hd Hg. unfold squish in H. revert H.
  generalize (seq 0 (length ds)). intros idx H.
  destruct (forEachItem_invariant (squishItem fuel page)
              (fun s => chainOK s /\ s !! i = Some d) idx ds ds') as [_ Hr];
    [|auto|exact H|exact Hr].
  intros j s s1 _ [Hcs Hds] Hs1. split.
  - eapply chainOK_sameMeta; [eapply squishItem_sameMeta; eassumption|assumption].
  - eapply squishItem_untouched; eassumption.
Qed.

(** X24: after the propagation, the squish pass of [pushAway] leaves the
    seed as it is, and also every item that was never pushed and lies in
    the page bounds. *)
Theorem squish_keeps_unpushed (fuel fuel' : nat) (items : list Item.t)
    (this : nat) (page : Rect.t) (ds ds' : list PushAwayData.t) :
  propagate fuel items this = Some ds ->
  squish fuel' page ds = Some ds' ->
  forall i d, ds !! i = Some d ->
    generation d = Gen.Fin 0 \/
    (generation d = Gen.Infinity /\ withinPage page (bounds d)) ->
    ds' !! i = Some d.
Proof.
  intros Hp Hs i d Hd Hg.
  eapply squish_untouched; try eassumption.
  eapply propagate_chainOK; eassumption.
Qed.

Lemma unsquish_keeps_fixed page pairs i pr :
  pairs !! i = Some pr ->
  Rect.equals (Unsquish.bounds pr) (Unsquish.target page pr) = true ->
  Unsquish.unsquish page pairs !! i = Some pr.
Proof.
  intros Hpr He.
  apply (unsquish_invariant page (fun ps => ps !! i = Some pr)); [assumption|].
  intros k ps Hps.
  destruct (unsquishPair_cases page k ps) as [->|(pk & Hpk & _ & Hne & ->)];
    [assumption|].
  destruct (decide (k = i)) as [->|Hki].
  - rewrite Hps in Hpk. injection Hpk as <-. congruence.
  - rewrite list_lookup_insert_ne; auto.
Qed.

Lemma resolve_untouched fuel w items this ds i it d :
  resolve fuel w items this = Some ds ->
  items !! i = Some it -> ds !! i = Some d ->
  settled (Items.getSafeWindowBounds w) it ->
  generation d = Gen.Fin 0 \/ generation d = Gen.Infinity ->
  bounds d = Item.bounds it /\ startBounds d = Item.bounds it.
Proof.
  intros Hr Hit Hd Hset Hg.
  destruct (resolve_spec _ _ _ _ _ Hr) as (ds1 & ds2 & Hp & Hs & ->).
  set (page := Items.getSafeWindowBounds w) in *.
  apply lookup_zip_with_Some in Hd. destruct Hd as (d2 & p' & -> & Hd2 & Hp').
  cbn [set_bounds generation bounds startBounds] in *.
  pose proof (squish_sameMeta _ _ _ _ Hs) as Hm.
  destruct (lookup_lt_is_Some_2 ds1 i) as [d1 Hd1].
  { rewrite <- (sameMeta_length _ _ Hm). eapply lookup_lt_Some; eassumption. }
  destruct (sameMeta_fields _ _ _ _ _ Hm Hd1 Hd2) as (Hg2 & _ & _).
  rewrite Hg2 in Hg.
  destruct (translated_propagate _ _ _ _ Hp i it d1 Hit Hd1) as (_ & _ & Hsb & Hb).
  pose proof (propagate_chainOK _ _ _ _ Hp) as Hc.
  assert (Hpu : pusher d1 = None).
  { pose proof (Hc i d1 Hd1) as Hci. destruct Hg as [Hg|Hg]; rewrite Hg in Hci; exact Hci. }
  specialize (Hb Hpu).
  assert (E2 : ds2 !! i = Some d1).
  { eapply squish_untouched; try eassumption.
    destruct Hg as [Hg|Hg]; [now left|right]. split; [assumption|].
    rewrite Hb. apply Hset. }
  rewrite Hd2 in E2. injection E2 as ->.
  assert (Hpair : zip_with (fun it d => Unsquish.mkPair it (bounds d)) items ds2 !! i
                  = Some (Unsquish.mkPair it (Item.bounds it))).
  { apply lookup_zip_with_Some. exists it, d1. rewrite Hb. auto. }
  rewrite (unsquish_keeps_fixed page _ i _ Hpair) in Hp'.
  - injection Hp' as <-. cbn [Unsquish.bounds]. auto.
  - cbn [Unsquish.bounds]. now apply target_settled.
Qed.

Lemma commit_pushAwayData it d :
  Item.pushAwayData (commit it d) = Some d /\
  Item.userSize (commit it d) = Item.userSize it.
Proof.
  unfold commit. destruct (negb _); [|split; reflexivity].
  unfold Item.setBounds. destruct (_ && _); split; reflexivity.
Qed.

Lemma commit_unmoved it d :
  bounds d = Item.bounds it -> startBounds d = Item.bounds it ->
  Item.bounds (commit it d) = Item.bounds it.
Proof.
  intros Hb Hs. unfold commit. rewrite Hb, Hs, equals_refl. reflexivity.
Qed.

(** X25: [pushAway] does not move or resize an item that ends the pass
    with generation 0 or Infinity (the seed, or never pushed), when that
    item was at least as large as its preferred size and in the safe
    window bounds. *)
Theorem pushAway_keeps_unpushed (fuel : nat) (w : Items.Window)
    (items items' : list Item.t) (this i : nat) (it it' : Item.t)
    (d : PushAwayData.t) :
  pushAway fuel w items this = Some items' ->
  items !! i = Some it -> items' !! i = Some it' ->
  settled (Items.getSafeWindowBounds w) it ->
  Item.pushAwayData it' = Some d ->
  generation d = Gen.Fin 0 \/ generation d = Gen.Infinity ->
  Item.bounds it' = Item.bounds it.
Proof.
  unfold pushAway. destruct (length items <? 2)%nat.
  - intros [= <-] Hit Hit'. congruence.
  - destruct (resolve fuel w items this) as [ds|] eqn:Hr; [|discriminate].
    intros [= <-] Hit Hit' Hset Hd Hg.
    apply lookup_zip_with_Some in Hit'. destruct Hit' as (it0 & d0 & -> & Hit0 & Hd0).
    rewrite Hit in Hit0. injection Hit0 as <-.
    rewrite (proj1 (commit_pushAwayData it d0)) in Hd. injection Hd as ->.
    destruct (resolve_untouched _ _ _ _ _ _ _ _ Hr Hit Hd0 Hset Hg) as [Hb Hs].
    now apply commit_unmoved.
Qed.

Lemma resolve_seed fuel w items this ds s :
  resolve fuel w items this = Some ds -> items !! this = Some s ->
  exists d, ds !! this = Some d /\ generation d = Gen.Fin 0.
Proof.
  intros Hr Hs. pose proof (resolve_length _ _ _ _ _ Hr) as Hlen.
  destruct (lookup_lt_is_Some_2 ds this) as [d Hd].
  { rewrite Hlen. eapply lookup_lt_Some; eassumption. }
  exists d. split; [assumption|].
  destruct (resolve_spec _ _ _ _ _ Hr) as (ds1 & ds2 & Hp & Hsq & ->).
  apply lookup_zip_with_Some in Hd. destruct Hd as (d2 & p' & -> & Hd2 & _).
  cbn [set_bounds generation].
  destruct (firstGenInv_propagate _ _ _ _ _ Hs Hp) as ((sd & Hsd & Hsg & _) & _).
  pose proof (squish_sameMeta _ _ _ _ Hsq) as Hm.
  destruct (sameMeta_fields _ _ _ _ _ Hm Hsd Hd2) as (-> & _ & _). assumption.
Qed.

Lemma pushAway_seed_unmoved fuel w items items' this s :
  pushAway fuel w items this = Some items' ->
  items !! this = Some s ->
  settled (Items.getSafeWindowBounds w) s ->
  exists s', items' !! this = Some s' /\
             Item.bounds s' = Item.bounds s /\
             Item.userSize s' = Item.userSize s.
Proof.
  unfold pushAway. destruct (length items <? 2)%nat.
  - intros [= <-] Hs _. eauto.
  - destruct (resolve fuel w items this) as [ds|] eqn:Hr; [|discriminate].
    intros [= <-] Hs Hset.
    destruct (resolve_seed _ _ _ _ _ _ Hr Hs) as (d & Hd & Hg).
    exists (commit s d). split_and!.
    + apply lookup_zip_with_Some. exists s, d. auto.
    + destruct (resolve_untouched _ _ _ _ _ _ _ _ Hr Hs Hd Hset (or_introl Hg)) as [Hb Hsb].
      now apply commit_unmoved.
    + apply commit_pushAwayData.
Qed.

(** X26: an item that is at least as large as its preferred size and in
    the safe window bounds is neither moved nor resized by its own
    [pushAway], and keeps its user size. *)
Theorem pushAway_keeps_settled_seed (fuel : nat) (w : Items.Window)
    (items items' : list Item.t) (this : nat) (s : Item.t) :
  pushAway fuel w items this = Some items' ->
  items !! this = Some s ->
  settled (Items.getSafeWindowBounds w) s ->
  exists s', items' !! this = Some s' /\
             Item.bounds s' = Item.bounds s /\
             Item.userSize s' = Item.userSize s.
Proof. apply pushAway_seed_unmoved. Qed.

(** X27: when a resize ends ([setUserSize] then [pushAway]) on an item
    that lies in the safe window bounds, the item keeps the bounds the
    user gave it, and its user size is the size of those bounds. *)
Theorem resize_stop_keeps_item (fuel : nat) (w : Items.Window)
    (items items' : list Item.t) (self : nat) (s : Item.t) :
  items !! self = Some s ->
  withinPage (Items.getSafeWindowBounds w) (Item.bounds s) ->
  Resize.stop fuel w items self = Some items' ->
  exists s', items' !! self = Some s' /\
             Item.bounds s' = Item.bounds s /\
             Item.userSize s' =
             Some (Point.mk (Rect.width (Item.bounds s))
                            (Rect.height (Item.bounds s))).
Proof.
  intros Hs Hw. unfold Resize.stop. rewrite Hs. intros Hp.
  destruct (pushAway_seed_unmoved _ _ _ _ _ (ItemOps.setUserSize s) Hp)
    as (s' & Hs' & Hb & Hu).
  - apply list_lookup_insert_eq. eapply lookup_lt_Some; eassumption.
  - unfold settled, preferredSize, ItemOps.setUserSize.
    cbn [Item.userSize Item.bounds Point.x Point.y]. split_and!; [lra|lra|assumption].
  - exists s'. auto.
Qed.
(** ** Items.unsquish without arguments *)

Lemma setBounds_same (it : Item.t) :
  minSize (Item.bounds it) -> Item.setBounds it (Item.bounds it) = it.
Proof.
  intros [Hw Hh]. unfold Item.setBounds, Items.calcValidSize. proj_simpl.
  rewrite (Qmax_left _ _ Hw), (Qmax_left _ _ Hh).
  assert (Hq : forall a, Qeq_bool a a = true) by (intros a; now apply Qeq_bool_iff).
  now rewrite !Hq.
Qed.

Lemma unsquish_items_lookup w items i it :
  Forall (fun it => minSize (Item.bounds it)) items ->
  items !! i = Some it ->
  exists p,
    Unsquish.unsquish (Items.getSafeWindowBounds w)
      (map (fun item => Unsquish.mkPair item (Item.bounds item)) items) !! i
    = Some p /\
    Unsquish.item p = it /\
    Rect.width (Item.bounds it) <= Rect.width (Unsquish.bounds p) /\
    Rect.height (Item.bounds it) <= Rect.height (Unsquish.bounds p) /\
    ItemsOps.unsquish w items !! i = Some (Item.setBounds it (Unsquish.bounds p)) /\
    Rect.eq (Item.bounds (Item.setBounds it (Unsquish.bounds p))) (Unsquish.bounds p).
Proof.
  intros Hmin Hit.
  set (pairs := map (fun item => Unsquish.mkPair item (Item.bounds item)) items).
  set (page := Items.getSafeWindowBounds w).
  assert (Hp : pairs !! i = Some (Unsquish.mkPair it (Item.bounds it))).
  { subst pairs. rewrite list_lookup_fmap, Hit. reflexivity. }
  destruct (unsquish_grownFrom page pairs) as [Hlen Hg].
  destruct (lookup_lt_is_Some_2 (Unsquish.unsquish page pairs) i) as [p Hp'].
  { rewrite Hlen. eapply lookup_lt_Some; eassumption. }
  destruct (Hg i _ p Hp Hp') as (Hi & Hw & Hh).
  cbn [Unsquish.item Unsquish.bounds] in Hi, Hw, Hh.
  rewrite Forall_lookup in Hmin. destruct (Hmin i it Hit) as [Hmw Hmh].
  exists p. split_and!; try assumption.
  - unfold ItemsOps.unsquish. fold pairs page.
    rewrite list_lookup_fmap, Hp'. simpl. now rewrite Hi.
  - pose proof (setBounds_bounds it (Unsquish.bounds p)) as He.
    rewrite (Qmax_left (Rect.width (Unsquish.bounds p)) Items.minItemWidth),
            (Qmax_left (Rect.height (Unsquish.bounds p)) Items.minItemHeight) in He
      by lra.
    destruct He as (E1 & E2 & E3 & E4). unfold Rect.eq. auto.
Qed.

(** X28: [Items.unsquish()] without arguments, on items of at least the
    minimum size, keeps the number of items and their user sizes, makes
    no item narrower or lower, and keeps apart every two items that did
    not intersect. *)
Theorem unsquish_items_grow (w : Items.Window) (items : list Item.t) :
  Forall (fun it => minSize (Item.bounds it)) items ->
  let items' := ItemsOps.unsquish w items in
  length items' = length items /\
  (forall i it, items !! i = Some it ->
     exists it', items' !! i = Some it' /\
       Item.userSize it' = Item.userSize it /\
       Rect.width (Item.bounds it) <= Rect.width (Item.bounds it') /\
       Rect.height (Item.bounds it) <= Rect.height (Item.bounds it')) /\
  (forall i j a b a' b', i <> j ->
     items !! i = Some a -> items !! j = Some b ->
     Rect.intersects (Item.bounds a) (Item.bounds b) = false ->
     items' !! i = Some a' -> items' !! j = Some b' ->
     Rect.intersects (Item.bounds a') (Item.bounds b') = false).
Proof.
  intros Hmin items'. split_and!.
  - subst items'. unfold ItemsOps.unsquish.
    now rewrite length_map, unsquish_length, length_map.
  - intros i it Hit.
    destruct (unsquish_items_lookup w items i it Hmin Hit)
      as (p & _ & _ & Hw & Hh & Hl & (_ & _ & Ew & Eh)).
    eexists. split; [exact Hl|]. split_and!.
    + unfold Item.setBounds. destruct (_ && _); reflexivity.
    + rewrite Ew. exact Hw.
    + rewrite Eh. exact Hh.
  - intros i j a b a' b' Hij Ha Hb Hab Ha' Hb'.
    destruct (unsquish_items_lookup w items i a Hmin Ha)
      as (pa & Hpa & _ & _ & _ & Hla & Ea).
    destruct (unsquish_items_lookup w items j b Hmin Hb)
      as (pb & Hpb & _ & _ & _ & Hlb & Eb).
    subst items'. rewrite Hla in Ha'. rewrite Hlb in Hb'.
    injection Ha' as <-. injection Hb' as <-.
    rewrite (intersects_eq _ _ _ _ Ea Eb).
    refine (unsquish_apart _ _ i j Hij _ pa pb Hpa Hpb).
    intros qa qb Hqa Hqb. rewrite list_lookup_fmap in Hqa, Hqb.
    rewrite Ha in Hqa. rewrite Hb in Hqb. simpl in Hqa, Hqb.
    injection Hqa as <-. injection Hqb as <-. exact Hab.
Qed.

(** X29: [Items.unsquish()] without arguments changes nothing when every
    item has at least the minimum size, is at least as large as its
    preferred size and lies in the safe window bounds. *)
Theorem unsquish_items_fixed (w : Items.Window) (items : list Item.t) :
  Forall (fun it => minSize (Item.bounds it)) items ->
  Forall (settled (Items.getSafeWindowBounds w)) items ->
  ItemsOps.unsquish w items = items.
Proof.
  intros Hmin Hset. unfold ItemsOps.unsquish.
  rewrite unsquish_settled.
  - rewrite map_map. cbn [Unsquish.item Unsquish.bounds].
    rewrite <- (map_id items) at 2. apply map_ext_in. intros it Hin.
    apply setBounds_same. rewrite Forall_forall in Hmin. apply Hmin.
    now apply list_elem_of_In.
  - intros i pr Hpr. rewrite list_lookup_fmap in Hpr.
    destruct (items !! i) as [it|] eqn:Hit; [|discriminate].
    simpl in Hpr. injection Hpr as <-. cbn [Unsquish.bounds].
    apply target_settled. rewrite Forall_lookup in Hset. exact (Hset i it Hit).
Qed.

(** ** Arrangements that stay inside their bounds *)

Lemma rows_cover (count : nat) (bounds : Rect.t) (m : Q) (c : nat) :
  (1 <= c)%nat -> (count <= rows (figure count bounds m c) * c)%nat.
Proof.
  intros Hc. unfold figure. cbn [rows].
  set (q := Qnat count / Qnat c). set (z := Qceiling q).
  pose proof (Qnat_pos c Hc) as Hcp.
  assert (Hq : q <= inject_Z z) by apply Qle_ceiling.
  assert (Hq0 : 0 <= q).
  { unfold q. apply Qle_shift_div_l; [assumption|].
    rewrite Qmult_0_l. unfold Qnat. change 0 with (inject_Z 0).
    rewrite <- Zle_Qle. lia. }
  assert (Hz : (0 <= z)%Z).
  { rewrite Zle_Qle. change (inject_Z 0) with 0. lra. }
  assert (Hmul : Qnat count <= inject_Z z * Qnat c).
  { assert (E : Qnat count == q * Qnat c) by (unfold q; field; lra).
    rewrite E. apply Qmult_le_compat_r; [assumption|lra]. }
  unfold Qnat in Hmul. rewrite <- inject_Z_mult, <- Zle_Qle in Hmul.
  apply Nat2Z.inj_le. rewrite Nat2Z.inj_mul, Z2Nat.id by assumption. exact Hmul.
Qed.

(** The layout of [arrange] with the cell size written out. *)
Lemma arrange_layout_sizes (rtl : bool) (items : option (list ArrItem))
    (bounds : Rect.t) (options : Options) :
  (1 <= itemCount items options)%nat ->
  let m := itemMarginOf items in
  let count := itemCount items options in
  exists c,
    (1 <= c)%nat /\ fits count bounds m c /\
    let f := figure count bounds m c in
    let tw := if Nat.eqb (rows f) 1
              then Qmax (tabWidth f) Items.minItemWidth else tabWidth f in
    let th := if Nat.eqb (rows f) 1
              then Qmax (Rect.height bounds - 2 * m) Items.minItemHeight
              else tabHeight f in
    exists rects di,
      arrange rtl items bounds (withReturn false options)
      = Some (Arranged rects di (Some c)) /\
      length rects = count /\
      forall a r, rects !! a = Some r ->
        cellAt (Rect.left bounds + gridOffset rtl bounds m tw) (Rect.top bounds)
               tw th (padding m) (gridDir rtl) c a r.
Proof.
  intros Hcount m count. subst count. unfold arrange.
  change (itemCount items (withReturn false options)) with (itemCount items options).
  cbn [columns withReturn returnWidthAndColumns].
  destruct (itemCount items options) as [|n] eqn:Ec; [lia|]. fold m.
  destruct (figureLoop_first_fit (S n) bounds m (S n) (orElse (columns options) 1)
              (orElse_pos _) ltac:(lia)) as (c & -> & Hc0 & _ & Hfit & _).
  pose proof (orElse_pos (columns options)) as Hpos.
  exists c. split_and!; [lia|exact Hfit|]. cbv zeta.
  set (f := figure (S n) bounds m c).
  set (tw := if Nat.eqb (rows f) 1
             then Qmax (tabWidth f) Items.minItemWidth else tabWidth f).
  set (th := if Nat.eqb (rows f) 1
             then Qmax (Rect.height bounds - 2 * m) Items.minItemHeight
             else tabHeight f).
  assert (Hsize : (if Nat.eqb (rows f) 1
             then (Point.x (Items.calcValidSize
                     (Point.mk (tabWidth f) (Rect.height bounds - 2 * m))),
                   Point.y (Items.calcValidSize
                     (Point.mk (tabWidth f) (Rect.height bounds - 2 * m))))
             else (tabWidth f, tabHeight f)) = (tw, th)).
  { unfold tw, th. destruct (Nat.eqb (rows f) 1); reflexivity. }
  rewrite Hsize.
  fold (gridOffset rtl bounds m tw).
  set (e0 := {| box := _; column := _; dropIndex := DropFalse; rects := [] |}).
  pose proof (emitInv_loop bounds m rtl c (gridOffset rtl bounds m tw) tw th
                (dropRectOf (withReturn false options)) (S n) 0 e0 ltac:(lia)) as Hinv.
  destruct Hinv as (Hlen & _ & _ & Hcells).
  { unfold emitInv, e0, cellAt. cbn [rects column box]. proj_simpl.
    rewrite Nat.Div0.mod_0_l, Nat.Div0.div_0_l.
    split_and!; try reflexivity.
    - rewrite Qnat_zero. ring.
    - rewrite Qnat_zero. ring.
    - intros k r Hk. discriminate. }
  eexists _, _. split; [reflexivity|]. split; [exact Hlen|exact Hcells].
Qed.

(** X30: for bounds at whole-number coordinates and an item margin that
    is not negative: when the width left per column, without the
    margins, is a whole number and at least the minimum item width (so
    the cells are not held at the minimum width), and, for a single row,
    the bounds less the margins are at least as high as the minimum item
    height, every rectangle of the arrangement lies inside the bounds. *)
Theorem arrange_cells_within_bounds (rtl : bool) (items : option (list ArrItem))
    (bounds : Rect.t) (options : Options) :
  (1 <= itemCount items options)%nat ->
  returnWidthAndColumns options = false ->
  0 <= itemMarginOf items ->
  wholeRect bounds ->
  let m := itemMarginOf items in
  let count := itemCount items options in
  exists rects di c,
    arrange rtl items bounds options = Some (Arranged rects di (Some c)) /\
    (Items.minItemWidth <= (Rect.width bounds - padding m * Qnat c) / Qnat c ->
     whole ((Rect.width bounds - padding m * Qnat c) / Qnat c) ->
     ((rows (figure count bounds m c) <= 1)%nat ->
      Items.minItemHeight <= Rect.height bounds - 2 * m) ->
     Forall (fun r => Rect.contains bounds r = true) rects).
Proof.
  intros Hcount Hret Hm _ m count.
  destruct (arrange_layout_sizes rtl items bounds options Hcount)
    as (c & Hc & Hfit & rects & di & Harr & Hlen & Hcells).
  fold m count in Hfit, Harr, Hlen, Hcells.
  exists rects, di, c. split.
  { rewrite arrange_withReturn, Hret. exact Harr. }
  intros Hwide _ Hhigh. apply Forall_lookup. intros a r Hr.
  specialize (Hcells a r Hr).
  set (f := figure count bounds m c) in *.
  pose proof (Qnat_pos c Hc) as Hcp.
  assert (Ha : (a < count)%nat).
  { rewrite <- Hlen. eapply lookup_lt_Some; eassumption. }
  pose proof (rows_cover count bounds m c Hc) as Hcov. fold f in Hcov.
  assert (Hrow : Qnat (a / c) + 1 <= Qnat (rows f)).
  { apply Qnat_lt. apply Nat.Div0.div_lt_upper_bound. lia. }
  assert (Hcol : Qnat (a mod c) + 1 <= Qnat c).
  { apply Qnat_lt. apply Nat.mod_upper_bound. lia. }
  assert (Hcol0 : 0 <= Qnat (a mod c)).
  { change 0 with (Qnat 0). apply Qnat_le. lia. }
  assert (Hrow0 : 0 <= Qnat (a / c)).
  { change 0 with (Qnat 0). apply Qnat_le. lia. }
  assert (Etw : tabWidth f = (Rect.width bounds - padding m * Qnat c) / Qnat c).
  { unfold f, figure. cbn [tabWidth Items.calcValidSize Point.x].
    now apply Qmax_left. }
  assert (Eth : tabHeight f = Items.minItemHeight).
  { unfold f, figure. cbn [tabHeight Items.calcValidSize Point.y].
    apply Qmax_right. unfold Items.minItemHeight. lra. }
  assert (Hm' : 0 <= m) by exact Hm.
  assert (Hp : 0 <= padding m) by (unfold padding; lra).
  assert (Hrowfit : Qnat c * (tabWidth f + padding m) == Rect.width bounds).
  { rewrite Etw. field. lra. }
  assert (Hw0 : 0 < tabWidth f).
  { rewrite Etw. unfold Items.minItemWidth in Hwide. lra. }
  destruct Hcells as (El & Et & Ew & Eh).
  apply contains_true. unfold Rect.right, Rect.bottom. rewrite El, Et, Ew, Eh.
  assert (Hx : Rect.left bounds
                 <= Rect.left bounds
                    + gridOffset rtl bounds m
                        (if Nat.eqb (rows f) 1
                         then Qmax (tabWidth f) Items.minItemWidth else tabWidth f)
                    + gridDir rtl * Qnat (a mod c)
                      * ((if Nat.eqb (rows f) 1
                          then Qmax (tabWidth f) Items.minItemWidth
                          else tabWidth f) + padding m) /\
               Rect.left bounds
                 + gridOffset rtl bounds m
                     (if Nat.eqb (rows f) 1
                      then Qmax (tabWidth f) Items.minItemWidth else tabWidth f)
                 + gridDir rtl * Qnat (a mod c)
                   * ((if Nat.eqb (rows f) 1
                       then Qmax (tabWidth f) Items.minItemWidth
                       else tabWidth f) + padding m)
                 + (if Nat.eqb (rows f) 1
                    then Qmax (tabWidth f) Items.minItemWidth else tabWidth f)
                 <= Rect.left bounds + Rect.width bounds).
  { assert (Etw' : (if Nat.eqb (rows f) 1
                    then Qmax (tabWidth f) Items.minItemWidth else tabWidth f)
                   = tabWidth f).
    { destruct (Nat.eqb (rows f) 1); [|reflexivity].
      apply Qmax_left. rewrite Etw. exact Hwide. }
    rewrite Etw'. unfold gridOffset, gridDir.
    set (tw := tabWidth f) in *. set (p := padding m) in *.
    set (k := Qnat (a mod c)) in *. set (n := Qnat c) in *.
    assert (Hk : k * (tw + p) <= (n - 1) * (tw + p)).
    { apply Qmult_le_compat_r; lra. }
    assert (Hk0 : 0 <= k * (tw + p)) by (apply Qmult_le_0_compat; lra).
    assert (Hn : (n - 1) * (tw + p) == Rect.width bounds - tw - p).
    { rewrite <- Hrowfit. ring. }
    destruct rtl; split; lra. }
  assert (Hy : Rect.top bounds
                 <= Rect.top bounds
                    + Qnat (a / c)
                      * ((if Nat.eqb (rows f) 1
                          then Qmax (Rect.height bounds - 2 * m) Items.minItemHeight
                          else tabHeight f) + padding m) /\
               Rect.top bounds
                 + Qnat (a / c)
                   * ((if Nat.eqb (rows f) 1
                       then Qmax (Rect.height bounds - 2 * m) Items.minItemHeight
                       else tabHeight f) + padding m)
                 + (if Nat.eqb (rows f) 1
                    then Qmax (Rect.height bounds - 2 * m) Items.minItemHeight
                    else tabHeight f)
                 <= Rect.top bounds + Rect.height bounds).
  { destruct (Nat.eqb_spec (rows f) 1) as [E1|E1].
    - rewrite E1 in Hrow. change (Qnat 1) with 1 in Hrow.
      assert (E0 : Qnat (a / c) == 0) by lra.
      rewrite (Qmax_left _ _ (Hhigh ltac:(lia))). rewrite E0. split; lra.
    - assert (H2 : (2 <= rows f)%nat) by nia.
      destruct Hfit as [Hfit|Hfit]; [fold f in Hfit; lia|]. fold f in Hfit.
      unfold f, figure in Hfit. cbn [totalHeight] in Hfit.
      fold (figure count bounds m c) in Hfit.
      change (Point.y (Items.calcValidSize
                (Point.mk ((Rect.width bounds - padding m * Qnat c) / Qnat c) (-1))))
        with (tabHeight f) in Hfit.
      change (Z.to_nat (Qceiling (Qnat count / Qnat c))) with (rows f) in Hfit.
      set (th := tabHeight f) in *. set (p := padding m) in *.
      set (k := Qnat (a / c)) in *. set (n := Qnat (rows f)) in *.
      assert (Hth : 0 < th) by (rewrite Eth; unfold Items.minItemHeight; lra).
      assert (Hk : k * (th + p) <= (n - 1) * (th + p)).
      { apply Qmult_le_compat_r; lra. }
      assert (Hk0 : 0 <= k * (th + p)) by (apply Qmult_le_0_compat; lra).
      split; [lra|]. 
      assert (Hn : (n - 1) * (th + p) == th * n + p * n - th - p) by ring.
      lra. }
  destruct Hx as [Hx1 Hx2]. destruct Hy as [Hy1 Hy2].
  split_and!; assumption.
Qed.

(** ** Instances of the further properties *)

Lemma arrange_columns_first_fit_witness :
  exists r c,
    arrange false None (Rect.mk 0 0 600 300) (sixOptions None) = Some r /\
    resultColumns r = Some c /\ (1 <= c)%nat /\ (c <= 6)%nat.
Proof.
  destruct (arrange_columns_first_fit false None (Rect.mk 0 0 600 300)
              (sixOptions None) ltac:(vm_compute; lia))
    as (r & c & H1 & H2 & H3 & H4 & _).
  exists r, c. split_and!; [exact H1|exact H2|exact H3|exact H4].
Defined.

Lemma arrange_cells_uniform_witness :
  exists rects di c w h,
    arrange false None (Rect.mk 0 0 600 300) (withReturn false (sixOptions None))
    = Some (Arranged rects di (Some c)) /\
    length rects = 6%nat /\
    Forall (fun r => Rect.width r = w /\ Rect.height r = h) rects.
Proof.
  destruct (arrange_cells_uniform false None (Rect.mk 0 0 600 300)
              (sixOptions None) ltac:(vm_compute; lia))
    as (rects & di & c & w & h & H1 & _ & H3 & _ & _ & H6).
  exists rects, di, c, w, h. split_and!; [exact H1|exact H3|exact H6].
Defined.

Lemma arrange_cells_on_grid_witness :
  exists rects di c,
    arrange false None (Rect.mk 0 0 600 300) (sixOptions None)
    = Some (Arranged rects di (Some c)) /\ (1 <= c)%nat /\
    forall r, rects !! 4%nat = Some r ->
              Rect.left r == 200 /\ Rect.top r == 110.
Proof.
  assert (Hb : wholeRect (Rect.mk 0 0 600 300)).
  { split_and!; [exists 0%Z|exists 0%Z|exists 600%Z|exists 300%Z]; reflexivity. }
  destruct (arrange_cells_on_grid false None (Rect.mk 0 0 600 300)
              (sixOptions None) ltac:(vm_compute; lia) eq_refl Hb)
    as (rects & di & c & w & h & H1 & H2 & H3).
  exists rects, di, c. split_and!; [exact H1|exact H2|].
  assert (Hv : c = 3%nat /\ exists r0, rects !! 0%nat = Some r0 /\
                 Rect.width r0 == 200 /\ Rect.height r0 == 110).
  { vm_compute in H1. injection H1 as <- _ <-. split; [reflexivity|].
    eexists. split; [reflexivity|]. split; reflexivity. }
  destruct Hv as (-> & r0 & H0 & Ew0 & Eh0).
  destruct (H3 0%nat r0 H0) as (Ew & Eh & _).
  rewrite Ew in Ew0. rewrite Eh in Eh0.
  intros r Hr. destruct (H3 4%nat r Hr) as (_ & _ & Hl & Ht).
  split.
  - rewrite Hl; [|exists 200%Z; exact Ew0].
    unfold gridOffset, gridDir, itemMarginOf. cbn [Rect.left].
    change (Qnat (4 mod 3)) with 1. lra.
  - rewrite Ht. unfold itemMarginOf. cbn [Rect.top].
    change (Qnat (4 / 3)) with 1. lra.
Defined.


Lemma arrange_dropIndex_without_dropPos_witness :
  exists rects c,
    arrange false None (Rect.mk 0 0 600 300) (sixOptions None)
    = Some (Arranged rects DropFalse c).
Proof.
  exact (arrange_dropIndex_without_dropPos false None (Rect.mk 0 0 600 300)
           (sixOptions None) eq_refl eq_refl).
Defined.

Lemma setPosition_setSize_witness :
  Rect.eq (Item.bounds (ItemOps.setPosition (plainItem 100 100 200 200) 30 40))
          (Rect.mk 30 40 200 200) /\
  Rect.eq (Item.bounds (ItemOps.setSize (plainItem 100 100 200 200) 50 300))
          (Rect.mk 100 100 125 300).
Proof.
  exact (setPosition_setSize (plainItem 100 100 200 200) 30 40 50 300
           ltac:(split; discriminate)).
Defined.

Lemma unsquish_keeps_apart_witness :
  apart (Unsquish.unsquish (Items.getSafeWindowBounds bigWindow) (pairsOf wantsMore))
        0 1.
Proof.
  apply (unsquish_keeps_apart (Items.getSafeWindowBounds bigWindow)
           (pairsOf wantsMore) 0 1); [lia|].
  intros pi pj Hi Hj. injection Hi as <-. injection Hj as <-.
  vm_compute. reflexivity.
Defined.

Lemma unsquish_changed_clear_witness :
  exists p' pj,
    Unsquish.unsquish (Items.getSafeWindowBounds bigWindow) (pairsOf wantsMore)
      !! 0%nat = Some p' /\
    Unsquish.unsquish (Items.getSafeWindowBounds bigWindow) (pairsOf wantsMore)
      !! 1%nat = Some pj /\
    Rect.width (Unsquish.bounds p') = 300 /\
    Rect.intersects (Unsquish.bounds p') (Unsquish.bounds pj) = false.
Proof.
  eexists. eexists. split; [vm_compute; reflexivity|].
  split; [vm_compute; reflexivity|]. split; [reflexivity|].
  eapply (unsquish_changed_clear (Items.getSafeWindowBounds bigWindow)
            (pairsOf wantsMore) 0 1).
  - reflexivity.
  - vm_compute. reflexivity.
  - cbn [Unsquish.bounds]. discriminate.
  - lia.
  - vm_compute. reflexivity.
Defined.

Lemma unsquish_fixed_when_settled_witness :
  Unsquish.unsquish (Items.getSafeWindowBounds bigWindow) (pairsOf twoApart)
  = pairsOf twoApart.
Proof.
  apply unsquish_fixed_when_settled.
  unfold pairsOf, twoApart. cbn [map].
  repeat apply Forall_cons_2; try apply Forall_nil_2;
    vm_compute; intuition discriminate.
Defined.

Lemma getBoundingBox_least_witness :
  exists box,
    ItemsOps.getBoundingBox [Rect.mk 0 0 100 100; Rect.mk 50 20 200 30] = Some box /\
    Rect.contains box (Rect.mk 50 20 200 30) = true.
Proof.
  destruct (getBoundingBox_least [Rect.mk 0 0 100 100; Rect.mk 50 20 200 30]
              ltac:(discriminate)) as (box & H1 & _ & H2 & _).
  { repeat apply Forall_cons_2; try apply Forall_nil_2; split_and!;
      try (exists 0%Z; reflexivity); try (exists 100%Z; reflexivity);
      try (exists 50%Z; reflexivity); try (exists 20%Z; reflexivity);
      try (exists 200%Z; reflexivity); exists 30%Z; reflexivity. }
  exists box. split; [exact H1|]. apply H2. right. left.
Defined.

Lemma determineBestDropTarget_refusing_witness :
  Drop.determineBestDropTarget (fun _ : nat => false) (Some 2%nat)
    (Rect.mk 40 0 100 100) twoDroppables = Some 2%nat.
Proof.
  destruct (determineBestDropTarget_refusing (fun _ : nat => false) (Some 2%nat)
              (Rect.mk 40 0 100 100) twoDroppables (fun _ _ => eq_refl))
    as [H|H]; [vm_compute in H; discriminate|exact H].
Defined.

Lemma register_unregister_witness :
  Registry.items
    (Registry.unregister removeFromList 3%nat (Registry.register 3%nat smallRegistry))
  = Registry.items smallRegistry.
Proof.
  exact (proj1 (register_unregister removeFromList 3%nat smallRegistry eq_refl)).
Defined.

Lemma unregister_idempotent_witness :
  Registry.items
    (Registry.unregister removeFromList 2%nat
       (Registry.unregister removeFromList 2%nat smallRegistry))
  = Registry.items (Registry.unregister removeFromList 2%nat smallRegistry).
Proof.
  refine (proj1 (unregister_idempotent removeFromList 2%nat smallRegistry _)).
  simpl. apply NoDup_cons_2; [|apply NoDup_singleton].
  intros H. apply list_elem_of_singleton in H. discriminate H.
Defined.

Lemma propagate_clear_of_pusher_witness :
  exists ds d p dp,
    propagate 3 threeOverlapping 0 = Some ds /\
    ds !! 1%nat = Some d /\ pusher d = Some p /\ ds !! p = Some dp /\
    Rect.intersects (inflate (bounds d)) (inflate (bounds dp)) = false.
Proof.
  destruct (propagate 3 threeOverlapping 0) as [ds|] eqn:Hp;
    [|vm_compute in Hp; discriminate].
  destruct (ds !! 1%nat) as [d|] eqn:Hd;
    [|vm_compute in Hp; injection Hp as <-; discriminate].
  assert (Hw : Forall (fun it => wholeRect (Item.bounds it)) threeOverlapping).
  { unfold threeOverlapping, plainItem.
    repeat apply Forall_cons_2; try apply Forall_nil_2;
      cbn [Item.bounds]; split_and!;
      try (exists 500%Z; reflexivity); try (exists 200%Z; reflexivity);
      try (exists 650%Z; reflexivity); try (exists 520%Z; reflexivity);
      try (exists 150%Z; reflexivity); try (exists 660%Z; reflexivity);
      exists 540%Z; reflexivity. }
  destruct (proj2 (propagate_clear_of_pusher 3 threeOverlapping 0 ds Hp Hw)
              1%nat d 0%nat Hd)
    as (p & dp & H1 & H2 & _ & H4).
  - vm_compute in Hp. injection Hp as <-. vm_compute in Hd. injection Hd as <-.
    reflexivity.
  - exists ds, d, p, dp. split_and!; [reflexivity|exact Hd|exact H1|exact H2|exact H4].
Defined.

Lemma propagate_translates_witness :
  exists ds d,
    propagate 3 threeOverlapping 0 = Some ds /\ ds !! 1%nat = Some d /\
    Rect.width (bounds d) = 200 /\ Rect.height (bounds d) = 150.
Proof.
  destruct (propagate 3 threeOverlapping 0) as [ds|] eqn:Hp;
    [|vm_compute in Hp; discriminate].
  destruct (propagate_translates 3 threeOverlapping 0 ds Hp) as [_ H].
  destruct (H 1%nat (plainItem 650 520 200 150) eq_refl) as (d & Hd & Hw & Hh & _).
  exists ds, d. split_and!; [reflexivity|exact Hd|exact Hw|exact Hh].
Defined.

Lemma squish_keeps_unpushed_witness :
  exists ds ds' d,
    propagate 3 threeOverlapping 0 = Some ds /\
    squish 3 (Items.getSafeWindowBounds bigWindow) ds = Some ds' /\
    ds !! 0%nat = Some d /\ ds' !! 0%nat = Some d.
Proof.
  destruct (propagate 3 threeOverlapping 0) as [ds|] eqn:Hp;
    [|vm_compute in Hp; discriminate].
  destruct (squish 3 (Items.getSafeWindowBounds bigWindow) ds) as [ds'|] eqn:Hs;
    [|vm_compute in Hp; injection Hp as <-; vm_compute in Hs; discriminate].
  destruct (ds !! 0%nat) as [d|] eqn:Hd;
    [|vm_compute in Hp; injection Hp as <-; discriminate].
  exists ds, ds', d. split_and!; [reflexivity|exact Hs|exact Hd|].
  apply (squish_keeps_unpushed 3 3 threeOverlapping 0 _ ds ds' Hp Hs 0%nat d Hd).
  left. vm_compute in Hp. injection Hp as <-. vm_compute in Hd. injection Hd as <-.
  reflexivity.
Defined.

Lemma pushAway_keeps_settled_seed_witness :
  exists items' s',
    pushAway 3 bigWindow threeOverlapping 0 = Some items' /\
    items' !! 0%nat = Some s' /\ Item.bounds s' = Rect.mk 500 500 200 200.
Proof.
  destruct (pushAway 3 bigWindow threeOverlapping 0) as [items'|] eqn:Hp;
    [|vm_compute in Hp; discriminate].
  destruct (pushAway_keeps_settled_seed 3 bigWindow threeOverlapping items' 0
              (plainItem 500 500 200 200) Hp eq_refl)
    as (s' & Hs' & Hb & _).
  - vm_compute. intuition discriminate.
  - exists items', s'. split_and!; [reflexivity|exact Hs'|exact Hb].
Defined.

Lemma pushAway_keeps_unpushed_witness :
  exists items' it',
    pushAway 3 bigWindow twoApart 0 = Some items' /\
    items' !! 1%nat = Some it' /\ Item.bounds it' = Rect.mk 500 100 200 200.
Proof.
  destruct (pushAway 3 bigWindow twoApart 0) as [items'|] eqn:Hp;
    [|vm_compute in Hp; discriminate].
  destruct (items' !! 1%nat) as [it'|] eqn:Hit;
    [|vm_compute in Hp; injection Hp as <-; discriminate].
  destruct (Item.pushAwayData it') as [d|] eqn:Hd;
    [|vm_compute in Hp; injection Hp as <-; vm_compute in Hit;
      injection Hit as <-; discriminate].
  exists items', it'. split_and!; [reflexivity|exact Hit|].
  apply (pushAway_keeps_unpushed 3 bigWindow twoApart items' 0 1
           (plainItem 500 100 200 200) it' d Hp eq_refl Hit).
  - vm_compute. intuition discriminate.
  - exact Hd.
  - right. vm_compute in Hp. injection Hp as <-. vm_compute in Hit.
    injection Hit as <-. vm_compute in Hd. injection Hd as <-. reflexivity.
Defined.

Lemma resize_stop_keeps_item_witness :
  exists items' s',
    Resize.stop 3 bigWindow threeOverlapping 0 = Some items' /\
    items' !! 0%nat = Some s' /\ Item.bounds s' = Rect.mk 500 500 200 200 /\
    Item.userSize s' = Some (Point.mk 200 200).
Proof.
  destruct (Resize.stop 3 bigWindow threeOverlapping 0) as [items'|] eqn:Hp;
    [|vm_compute in Hp; discriminate].
  destruct (resize_stop_keeps_item 3 bigWindow threeOverlapping items' 0
              (plainItem 500 500 200 200) eq_refl)
    as (s' & Hs' & Hb & Hu).
  - vm_compute. intuition discriminate.
  - exact Hp.
  - exists items', s'. split_and!; [reflexivity|exact Hs'|exact Hb|exact Hu].
Defined.

Lemma unsquish_items_grow_witness :
  length (ItemsOps.unsquish bigWindow wantsMore) = 2%nat.
Proof.
  refine (proj1 (unsquish_items_grow bigWindow wantsMore _)).
  unfold wantsMore, minSize. repeat apply Forall_cons_2; try apply Forall_nil_2;
    cbn; split; discriminate.
Defined.

Lemma unsquish_items_fixed_witness :
  ItemsOps.unsquish bigWindow twoApart = twoApart.
Proof.
  apply unsquish_items_fixed.
  - unfold twoApart, minSize. repeat apply Forall_cons_2; try apply Forall_nil_2;
      cbn; split; discriminate.
  - unfold twoApart. repeat apply Forall_cons_2; try apply Forall_nil_2;
      vm_compute; intuition discriminate.
Defined.

Lemma arrange_cells_within_bounds_witness :
  exists rects di c,
    arrange false None (Rect.mk 0 0 600 300) (sixOptions None)
    = Some (Arranged rects di (Some c)) /\
    Forall (fun r => Rect.contains (Rect.mk 0 0 600 300) r = true) rects.
Proof.
  assert (Hb : wholeRect (Rect.mk 0 0 600 300)).
  { split_and!; [exists 0%Z|exists 0%Z|exists 600%Z|exists 300%Z]; reflexivity. }
  destruct (arrange_cells_within_bounds false None (Rect.mk 0 0 600 300)
              (sixOptions None) ltac:(vm_compute; lia) eq_refl
              ltac:(vm_compute; discriminate) Hb)
    as (rects & di & c & Harr & H).
  exists rects, di, c. split; [exact Harr|].
  assert (Hc : c = 3%nat).
  { vm_compute in Harr. injection Harr as _ _ <-. reflexivity. }
  subst c. apply H.
  - vm_compute. discriminate.
  - exists 200%Z. vm_compute. reflexivity.
  - intros Hr. exfalso. vm_compute in Hr. lia.
Defined.

Lemma handleMouseMove_anchored_witness :
  let self' := Resize.handleMouseMove true Resize.itemOptions
                 (Point.mk 400 400) (Point.mk 300 200) (Point.mk 410 430)
                 (plainItem 100 100 125 200) in
  Rect.right (Item.bounds self') == 225 /\
  Rect.width (Item.bounds self') == 125 /\
  Rect.height (Item.bounds self') == 230.
Proof.
  intros self'.
  pose proof (handleMouseMove_anchored true (Point.mk 400 400) (Point.mk 300 200)
                (Point.mk 410 430) (plainItem 100 100 125 200)) as H.
  cbv zeta in H. destruct H as (_ & _ & _ & H).
  destruct H as (Hh & _ & Hr).
  - split_and!; [exists 100%Z|exists 100%Z|exists 125%Z|exists 200%Z]; reflexivity.
  - split; [exists 300%Z|exists 200%Z]; reflexivity.
  - split; exists 400%Z; reflexivity.
  - split; [exists 410%Z|exists 430%Z]; reflexivity.
  - destruct (Hr eq_refl) as [Hright Hwidth]. subst self'.
    split_and!.
    + rewrite Hright. vm_compute. reflexivity.
    + rewrite Hwidth. vm_compute. reflexivity.
    + rewrite Hh. vm_compute. reflexivity.
Defined.
